(** * Imagene: the real-time transcription core

    A shallow embedding of three pieces of the repository, the
    properties its design document states about them and further
    properties read off the code:

    - [RingBuffer]: the shared sample channel ([RingBuffer.ts], the
      worker-side [WorkerRingBuffer] and the worklet's [pushToBuffer]),
      with its [WindowedRingBufferReader] and the recorder worklet
      [AudioRecorderProcessor] that feeds it;
    - [NoteDecoder]: the per-pitch hysteresis decoder of
      [Processor.worker.ts];
    - [Quantizer]: [BeatDetector] and [NoteQuantizer] of [Quantizer.ts].

    Conventions.  Indices held in the [Int32Array] are integers of [Z] and
    [Atomics.store] wraps them to 32 bits.  Samples are the elements of a
    [Float32Array]: an opaque type with one distinguished value, the NaN an
    out-of-range read turns into.  The JavaScript numbers that carry times,
    probabilities and beats are idealised as exact rationals ([Q]); rounding
    error of binary64 arithmetic is outside this model.  Mutable objects
    are passed in and handed back; a [while] loop runs on fuel and yields
    [None] when the fuel runs out before the loop ends. *)

From stdpp Require Import base list.
From Stdlib Require Import ZArith QArith Qround Qabs Qminmax Lia Lqa.
From Stdlib Require Import Sorted Permutation.

(** ** JavaScript numbers and collections *)

Module Js.

Local Open Scope Q_scope.

(** Comparisons of numbers, as booleans. *)
Definition ltb (x y : Q) : bool := negb (Qle_bool y x).
Definition leb (x y : Q) : bool := Qle_bool x y.
Definition gtb (x y : Q) : bool := negb (Qle_bool x y).
Definition geb (x y : Q) : bool := Qle_bool y x.

(** [Math.round]: the nearest integer, halves towards plus infinity. *)
Definition Math_round (x : Q) : Z := Qfloor (x + (1 # 2)).

Definition Math_abs (x : Q) : Q := Qabs x.
Definition Math_max (x y : Q) : Q := if leb x y then y else x.
Definition Math_min (x y : Q) : Q := if leb x y then x else y.

(** A counting loop [for (let i = 0; i < n; i++) body(i)]. *)
Definition for_loop {S : Type} (n : Z) (body : Z -> S -> S) (s : S) : S :=
  fold_left (fun acc i => body (Z.of_nat i) acc) (seq 0 (Z.to_nat n)) s.

(** [while (cond) body], cut off after [fuel] evaluations of the
    condition; [None] stands for a loop still running. *)
Fixpoint while_loop {S : Type} (fuel : nat) (cond : S -> bool)
    (body : S -> S) (s : S) : option S :=
  match fuel with
  | O => None
  | Datatypes.S fuel' =>
      if cond s then while_loop fuel' cond body (body s) else Some s
  end.

(** A [Map] with integer keys.  Iteration follows insertion order, [set]
    on a present key keeps its place, so the entries are kept as an
    association list. *)
Module Map.
Section Map.
Context {V : Type}.

Definition t : Type := list (Z * V).

Definition has (k : Z) (m : t) : bool :=
  existsb (fun kv => Z.eqb (fst kv) k) m.

Definition get (k : Z) (m : t) : option V :=
  option_map snd (find (fun kv => Z.eqb (fst kv) k) m).

Definition set (k : Z) (v : V) (m : t) : t :=
  if has k m
  then map (fun kv => if Z.eqb (fst kv) k then (k, v) else kv) m
  else m ++ [(k, v)].

Definition delete (k : Z) (m : t) : t :=
  List.filter (fun kv => negb (Z.eqb (fst kv) k)) m.
End Map.
Arguments t : clear implicits.
End Map.

End Js.

(** ** Shared sample channel *)

Module RingBuffer.

Local Open Scope Z_scope.

(** [Atomics.store] on an [Int32Array] keeps the low 32 bits, signed. *)
Definition to_int32 (z : Z) : Z := (z + 2 ^ 31) mod 2 ^ 32 - 2 ^ 31.

Section Channel.

Context {A : Type}.

(** What reading past the end of a typed array stores into a
    [Float32Array]. *)
Variable nan : A.

(** Typed-array element read: [undefined] outside the array. *)
Definition get (l : list A) (i : Z) : A :=
  if i <? 0 then nan else default nan (l !! Z.to_nat i).

(** Typed-array element write: ignored outside the array. *)
Definition set (l : list A) (i : Z) (v : A) : list A :=
  if i <? 0 then l else <[Z.to_nat i := v]> l.

Definition len (l : list A) : Z := Z.of_nat (length l).

(** The two state words and the sample storage; [capacity] is the length
    of the storage view, as the constructor computes it. *)
Record t : Type := mk {
  writeIndex : Z;
  readIndex : Z;
  storage : list A
}.

Definition capacity (rb : t) : Z := len (storage rb).

(** [createRingBufferStorage]: both indices start at zero. *)
Definition create (init : list A) : t :=
  {| writeIndex := to_int32 0; readIndex := to_int32 0; storage := init |}.

Definition availableRead (rb : t) : Z :=
  if writeIndex rb >=? readIndex rb
  then writeIndex rb - readIndex rb
  else capacity rb - readIndex rb + writeIndex rb.

Definition availableWrite (rb : t) : Z :=
  capacity rb - 1 - availableRead rb.

(** Copy [n] elements of [src], from [off] on, to [dst] from [base] on:
    the body shared by the chunk loops. *)
Definition copy (n : Z) (src : list A) (off : Z) (dst : list A) (base : Z)
  : list A :=
  Js.for_loop n (fun i acc => set acc (base + i) (get src (off + i))) dst.

Definition push (data : list A) (rb : t) : Z * t :=
  let available := availableWrite rb in
  let toWrite := Z.min available (len data) in
  if toWrite =? 0 then (0, rb)
  else
    let wr := writeIndex rb in
    let firstChunk := Z.min toWrite (capacity rb - wr) in
    let secondChunk := toWrite - firstChunk in
    let st1 := copy firstChunk data 0 (storage rb) wr in
    let st2 :=
      if secondChunk >? 0 then copy secondChunk data firstChunk st1 0
      else st1 in
    let newWriteIndex := Z.rem (wr + toWrite) (capacity rb) in
    (toWrite,
     {| writeIndex := to_int32 newWriteIndex;
        readIndex := readIndex rb;
        storage := st2 |}).

(** The consumer's operations return the count, the caller's output array
    after the call, and the channel. *)
Definition pull (output : list A) (rb : t) : Z * list A * t :=
  let available := availableRead rb in
  let toRead := Z.min available (len output) in
  if toRead =? 0 then (0, output, rb)
  else
    let rd := readIndex rb in
    let firstChunk := Z.min toRead (capacity rb - rd) in
    let secondChunk := toRead - firstChunk in
    let out1 := copy firstChunk (storage rb) rd output 0 in
    let out2 :=
      if secondChunk >? 0 then copy secondChunk (storage rb) 0 out1 firstChunk
      else out1 in
    let newReadIndex := Z.rem (rd + toRead) (capacity rb) in
    (toRead, out2,
     {| writeIndex := writeIndex rb;
        readIndex := to_int32 newReadIndex;
        storage := storage rb |}).

Definition peek (output : list A) (offset : Z) (rb : t) : Z * list A * t :=
  let available := availableRead rb in
  if offset >=? available then (0, output, rb)
  else
    let toRead := Z.min (available - offset) (len output) in
    if toRead =? 0 then (0, output, rb)
    else
      let rd := Z.rem (readIndex rb + offset) (capacity rb) in
      let firstChunk := Z.min toRead (capacity rb - rd) in
      let secondChunk := toRead - firstChunk in
      let out1 := copy firstChunk (storage rb) rd output 0 in
      let out2 :=
        if secondChunk >? 0
        then copy secondChunk (storage rb) 0 out1 firstChunk
        else out1 in
      (toRead, out2, rb).

Definition skip (count : Z) (rb : t) : Z * t :=
  let available := availableRead rb in
  let toSkip := Z.min available count in
  if toSkip =? 0 then (0, rb)
  else
    let newReadIndex := Z.rem (readIndex rb + toSkip) (capacity rb) in
    (toSkip,
     {| writeIndex := writeIndex rb;
        readIndex := to_int32 newReadIndex;
        storage := storage rb |}).

Definition clear (rb : t) : t :=
  {| writeIndex := to_int32 0; readIndex := to_int32 0;
     storage := storage rb |}.

(** The unread samples, oldest first: what the consumer is still to see. *)
Definition contents (rb : t) : list A :=
  map (fun j => get (storage rb)
                  (Z.rem (readIndex rb + Z.of_nat j) (capacity rb)))
      (seq 0 (Z.to_nat (availableRead rb))).

(** A channel whose indices fit their words and lie inside the storage. *)
Definition wf (rb : t) : Prop :=
  0 < capacity rb <= 2 ^ 31 /\
  0 <= writeIndex rb < capacity rb /\
  0 <= readIndex rb < capacity rb.

(** One call on the channel, and a run of calls; [step] keeps the channel
    and drops what the call returns. *)
Inductive op : Type :=
  | Push (data : list A)
  | Pull (output : list A)
  | Peek (output : list A) (offset : Z)
  | Skip (count : Z).

Definition step (rb : t) (o : op) : t :=
  match o with
  | Push data => snd (push data rb)
  | Pull output => snd (pull output rb)
  | Peek output offset => snd (peek output offset rb)
  | Skip count => snd (skip count rb)
  end.

Definition run (ops : list op) (rb : t) : t := fold_left step ops rb.

(** [skip] is given a count of samples, never a negative number. *)
Definition count_ok (o : op) : Prop :=
  match o with
  | Skip count => 0 <= count
  | _ => True
  end.

(** A producer/consumer session: what was offered to [push], what [pull]
    handed back, and the channel at the end. *)
Inductive call : Type :=
  | Produce (data : list A)
  | Consume (output : list A).

Fixpoint session (calls : list call) (rb : t) : list A * list A * t :=
  match calls with
  | [] => ([], [], rb)
  | Produce data :: rest =>
      let '(_, rb1) := push data rb in
      let '(pushed, pulled, rb2) := session rest rb1 in
      (data ++ pushed, pulled, rb2)
  | Consume output :: rest =>
      let '(n, out, rb1) := pull output rb in
      let '(pushed, pulled, rb2) := session rest rb1 in
      (pushed, take (Z.to_nat n) out ++ pulled, rb2)
  end.

(** No [push] of the session is offered more than the free space. *)
Fixpoint no_overflow (calls : list call) (rb : t) : Prop :=
  match calls with
  | [] => True
  | Produce data :: rest =>
      len data <= availableWrite rb /\ no_overflow rest (snd (push data rb))
  | Consume output :: rest => no_overflow rest (snd (pull output rb))
  end.

(** [getHealth]: the fill level as a fraction of the capacity. *)
Definition getHealth (rb : t) : Q :=
  (inject_Z (availableRead rb) / inject_Z (capacity rb))%Q.

Definition isEmpty (rb : t) : bool := availableRead rb =? 0.

Definition isFull (rb : t) : bool := availableWrite rb =? 0.

End Channel.

End RingBuffer.

(** ** Windowed reader ([RingBuffer.ts]) *)

Module WindowedRingBufferReader.

Local Open Scope Z_scope.

Section Reader.

Context {A : Type}.
Variable nan : A.

(** The reader holds the channel, its two sizes, the window buffer it
    reuses from call to call and its sample clock. *)
Record t : Type := mk {
  ringBuffer : @RingBuffer.t A;
  windowSize : Z;
  hopSize : Z;
  windowBuffer : list A;
  samplesProcessed : Z
}.

(** The constructor; [zero] is what a new [Float32Array] is filled with. *)
Definition new (zero : A) (rb : @RingBuffer.t A) (windowSize hopSize : Z) : t :=
  {| ringBuffer := rb;
     windowSize := windowSize;
     hopSize := hopSize;
     windowBuffer := repeat zero (Z.to_nat windowSize);
     samplesProcessed := 0 |}.

Definition hasWindow (r : t) : bool :=
  RingBuffer.availableRead (ringBuffer r) >=? windowSize r.

(** [getNextWindow]: [None] is [null]; the window handed out is a copy of
    the window buffer. *)
Definition getNextWindow (r : t) : option (list A) * t :=
  if negb (hasWindow r) then (None, r)
  else
    let '(peeked, buffer, rb1) :=
      RingBuffer.peek nan (windowBuffer r) 0 (ringBuffer r) in
    if peeked <? windowSize r then
      (None,
       {| ringBuffer := rb1;
          windowSize := windowSize r;
          hopSize := hopSize r;
          windowBuffer := buffer;
          samplesProcessed := samplesProcessed r |})
    else
      let '(_, rb2) := RingBuffer.skip (hopSize r) rb1 in
      (Some buffer,
       {| ringBuffer := rb2;
          windowSize := windowSize r;
          hopSize := hopSize r;
          windowBuffer := buffer;
          samplesProcessed := samplesProcessed r + hopSize r |}).

Definition getSamplesProcessed (r : t) : Z := samplesProcessed r.

Definition getTimeInSeconds (sampleRate : Q) (r : t) : Q :=
  (inject_Z (samplesProcessed r) / sampleRate)%Q.

Definition reset (r : t) : t :=
  {| ringBuffer := RingBuffer.clear (ringBuffer r);
     windowSize := windowSize r;
     hopSize := hopSize r;
     windowBuffer := windowBuffer r;
     samplesProcessed := 0 |}.

(** The producer pushing into the channel the reader reads from. *)
Definition afterPush (data : list A) (r : t) : t :=
  {| ringBuffer := snd (RingBuffer.push nan data (ringBuffer r));
     windowSize := windowSize r;
     hopSize := hopSize r;
     windowBuffer := windowBuffer r;
     samplesProcessed := samplesProcessed r |}.

(** A reader as the constructor leaves it: a window buffer of
    [windowSize] entries, a hop that is a count. *)
Definition ready (r : t) : Prop :=
  RingBuffer.wf (ringBuffer r) /\
  0 <= windowSize r /\ 0 <= hopSize r /\
  RingBuffer.len (windowBuffer r) = windowSize r.

End Reader.

End WindowedRingBufferReader.

(** ** The recorder worklet ([AudioRecorderWorklet.ts]) *)

Module AudioRecorderProcessor.

Local Open Scope Z_scope.

Section Worklet.

Context {A : Type}.
Variable nan : A.

(** [states] and [storage] are null until the [init] message; the
    capacity is the number that message carries. *)
Record t : Type := mk {
  isInitialized : bool;
  isRecording : bool;
  buffer : option (@RingBuffer.t A);
  capacity : Z;
  sampleCounter : Z;
  droppedSamples : Z;
  lastHealthReport : Z
}.

Definition HEALTH_REPORT_INTERVAL : Z := 4800.

Definition new : t :=
  {| isInitialized := false; isRecording := false; buffer := None;
     capacity := 0; sampleCounter := 0; droppedSamples := 0;
     lastHealthReport := 0 |}.

Inductive WorkletMessage : Type :=
  | Init (sharedBuffer : @RingBuffer.t A) (capacity : Z)
  | Start
  | Stop
  | Clear.

Definition with_buffer (w : t) (rb : option (@RingBuffer.t A)) : t :=
  {| isInitialized := isInitialized w; isRecording := isRecording w;
     buffer := rb; capacity := capacity w;
     sampleCounter := sampleCounter w; droppedSamples := droppedSamples w;
     lastHealthReport := lastHealthReport w |}.

Definition clearBuffer (w : t) : t :=
  match buffer w with
  | Some rb => with_buffer w (Some (RingBuffer.clear rb))
  | None => w
  end.

Definition handleMessage (message : WorkletMessage) (w : t) : t :=
  match message with
  | Init sharedBuffer capacity =>
      {| isInitialized := true; isRecording := isRecording w;
         buffer := Some sharedBuffer; capacity := capacity;
         sampleCounter := sampleCounter w;
         droppedSamples := droppedSamples w;
         lastHealthReport := lastHealthReport w |}
  | Start =>
      if isInitialized w then
        {| isInitialized := isInitialized w; isRecording := true;
           buffer := buffer w; capacity := capacity w;
           sampleCounter := 0; droppedSamples := 0;
           lastHealthReport := lastHealthReport w |}
      else w
  | Stop =>
      {| isInitialized := isInitialized w; isRecording := false;
         buffer := buffer w; capacity := capacity w;
         sampleCounter := sampleCounter w;
         droppedSamples := droppedSamples w;
         lastHealthReport := lastHealthReport w |}
  | Clear => clearBuffer w
  end.

Definition getAvailableWrite (w : t) : Z :=
  match buffer w with
  | None => 0
  | Some rb =>
      let writeIndex := RingBuffer.writeIndex rb in
      let readIndex := RingBuffer.readIndex rb in
      if writeIndex >=? readIndex
      then capacity w - 1 - (writeIndex - readIndex)
      else readIndex - writeIndex - 1
  end.

(** [pushToBuffer], on the worklet's own [capacity] field. *)
Definition pushToBuffer (samples : list A) (w : t) : Z * t :=
  match buffer w with
  | None => (0, w)
  | Some rb =>
      let available := getAvailableWrite w in
      let toWrite := Z.min available (RingBuffer.len samples) in
      if toWrite =? 0 then (0, w)
      else
        let wr := RingBuffer.writeIndex rb in
        let firstChunk := Z.min toWrite (capacity w - wr) in
        let secondChunk := toWrite - firstChunk in
        let st1 :=
          RingBuffer.copy nan firstChunk samples 0 (RingBuffer.storage rb) wr in
        let st2 :=
          if secondChunk >? 0
          then RingBuffer.copy nan secondChunk samples firstChunk st1 0
          else st1 in
        let newWriteIndex := Z.rem (wr + toWrite) (capacity w) in
        (toWrite,
         with_buffer w
           (Some {| RingBuffer.writeIndex := RingBuffer.to_int32 newWriteIndex;
                    RingBuffer.readIndex := RingBuffer.readIndex rb;
                    RingBuffer.storage := st2 |}))
  end.

Definition getBufferHealth (w : t) : Q :=
  match buffer w with
  | None => 0%Q
  | Some rb =>
      let writeIndex := RingBuffer.writeIndex rb in
      let readIndex := RingBuffer.readIndex rb in
      let filled :=
        if writeIndex >=? readIndex then writeIndex - readIndex
        else capacity w - readIndex + writeIndex in
      (inject_Z filled / inject_Z (capacity w))%Q
  end.

(** The [health] message posted to the main thread. *)
Record HealthReport : Type := report {
  health : Q;
  reportedSamples : Z;
  reportedDropped : Z
}.

(** [process]: its return value, the message it posts if any, and the
    worklet afterwards.  [inputs] is the array of inputs, each an array
    of channels. *)
Definition process (inputs : list (list (list A))) (w : t)
  : bool * option HealthReport * t :=
  if negb (isRecording w) || negb (isInitialized w) then (true, None, w)
  else
    match inputs with
    | [] => (true, None, w)
    | input :: _ =>
        match input with
        | [] => (true, None, w)
        | channelData :: _ =>
            if RingBuffer.len channelData =? 0 then (true, None, w)
            else
              let '(written, w1) := pushToBuffer channelData w in
              let counter := sampleCounter w1 + RingBuffer.len channelData in
              let dropped :=
                if written <? RingBuffer.len channelData
                then droppedSamples w1 + (RingBuffer.len channelData - written)
                else droppedSamples w1 in
              let due :=
                counter - lastHealthReport w1 >=? HEALTH_REPORT_INTERVAL in
              let w2 :=
                {| isInitialized := isInitialized w1;
                   isRecording := isRecording w1;
                   buffer := buffer w1; capacity := capacity w1;
                   sampleCounter := counter; droppedSamples := dropped;
                   lastHealthReport :=
                     if due then counter else lastHealthReport w1 |} in
              (true,
               if due
               then Some (report (getBufferHealth w2) counter dropped)
               else None,
               w2)
        end
    end.

(** A recording worklet whose [init] message carried the length of the
    storage, as the audio engine sends it. *)
Definition attached (w : t) (rb : @RingBuffer.t A) : Prop :=
  isInitialized w = true /\ isRecording w = true /\
  buffer w = Some rb /\ capacity w = RingBuffer.capacity rb /\
  RingBuffer.wf rb.

End Worklet.

End AudioRecorderProcessor.

(** ** Shared record types ([types/index.ts]) *)

Module ActiveNoteState.
Record t : Type := mk {
  pitch : Z;
  startTime : Q;
  startFrame : Z;
  peakProbability : Q;
  velocityEstimate : Q
}.
End ActiveNoteState.

Module DetectedNote.
Record t : Type := mk {
  pitch : Z;
  startTime : Q;
  endTime : option Q;
  duration : Q;
  velocity : Q;
  confidence : Q;
  isActive : bool
}.
End DetectedNote.

Inductive NoteDurationType : Type :=
  | whole | half | quarter | eighth | n16th | n32nd | n64th.

Definition NoteDurationType_eqb (a b : NoteDurationType) : bool :=
  match a, b with
  | whole, whole | half, half | quarter, quarter | eighth, eighth
  | n16th, n16th | n32nd, n32nd | n64th, n64th => true
  | _, _ => false
  end.

Module QuantizedNote.
Record t : Type := mk {
  pitch : Z;
  startBeat : Q;
  durationBeats : Q;
  durationType : NoteDurationType;
  isDotted : bool;
  velocity : Q;
  tieToNext : bool
}.
End QuantizedNote.

(** ** Note decoder with hysteresis *)

Module NoteDecoder.

Local Open Scope Q_scope.

Definition PIANO_MIN_MIDI : Z := 21.
Definition NUM_PIANO_KEYS : Z := 88.

Record t : Type := mk {
  activeNotes : Js.Map.t ActiveNoteState.t;
  onsetThreshold : Q;
  offsetThreshold : Q;
  minDurationSeconds : Q;
  sampleRate : Q;
  hopSize : Q
}.

(** The constructor; the decoder starts with no active note. *)
Definition new (onset offset minDuration rate hop : Q) : t :=
  {| activeNotes := [];
     onsetThreshold := onset;
     offsetThreshold := offset;
     minDurationSeconds := minDuration;
     sampleRate := rate;
     hopSize := hop |}.

Definition with_activeNotes (d : t) (m : Js.Map.t ActiveNoteState.t) : t :=
  {| activeNotes := m;
     onsetThreshold := onsetThreshold d;
     offsetThreshold := offsetThreshold d;
     minDurationSeconds := minDurationSeconds d;
     sampleRate := sampleRate d;
     hopSize := hopSize d |}.

Definition setThresholds (onset offset : Q) (d : t) : t :=
  {| activeNotes := activeNotes d;
     onsetThreshold := onset;
     offsetThreshold := offset;
     minDurationSeconds := minDurationSeconds d;
     sampleRate := sampleRate d;
     hopSize := hopSize d |}.

(** A probability frame is a [Float32Array] of [NUM_PIANO_KEYS] entries,
    as [runInference] builds every frame it hands to [processFrame]; the
    model reads it as a list.  Past the end of a shorter array JavaScript
    reads [undefined], on which every comparison of [processFrame] is
    false, while [read] gives 0 there: every property below that depends
    on a value read is stated for frames that have all their entries
    ([full]). *)
Definition read (frame : list Q) (pitch : Z) : Q :=
  nth (Z.to_nat pitch) frame 0.

Definition frameTimeOf (d : t) (frameIndex : Z) (baseTimestamp : Q) : Q :=
  baseTimestamp + (inject_Z frameIndex * hopSize d) / sampleRate d.

Definition completed (midiNote : Z) (state : ActiveNoteState.t)
    (endTime duration : Q) : DetectedNote.t :=
  {| DetectedNote.pitch := midiNote;
     DetectedNote.startTime := ActiveNoteState.startTime state;
     DetectedNote.endTime := Some endTime;
     DetectedNote.duration := duration;
     DetectedNote.velocity :=
       inject_Z (Js.Math_round (ActiveNoteState.velocityEstimate state * 127));
     DetectedNote.confidence := ActiveNoteState.peakProbability state;
     DetectedNote.isActive := false |}.

(** The body of the loop over pitches in [processFrame]. *)
Definition processPitch (d : t) (frameProbabilities : list Q)
    (onsetProbabilities : option (list Q)) (frameIndex : Z) (frameTime : Q)
    (pitch : Z)
    (acc : Js.Map.t ActiveNoteState.t * list DetectedNote.t)
  : Js.Map.t ActiveNoteState.t * list DetectedNote.t :=
  let '(active, completedNotes) := acc in
  let midiNote := (pitch + PIANO_MIN_MIDI)%Z in
  let probability := read frameProbabilities pitch in
  let onsetProb :=
    match onsetProbabilities with
    | Some o => read o pitch
    | None => probability
    end in
  match Js.Map.get midiNote active with
  | Some activeNote =>
      if Js.ltb probability (offsetThreshold d) then
        let duration := frameTime - ActiveNoteState.startTime activeNote in
        let completedNotes' :=
          if Js.geb duration (minDurationSeconds d)
          then completedNotes ++ [completed midiNote activeNote frameTime duration]
          else completedNotes in
        (Js.Map.delete midiNote active, completedNotes')
      else if Js.gtb probability (ActiveNoteState.peakProbability activeNote)
      then
        (Js.Map.set midiNote
           {| ActiveNoteState.pitch := ActiveNoteState.pitch activeNote;
              ActiveNoteState.startTime := ActiveNoteState.startTime activeNote;
              ActiveNoteState.startFrame := ActiveNoteState.startFrame activeNote;
              ActiveNoteState.peakProbability := probability;
              ActiveNoteState.velocityEstimate :=
                ActiveNoteState.velocityEstimate activeNote |}
           active,
         completedNotes)
      else (active, completedNotes)
  | None =>
      if Js.geb onsetProb (onsetThreshold d)
         || Js.geb probability (onsetThreshold d)
      then
        (Js.Map.set midiNote
           {| ActiveNoteState.pitch := midiNote;
              ActiveNoteState.startTime := frameTime;
              ActiveNoteState.startFrame := frameIndex;
              ActiveNoteState.peakProbability := probability;
              ActiveNoteState.velocityEstimate := onsetProb |}
           active,
         completedNotes)
      else (active, completedNotes)
  end.

(** [processFrame] returns the notes completed at this frame and the
    decoder with its updated table of active notes. *)
Definition processFrame (frameProbabilities : list Q)
    (onsetProbabilities : option (list Q)) (frameIndex : Z)
    (baseTimestamp : Q) (d : t) : list DetectedNote.t * t :=
  let frameTime := frameTimeOf d frameIndex baseTimestamp in
  let '(active, completedNotes) :=
    Js.for_loop NUM_PIANO_KEYS
      (processPitch d frameProbabilities onsetProbabilities frameIndex
         frameTime)
      (activeNotes d, []) in
  (completedNotes, with_activeNotes d active).

(** [closeAllNotes]: one pass over the table in insertion order, then
    [clear]. *)
Definition closeAllNotes (endTime : Q) (d : t) : list DetectedNote.t * t :=
  let closedNotes :=
    fold_left
      (fun closed kv =>
         let '(midiNote, state) := kv in
         let duration := endTime - ActiveNoteState.startTime state in
         if Js.geb duration (minDurationSeconds d)
         then closed ++ [completed midiNote state endTime duration]
         else closed)
      (activeNotes d) [] in
  (closedNotes, with_activeNotes d []).

Definition reset (d : t) : t := with_activeNotes d [].

(** The worker's inner loop: consecutive frames of one inference window
    fed to [processFrame], the completed notes collected in order. *)
Fixpoint processFrames (frames : list (list Q)) (frameIndex : Z)
    (baseTimestamp : Q) (d : t) : list DetectedNote.t * t :=
  match frames with
  | [] => ([], d)
  | frame :: rest =>
      let '(notes, d1) := processFrame frame None frameIndex baseTimestamp d in
      let '(more, d2) := processFrames rest (frameIndex + 1)%Z baseTimestamp d1 in
      (notes ++ more, d2)
  end.

(** *** One pitch at a time

    The decoder is 88 independent machines.  [stepPitch] is the machine of
    one pitch cut out of [processPitch]: from the entry of the pitch in the
    table, if any, to its entry after the frame and the notes it completes.
    [runPitch] feeds it a trace; [notesOf] picks the notes of a pitch. *)

Definition stepPitch (d : t) (probability onsetProb : Q) (frameIndex : Z)
    (frameTime : Q) (midiNote : Z) (entry : option ActiveNoteState.t)
  : option ActiveNoteState.t * list DetectedNote.t :=
  match entry with
  | Some activeNote =>
      if Js.ltb probability (offsetThreshold d) then
        let duration := frameTime - ActiveNoteState.startTime activeNote in
        (None,
         if Js.geb duration (minDurationSeconds d)
         then [completed midiNote activeNote frameTime duration] else [])
      else if Js.gtb probability (ActiveNoteState.peakProbability activeNote)
      then
        (Some {| ActiveNoteState.pitch := ActiveNoteState.pitch activeNote;
                 ActiveNoteState.startTime :=
                   ActiveNoteState.startTime activeNote;
                 ActiveNoteState.startFrame :=
                   ActiveNoteState.startFrame activeNote;
                 ActiveNoteState.peakProbability := probability;
                 ActiveNoteState.velocityEstimate :=
                   ActiveNoteState.velocityEstimate activeNote |},
         [])
      else (Some activeNote, [])
  | None =>
      if Js.geb onsetProb (onsetThreshold d)
         || Js.geb probability (onsetThreshold d)
      then
        (Some {| ActiveNoteState.pitch := midiNote;
                 ActiveNoteState.startTime := frameTime;
                 ActiveNoteState.startFrame := frameIndex;
                 ActiveNoteState.peakProbability := probability;
                 ActiveNoteState.velocityEstimate := onsetProb |},
         [])
      else (None, [])
  end.

Fixpoint runPitch (d : t) (pitch : Z) (frames : list (list Q))
    (frameIndex : Z) (baseTimestamp : Q) (entry : option ActiveNoteState.t)
  : option ActiveNoteState.t * list DetectedNote.t :=
  match frames with
  | [] => (entry, [])
  | frame :: rest =>
      let '(entry1, notes) :=
        stepPitch d (read frame pitch) (read frame pitch) frameIndex
          (frameTimeOf d frameIndex baseTimestamp)
          (pitch + PIANO_MIN_MIDI)%Z entry in
      let '(entry2, more) :=
        runPitch d pitch rest (frameIndex + 1)%Z baseTimestamp entry1 in
      (entry2, notes ++ more)
  end.

Definition notesOf (midiNote : Z) (notes : list DetectedNote.t)
  : list DetectedNote.t :=
  List.filter (fun n => Z.eqb (DetectedNote.pitch n) midiNote) notes.

(** A frame with an entry for every key. *)
Definition full (frame : list Q) : Prop :=
  length frame = Z.to_nat NUM_PIANO_KEYS.

(** A completed note: closed at [endTime], as long as the decoder asks,
    its duration the distance from its start to its end. *)
Definition closedAt (d : t) (endTime : Q) (n : DetectedNote.t) : Prop :=
  minDurationSeconds d <= DetectedNote.duration n /\
  DetectedNote.endTime n = Some endTime /\
  DetectedNote.duration n = endTime - DetectedNote.startTime n /\
  DetectedNote.isActive n = false.

Definition pianoKey (k : Z) : Prop :=
  (PIANO_MIN_MIDI <= k < PIANO_MIN_MIDI + NUM_PIANO_KEYS)%Z.

(** A table as the decoder builds it: one entry per key, every key a
    piano key, every entry carrying its key as its pitch. *)
Definition tidy (m : Js.Map.t ActiveNoteState.t) : Prop :=
  NoDup (map fst m) /\
  Forall (fun kv =>
            (PIANO_MIN_MIDI <= fst kv < PIANO_MIN_MIDI + NUM_PIANO_KEYS)%Z /\
            ActiveNoteState.pitch (snd kv) = fst kv) m.

End NoteDecoder.

(** ** Beat detection and quantization ([music/Quantizer.ts]) *)

Module BeatDetector.

Local Open Scope Q_scope.

(** The detector's state is its list of onset times, oldest first. *)
Definition t : Type := list Q.

Definition maxOnsets : nat := 100.

Definition new : t := [].

(** [push] then, past the cap, [shift]. *)
Definition addOnset (time : Q) (onsetTimes : t) : t :=
  let pushed := onsetTimes ++ [time] in
  if (maxOnsets <? length pushed)%nat then tail pushed else pushed.

(** A run of [addOnset] calls, in order. *)
Definition addOnsets (times : list Q) (onsetTimes : t) : t :=
  fold_left (fun acc time => addOnset time acc) times onsetTimes.

(** Differences of neighbours, [onsetTimes[i] - onsetTimes[i - 1]]. *)
Fixpoint intervalsOf (onsetTimes : list Q) : list Q :=
  match onsetTimes with
  | prev :: ((next :: _) as rest) => (next - prev) :: intervalsOf rest
  | _ => []
  end.

Definition minInterval : Q := 0.2.
Definition maxInterval : Q := 2.0.
Definition binSize : Q := 0.05.

Definition validInterval (i : Q) : bool :=
  Js.geb i minInterval && Js.leb i maxInterval.

(** [histogram.set(bin, (histogram.get(bin) || 0) + 1)]; a count that is
    present is its own value under [|| 0]. *)
Definition countBin (histogram : Js.Map.t Z) (interval : Q) : Js.Map.t Z :=
  let bin := Js.Math_round (interval / binSize) in
  let old :=
    match Js.Map.get bin histogram with
    | Some c => c
    | None => 0%Z
    end in
  Js.Map.set bin (old + 1)%Z histogram.

(** The [forEach] that keeps the first bin of greatest count; the state is
    [(maxCount, dominantBin)]. *)
Definition pickDominant (best : Z * Z) (entry : Z * Z) : Z * Z :=
  let '(maxCount, dominantBin) := best in
  let '(bin, count) := entry in
  if (count >? maxCount)%Z then (count, bin) else (maxCount, dominantBin).

(** [estimateBPM]; the two folding loops run on [fuel]. *)
Definition estimateBPM (fuel : nat) (onsetTimes : t) : option Q :=
  if (length onsetTimes <? 4)%nat then Some 120
  else
    let intervals := intervalsOf onsetTimes in
    let validIntervals := List.filter validInterval intervals in
    if (length validIntervals =? 0)%nat then Some 120
    else
      let histogram := fold_left countBin validIntervals [] in
      let '(_, dominantBin) := fold_left pickDominant histogram (0%Z, 0%Z) in
      let dominantInterval := inject_Z dominantBin * binSize in
      let bpm := 60 / dominantInterval in
      match Js.while_loop fuel (fun b => Js.ltb b 60) (fun b => b * 2) bpm with
      | None => None
      | Some bpm1 =>
          match Js.while_loop fuel (fun b => Js.gtb b 180) (fun b => b / 2) bpm1
          with
          | None => None
          | Some bpm2 => Some (inject_Z (Js.Math_round bpm2))
          end
      end.

(** A bin of the histogram comes from a plausible interval and has been
    counted at least once. *)
Definition plausible (e : Z * Z) : Prop :=
  (4 <= fst e <= 40)%Z /\ (1 <= snd e)%Z.

Definition reset (_ : t) : t := [].

End BeatDetector.

Module QuantizerConfig.
Record t : Type := mk {
  bpm : Q;
  timeSignature : Q * Q;
  snapTolerance : Q;
  minQuantization : Q;
  detectTriplets : bool
}.
End QuantizerConfig.

Module NoteQuantizer.

Local Open Scope Q_scope.

Record GridEntry : Type := entry { type : NoteDurationType; beats : Q }.

Definition DURATION_GRID : list GridEntry :=
  [ entry whole 4; entry half 2; entry quarter 1; entry eighth 0.5;
    entry n16th 0.25; entry n32nd 0.125; entry n64th 0.0625 ].

Definition DOTTED_MULTIPLIER : Q := 1.5.

Definition DEFAULT_CONFIG : QuantizerConfig.t :=
  {| QuantizerConfig.bpm := 120;
     QuantizerConfig.timeSignature := (4, 4);
     QuantizerConfig.snapTolerance := 0.3;
     QuantizerConfig.minQuantization := 0.0625;
     QuantizerConfig.detectTriplets := false |}.

Record t : Type := mk {
  config : QuantizerConfig.t;
  beatDetector : BeatDetector.t
}.

Definition new (cfg : QuantizerConfig.t) : t :=
  {| config := cfg; beatDetector := BeatDetector.new |}.

Definition setConfig (cfg : QuantizerConfig.t) (q : t) : t :=
  {| config := cfg; beatDetector := beatDetector q |}.

Definition addOnset (time : Q) (q : t) : t :=
  {| config := config q;
     beatDetector := BeatDetector.addOnset time (beatDetector q) |}.

Definition autoDetectBPM (fuel : nat) (q : t) : option Q :=
  BeatDetector.estimateBPM fuel (beatDetector q).

Definition reset (q : t) : t :=
  {| config := config q; beatDetector := BeatDetector.reset (beatDetector q) |}.

Section WithConfig.

Variable cfg : QuantizerConfig.t.

Definition timeToBeat (timeSeconds : Q) : Q :=
  (timeSeconds * QuantizerConfig.bpm cfg) / 60.

Definition snapToGrid (beat : Q) : Q :=
  let gridUnit := QuantizerConfig.minQuantization cfg in
  let gridPosition := Js.Math_round (beat / gridUnit) in
  let snappedBeat := inject_Z gridPosition * gridUnit in
  let offset := Js.Math_abs (beat - snappedBeat) in
  let tolerance := gridUnit * QuantizerConfig.snapTolerance cfg in
  if Js.leb offset tolerance then snappedBeat
  else if QuantizerConfig.detectTriplets cfg then
    let tripletGrid := gridUnit * 2 / 3 in
    let tripletPosition := Js.Math_round (beat / tripletGrid) in
    let snappedTriplet := inject_Z tripletPosition * tripletGrid in
    let tripletOffset := Js.Math_abs (beat - snappedTriplet) in
    if Js.ltb tripletOffset offset then snappedTriplet else snappedBeat
  else snappedBeat.

Record DurationMatch : Type := mkMatch {
  matchType : NoteDurationType;
  matchDotted : bool;
  remainderBeats : Q
}.

(** One round of the closest-fit loop: the plain value, then the dotted
    one, each against the running [(bestFit, minDiff)]. *)
Definition closer (durationBeats : Q) (best : GridEntry * Q)
    (duration : GridEntry) : GridEntry * Q :=
  let '(bestFit, minDiff) := best in
  let diff := Js.Math_abs (durationBeats - beats duration) in
  let '(bestFit1, minDiff1) :=
    if Js.ltb diff minDiff then (duration, diff) else (bestFit, minDiff) in
  let dottedDiff :=
    Js.Math_abs (durationBeats - beats duration * DOTTED_MULTIPLIER) in
  if Js.ltb dottedDiff minDiff1 then (duration, dottedDiff)
  else (bestFit1, minDiff1).

Definition findDurationType (durationBeats : Q) : DurationMatch :=
  let half_unit := QuantizerConfig.minQuantization cfg * 0.5 in
  match
    find (fun e => Js.ltb (Js.Math_abs (durationBeats - beats e)) half_unit)
         DURATION_GRID
  with
  | Some e => mkMatch (type e) false 0
  | None =>
      match
        find (fun e =>
                Js.ltb
                  (Js.Math_abs (durationBeats - beats e * DOTTED_MULTIPLIER))
                  half_unit)
             DURATION_GRID
      with
      | Some e => mkMatch (type e) true 0
      | None =>
          let first := hd (entry whole 4) DURATION_GRID in
          let '(bestFit, _) :=
            fold_left (closer durationBeats) DURATION_GRID
              (first, Js.Math_abs (durationBeats - beats first)) in
          let actualBeats := beats bestFit in
          let remainder := durationBeats - actualBeats in
          mkMatch (type bestFit) false
            (if Js.gtb remainder (QuantizerConfig.minQuantization cfg)
             then remainder else 0)
      end
  end.

Definition getDurationBeats (ty : NoteDurationType) : Q :=
  match find (fun d => NoteDurationType_eqb (type d) ty) DURATION_GRID with
  | Some d => beats d
  | None => 1
  end.

(** The duration a match stands for, as both callers compute it. *)
Definition matchedBeats (m : DurationMatch) : Q :=
  if matchDotted m
  then getDurationBeats (matchType m) * DOTTED_MULTIPLIER
  else getDurationBeats (matchType m).

(** State of the loop of [createTiedNotes]:
    [(notes, currentBeat, remaining)]. *)
Definition TieState : Type := list QuantizedNote.t * Q * Q.

Definition tieCond (st : TieState) : bool :=
  let '(_, _, remaining) := st in
  Js.gtb remaining (QuantizerConfig.minQuantization cfg).

Definition tieBody (pitch : Z) (velocity : Q) (st : TieState) : TieState :=
  let '(notes, currentBeat, remaining) := st in
  let m := findDurationType remaining in
  let duration := matchedBeats m in
  (notes ++
     [ {| QuantizedNote.pitch := pitch;
          QuantizedNote.startBeat := currentBeat;
          QuantizedNote.durationBeats := Js.Math_min duration remaining;
          QuantizedNote.durationType := matchType m;
          QuantizedNote.isDotted := matchDotted m;
          QuantizedNote.velocity := velocity;
          QuantizedNote.tieToNext :=
            Js.gtb (remaining - duration)
                   (QuantizerConfig.minQuantization cfg) |} ],
   currentBeat + duration,
   remaining - duration).

Definition createTiedNotes (fuel : nat) (pitch : Z) (startBeat : Q)
    (remainingBeats : Q) (velocity : Q) : option (list QuantizedNote.t) :=
  option_map (fun st : TieState => fst (fst st))
    (Js.while_loop fuel tieCond (tieBody pitch velocity)
       ([], startBeat, remainingBeats)).

(** The duration [quantizeNote] hands to [findDurationType]. *)
Definition clampedDuration (note : DetectedNote.t) : Q :=
  let durationBeats := timeToBeat (DetectedNote.duration note) in
  let snappedDuration := snapToGrid durationBeats in
  Js.Math_max snappedDuration (QuantizerConfig.minQuantization cfg).

(** The part of [quantizeNote] after the onset is recorded. *)
Definition quantizeWith (fuel : nat) (note : DetectedNote.t)
  : option (list QuantizedNote.t) :=
  let startBeat := timeToBeat (DetectedNote.startTime note) in
  let snappedStart := snapToGrid startBeat in
  let m := findDurationType (clampedDuration note) in
  let head :=
    {| QuantizedNote.pitch := DetectedNote.pitch note;
       QuantizedNote.startBeat := snappedStart;
       QuantizedNote.durationBeats := matchedBeats m;
       QuantizedNote.durationType := matchType m;
       QuantizedNote.isDotted := matchDotted m;
       QuantizedNote.velocity := DetectedNote.velocity note;
       QuantizedNote.tieToNext := Js.gtb (remainderBeats m) 0 |} in
  if Js.gtb (remainderBeats m) 0 then
    option_map (fun tiedNotes => head :: tiedNotes)
      (createTiedNotes fuel (DetectedNote.pitch note)
         (snappedStart + QuantizedNote.durationBeats head)
         (remainderBeats m) (DetectedNote.velocity note))
  else Some [head].

End WithConfig.

(** [quantizeNote]: the onset goes to the beat detector, the notes come
    from the configuration alone. *)
Definition quantizeNote (fuel : nat) (note : DetectedNote.t) (q : t)
  : option (list QuantizedNote.t * t) :=
  let q1 := addOnset (DetectedNote.startTime note) q in
  option_map (fun notes => (notes, q1)) (quantizeWith (config q1) fuel note).

(** [Array.prototype.sort] is stable, and the stable order under a
    comparator is unique: insertion from the right computes it. *)
Fixpoint insertByStart (x : DetectedNote.t) (l : list DetectedNote.t)
  : list DetectedNote.t :=
  match l with
  | [] => [x]
  | y :: rest =>
      if Js.leb (DetectedNote.startTime x - DetectedNote.startTime y) 0
      then x :: y :: rest
      else y :: insertByStart x rest
  end.

Definition sortByStart (notes : list DetectedNote.t) : list DetectedNote.t :=
  fold_right insertByStart [] notes.

(** The loop of [quantizeNotes] over the sorted notes. *)
Fixpoint quantizeEach (fuel : nat) (sorted : list DetectedNote.t) (q : t)
  : option (list QuantizedNote.t * t) :=
  match sorted with
  | [] => Some ([], q)
  | note :: rest =>
      match quantizeNote fuel note q with
      | None => None
      | Some (notes, q1) =>
          match quantizeEach fuel rest q1 with
          | None => None
          | Some (more, q2) => Some (notes ++ more, q2)
          end
      end
  end.

Definition quantizeNotes (fuel : nat) (notes : list DetectedNote.t) (q : t)
  : option (list QuantizedNote.t * t) :=
  quantizeEach fuel (sortByStart notes) q.

(** Rounds the loop of [createTiedNotes] can still make: every round
    takes at least a 64th note off what remains. *)
Definition tieMeasure (cfg : QuantizerConfig.t) (st : TieState) : nat :=
  let '(_, _, remaining) := st in
  Z.to_nat (Qceiling ((remaining - QuantizerConfig.minQuantization cfg) * 16)).

(** A chain whose head is tied to a continuation. *)
Definition tied (chain : list QuantizedNote.t) : Prop :=
  exists head rest,
    chain = head :: rest /\ QuantizedNote.tieToNext head = true.

(** Sum of [durationBeats] over a chain. *)
Definition chainBeats (chain : list QuantizedNote.t) : Q :=
  fold_right (fun n acc => QuantizedNote.durationBeats n + acc) 0 chain.

(** How far a duration is from a rung of the ladder, its plain value or
    its dotted value, whichever is closer: the quantity the closest-fit
    loop of [findDurationType] minimises. *)
Definition distance (durationBeats : Q) (e : GridEntry) : Q :=
  Js.Math_min (Js.Math_abs (durationBeats - beats e))
              (Js.Math_abs (durationBeats - beats e * DOTTED_MULTIPLIER)).

(** A rung no other rung is closer than. *)
Definition nearest (durationBeats : Q) (e : GridEntry) : Prop :=
  In e DURATION_GRID /\
  forall e', In e' DURATION_GRID ->
    distance durationBeats e <= distance durationBeats e'.

(** A chain read as notation: every note but the last is tied to the
    next, which starts where it ends; the last note is tied to nothing
    when [next] is [None], and to a note still to come at beat [b] when
    [next] is [Some b]. *)
Fixpoint linkedTo (next : option Q) (chain : list QuantizedNote.t) : Prop :=
  match chain with
  | [] => True
  | n :: rest =>
      match rest with
      | [] =>
          match next with
          | Some b =>
              QuantizedNote.tieToNext n = true /\
              b = QuantizedNote.startBeat n + QuantizedNote.durationBeats n
          | None => QuantizedNote.tieToNext n = false
          end
      | m :: _ =>
          QuantizedNote.tieToNext n = true /\
          QuantizedNote.startBeat m
          = QuantizedNote.startBeat n + QuantizedNote.durationBeats n
      end /\ linkedTo next rest
  end.

Definition linked (chain : list QuantizedNote.t) : Prop :=
  linkedTo None chain.

(** The order of the comparator [(a, b) => a.startTime - b.startTime]. *)
Definition byStart (a b : DetectedNote.t) : Prop :=
  DetectedNote.startTime a <= DetectedNote.startTime b.

End NoteQuantizer.

(** ** Concrete inputs used below *)

Module Examples.

Local Open Scope Q_scope.

(** A channel of four slots, three usable; samples are integers here. *)
Definition four : list Z := [0; 0; 0; 0]%Z.

Definition demo_ops : list (@RingBuffer.op Z) :=
  [ RingBuffer.Push [1; 2; 3; 4; 5]; RingBuffer.Pull [0; 0];
    RingBuffer.Push [6; 7]; RingBuffer.Peek [0; 0] 1; RingBuffer.Skip 1 ]%Z.

(** One unread sample in slot 2, the write index on the last slot. *)
Definition wrapped : @RingBuffer.t Z :=
  {| RingBuffer.writeIndex := 3; RingBuffer.readIndex := 2;
     RingBuffer.storage := [0; 0; 9; 0]%Z |}.

Definition filled : @RingBuffer.t Z :=
  snd (RingBuffer.push 0%Z [1; 2; 3]%Z wrapped).

Definition demo_calls : list (@RingBuffer.call Z) :=
  [ RingBuffer.Produce [1; 2; 3]; RingBuffer.Consume [0; 0];
    RingBuffer.Produce [4; 5]; RingBuffer.Consume [0; 0; 0; 0] ]%Z.

(** A reader of windows of two samples, hopping by one, on [filled]. *)
Definition reader : @WindowedRingBufferReader.t Z :=
  WindowedRingBufferReader.new 0%Z filled 2 1.

(** The worklet after [init] with the four slots of [wrapped] and [start]. *)
Definition worklet : @AudioRecorderProcessor.t Z :=
  AudioRecorderProcessor.handleMessage AudioRecorderProcessor.Start
    (AudioRecorderProcessor.handleMessage
       (AudioRecorderProcessor.Init wrapped 4)
       AudioRecorderProcessor.new).

(** Notes of pitch 60 starting at time 0; at the default 120 beats per
    minute a second is two beats. *)
Definition noteOf (seconds : Q) : DetectedNote.t :=
  {| DetectedNote.pitch := 60;
     DetectedNote.startTime := 0;
     DetectedNote.endTime := Some seconds;
     DetectedNote.duration := seconds;
     DetectedNote.velocity := 100;
     DetectedNote.confidence := 1;
     DetectedNote.isActive := false |}.

Definition fiveBeats : DetectedNote.t := noteOf 2.5.
Definition threeAndAHalfBeats : DetectedNote.t := noteOf 1.75.
Definition eightBeatsAndA64th : DetectedNote.t := noteOf 4.03125.

Definition quantizer : NoteQuantizer.t :=
  NoteQuantizer.new NoteQuantizer.DEFAULT_CONFIG.

(** Onsets half a second apart, and onsets too close to count. *)
Definition steadyOnsets : list Q := [0; 0.5; 1; 1.5; 2].
Definition rapidOnsets : list Q := [0; 0.1; 0.2; 0.3; 0.4].

(** The decoder as the worker constructs it by default. *)
Definition decoder : NoteDecoder.t :=
  NoteDecoder.new 0.8 0.3 0.05 22050 256.

(** Key 39 is MIDI note 60; a frame silent everywhere else. *)
Definition frameOf (probability : Q) : list Q :=
  repeat 0 39 ++ probability :: repeat 0 48.

Definition quiet (n : nat) : list (list Q) := repeat (frameOf 0) n.
Definition loud (n : nat) : list (list Q) := repeat (frameOf 0.9) n.

(** Onset, one dip, then silence: the pitch sounds for two frames, about
    23 ms, and then stays silent for five more, about 58 ms. *)
Definition shortTrace : list (list Q) :=
  [] ++ frameOf 0.9 :: [frameOf 0.5] ++ frameOf 0 :: quiet 5.

(** Ten silent frames, twenty at 0.9, ten silent. *)
Definition longTrace : list (list Q) :=
  quiet 10 ++ frameOf 0.9 :: loud 19 ++ frameOf 0 :: quiet 9.

End Examples.

(** * Properties *)

(** ** Numbers and maps *)

Module JsFacts.

Local Open Scope Q_scope.

Lemma ltb_true (x y : Q) : Js.ltb x y = true <-> x < y.
Proof.
  unfold Js.ltb. rewrite negb_true_iff, <- not_true_iff_false, Qle_bool_iff.
  split; [apply Qnot_le_lt | apply Qlt_not_le].
Qed.

Lemma ltb_false (x y : Q) : Js.ltb x y = false <-> y <= x.
Proof. unfold Js.ltb. rewrite negb_false_iff. apply Qle_bool_iff. Qed.

Lemma geb_true (x y : Q) : Js.geb x y = true <-> y <= x.
Proof. apply Qle_bool_iff. Qed.

Lemma geb_false (x y : Q) : Js.geb x y = false <-> x < y.
Proof.
  unfold Js.geb. rewrite <- not_true_iff_false, Qle_bool_iff.
  split; [apply Qnot_le_lt | apply Qlt_not_le].
Qed.

Lemma gtb_true (x y : Q) : Js.gtb x y = true <-> y < x.
Proof. apply (ltb_true y x). Qed.

Lemma gtb_false (x y : Q) : Js.gtb x y = false <-> x <= y.
Proof. apply (ltb_false y x). Qed.

Lemma leb_true (x y : Q) : Js.leb x y = true <-> x <= y.
Proof. apply Qle_bool_iff. Qed.

Lemma leb_false (x y : Q) : Js.leb x y = false <-> y < x.
Proof. apply (geb_false y x). Qed.

(** Case analysis on the first comparison of numbers in the goal, the
    outcome recorded as an order fact. *)
Ltac qcase :=
  match goal with
  | |- context [Js.ltb ?x ?y] =>
      let H := fresh "Hcmp" in
      destruct (Js.ltb x y) eqn:H;
      [apply ltb_true in H | apply ltb_false in H]
  | |- context [Js.geb ?x ?y] =>
      let H := fresh "Hcmp" in
      destruct (Js.geb x y) eqn:H;
      [apply geb_true in H | apply geb_false in H]
  | |- context [Js.gtb ?x ?y] =>
      let H := fresh "Hcmp" in
      destruct (Js.gtb x y) eqn:H;
      [apply gtb_true in H | apply gtb_false in H]
  | |- context [Js.leb ?x ?y] =>
      let H := fresh "Hcmp" in
      destruct (Js.leb x y) eqn:H;
      [apply leb_true in H | apply leb_false in H]
  end.

Lemma for_loop_succ {S : Type} (m : nat) (body : Z -> S -> S) (s : S) :
  Js.for_loop (Z.of_nat (Datatypes.S m)) body s
  = body (Z.of_nat m) (Js.for_loop (Z.of_nat m) body s).
Proof.
  unfold Js.for_loop. rewrite !Nat2Z.id, seq_S, fold_left_app. reflexivity.
Qed.

Lemma for_loop_nonpos {S : Type} (n : Z) (body : Z -> S -> S) (s : S) :
  (n <= 0)%Z -> Js.for_loop n body s = s.
Proof.
  intros H. unfold Js.for_loop.
  replace (Z.to_nat n) with 0%nat by lia. reflexivity.
Qed.

Section MapFacts.

Context {V : Type}.
Implicit Types (m : Js.Map.t V) (k : Z) (v : V).

Lemma get_has_false k m : Js.Map.has k m = false -> Js.Map.get k m = None.
Proof.
  unfold Js.Map.has, Js.Map.get.
  induction m as [|[k' v'] m IH]; simpl; [reflexivity|].
  destruct (Z.eqb k' k); simpl; [discriminate | exact IH].
Qed.

Lemma get_set_eq k v m : Js.Map.get k (Js.Map.set k v m) = Some v.
Proof.
  unfold Js.Map.set. destruct (Js.Map.has k m) eqn:Hhas.
  - unfold Js.Map.has, Js.Map.get in *.
    induction m as [|[k' v'] m IH]; simpl in *; [discriminate|].
    destruct (Z.eqb_spec k' k) as [->|Hne]; simpl.
    + rewrite Z.eqb_refl. reflexivity.
    + destruct (Z.eqb_spec k' k); [contradiction|]. apply IH, Hhas.
  - apply get_has_false in Hhas. unfold Js.Map.get in *.
    induction m as [|[k' v'] m IH]; simpl in *.
    + rewrite Z.eqb_refl. reflexivity.
    + destruct (Z.eqb k' k); simpl in *; [discriminate | apply IH, Hhas].
Qed.

Lemma get_set_ne k k' v m :
  k <> k' -> Js.Map.get k (Js.Map.set k' v m) = Js.Map.get k m.
Proof.
  intros Hne. unfold Js.Map.set, Js.Map.get.
  destruct (Js.Map.has k' m).
  - induction m as [|[k1 v1] m IH]; simpl; [reflexivity|].
    destruct (Z.eqb_spec k1 k') as [->|H1]; simpl.
    + destruct (Z.eqb_spec k' k); [congruence | exact IH].
    + destruct (Z.eqb k1 k); [reflexivity | exact IH].
  - induction m as [|[k1 v1] m IH]; simpl.
    + destruct (Z.eqb_spec k' k); [congruence | reflexivity].
    + destruct (Z.eqb k1 k); [reflexivity | exact IH].
Qed.

Lemma get_delete_eq k m : Js.Map.get k (Js.Map.delete k m) = None.
Proof.
  unfold Js.Map.delete, Js.Map.get.
  induction m as [|[k1 v1] m IH]; simpl; [reflexivity|].
  destruct (Z.eqb_spec k1 k) as [->|H1]; simpl; [exact IH|].
  destruct (Z.eqb_spec k1 k); [contradiction | exact IH].
Qed.

Lemma get_delete_ne k k' m :
  k <> k' -> Js.Map.get k (Js.Map.delete k' m) = Js.Map.get k m.
Proof.
  intros Hne. unfold Js.Map.delete, Js.Map.get.
  induction m as [|[k1 v1] m IH]; simpl; [reflexivity|].
  destruct (Z.eqb_spec k1 k') as [->|H1]; simpl.
  - destruct (Z.eqb_spec k' k); [congruence | exact IH].
  - destruct (Z.eqb k1 k); [reflexivity | exact IH].
Qed.

End MapFacts.

End JsFacts.

(** ** The channel *)

Module RingBufferFacts.

Import RingBuffer JsFacts.
Local Open Scope Z_scope.

(** Case analysis on every integer comparison of the goal. *)
Ltac zcases :=
  repeat match goal with
    | |- context [Z.ltb ?a ?b] => destruct (Z.ltb_spec a b)
    | |- context [Z.leb ?a ?b] => destruct (Z.leb_spec a b)
    | |- context [Z.eqb ?a ?b] => destruct (Z.eqb_spec a b)
    | |- context [Z.gtb ?a ?b] => rewrite (Z.gtb_ltb a b)
    | |- context [Z.geb ?a ?b] => rewrite (Z.geb_leb a b)
    end;
  simpl; try reflexivity; try lia.

Lemma to_int32_small (z : Z) : 0 <= z < 2 ^ 31 -> to_int32 z = z.
Proof.
  intros H. unfold to_int32.
  rewrite Z.mod_small; lia.
Qed.

(** The remainder the code takes is always of a sum below two capacities. *)
Lemma rem_wrap (x c : Z) :
  0 < c -> 0 <= x < 2 * c -> Z.rem x c = if x <? c then x else x - c.
Proof.
  intros Hc Hx. rewrite Z.rem_mod_nonneg by lia.
  destruct (Z.ltb_spec x c).
  - apply Z.mod_small; lia.
  - symmetry. apply (Z.mod_unique_pos x c 1 (x - c)); lia.
Qed.

Section Facts.

Context {A : Type}.
Variable nan : A.

Local Abbreviation get := (get nan).
Local Abbreviation copy := (copy nan).
Local Abbreviation contents := (contents nan).
Local Abbreviation buf := (@t A).

Lemma length_set (l : list A) (i : Z) (v : A) :
  length (set l i v) = length l.
Proof.
  unfold set. destruct (i <? 0); [reflexivity | apply length_insert].
Qed.

Lemma get_set (l : list A) (i k : Z) (v : A) :
  get (set l i v) k
  = if (k =? i) && (0 <=? i) && (i <? len l) then v else get l k.
Proof.
  unfold get, set, len.
  destruct (Z.eqb_spec k i) as [->|Hne]; simpl.
  - destruct (Z.ltb_spec i 0); destruct (Z.leb_spec 0 i); try lia; simpl;
      [reflexivity|].
    destruct (Z.ltb_spec i (Z.of_nat (length l))).
    + rewrite list_lookup_insert_eq by lia. reflexivity.
    + rewrite list_insert_ge by lia. reflexivity.
  - destruct (Z.ltb_spec i 0); [reflexivity|].
    destruct (Z.ltb_spec k 0); [reflexivity|].
    rewrite list_lookup_insert_ne by lia. reflexivity.
Qed.

Lemma length_copy (n : Z) (src : list A) (off : Z) (dst : list A) (base : Z) :
  length (copy n src off dst base) = length dst.
Proof.
  unfold RingBuffer.copy.
  destruct (Z.le_gt_cases n 0) as [Hn|Hn].
  - rewrite for_loop_nonpos by assumption. reflexivity.
  - rewrite <- (Z2Nat.id n) by lia.
    induction (Z.to_nat n) as [|m IH]; [reflexivity|].
    rewrite for_loop_succ, length_set. exact IH.
Qed.

(** After a chunk loop the destination holds the source on the window
    [base .. base + n) that lies inside it, and is unchanged elsewhere. *)
Lemma get_copy (n : Z) (src : list A) (off : Z) (dst : list A) (base k : Z) :
  0 <= base ->
  get (copy n src off dst base) k
  = if (base <=? k) && (k <? base + n) && (k <? len dst)
    then get src (off + (k - base))
    else get dst k.
Proof.
  intros Hbase. unfold RingBuffer.copy.
  destruct (Z.le_gt_cases n 0) as [Hn|Hn].
  - rewrite for_loop_nonpos by assumption. zcases.
  - rewrite <- (Z2Nat.id n) by lia.
    induction (Z.to_nat n) as [|m IH].
    + unfold Js.for_loop; simpl. zcases.
    + rewrite for_loop_succ, get_set.
      fold (RingBuffer.copy nan (Z.of_nat m) src off dst base).
      unfold len at 1. rewrite length_copy. fold (len dst).
      unfold RingBuffer.copy. rewrite IH.
      zcases; subst; f_equal; lia.
Qed.

Lemma len_nonneg (l : list A) : 0 <= len l.
Proof. unfold len. lia. Qed.

Lemma get_lookup (l : list A) (k : nat) (x : A) :
  l !! k = Some x -> get l (Z.of_nat k) = x.
Proof.
  intros H. unfold RingBuffer.get.
  destruct (Z.ltb_spec (Z.of_nat k) 0); [lia|].
  rewrite Nat2Z.id, H. reflexivity.
Qed.

(** Two arrays of one length that read alike are the same array. *)
Lemma list_eq_get (l1 l2 : list A) :
  length l1 = length l2 ->
  (forall k, 0 <= k < len l1 -> get l1 k = get l2 k) ->
  l1 = l2.
Proof.
  intros Hlen H.
  apply (list_eq_same_length l1 l2 (length l1)); [congruence | reflexivity |].
  intros i x y Hi Hx Hy.
  rewrite <- (get_lookup _ _ _ Hx), <- (get_lookup _ _ _ Hy).
  apply H. unfold len. lia.
Qed.

Lemma map_as_fmap {B C : Type} (f : B -> C) (l : list B) : map f l = f <$> l.
Proof. induction l as [|b l IH]; simpl; [|rewrite IH]; reflexivity. Qed.

Lemma window_lookup (f : nat -> A) (n j : nat) :
  (j < n)%nat -> map f (seq 0 n) !! j = Some (f j).
Proof.
  intros H. rewrite map_as_fmap, list_lookup_fmap, lookup_seq_lt by lia.
  reflexivity.
Qed.

Lemma length_contents (rb : buf) :
  length (contents rb) = Z.to_nat (availableRead rb).
Proof. unfold RingBuffer.contents. rewrite length_map, length_seq. reflexivity. Qed.

Lemma contents_lookup (rb : buf) (j : nat) :
  (j < Z.to_nat (availableRead rb))%nat ->
  contents rb !! j
  = Some (get (storage rb) (Z.rem (readIndex rb + Z.of_nat j) (capacity rb))).
Proof. intros H. unfold RingBuffer.contents. apply window_lookup, H. Qed.

(** The fill level in terms of the two indices. *)
Lemma availableRead_cases (rb : buf) :
  (readIndex rb <= writeIndex rb
   /\ availableRead rb = writeIndex rb - readIndex rb)
  \/ (writeIndex rb < readIndex rb
      /\ availableRead rb = capacity rb - readIndex rb + writeIndex rb).
Proof. unfold availableRead. zcases. Qed.

Lemma availableRead_range (rb : buf) :
  wf rb -> 0 <= availableRead rb <= capacity rb - 1.
Proof.
  intros (Hc & Hw & Hr). destruct (availableRead_cases rb) as [[? ->]|[? ->]]; lia.
Qed.

Lemma availableWrite_range (rb : buf) :
  wf rb -> 0 <= availableWrite rb <= capacity rb - 1.
Proof.
  intros H. pose proof (availableRead_range rb H). unfold availableWrite. lia.
Qed.

(** The worklet computes the free space on its own; with the length of
    the storage as its capacity it finds what [availableWrite] finds. *)
Lemma getAvailableWrite_eq (w : @AudioRecorderProcessor.t A) (rb : buf) :
  AudioRecorderProcessor.buffer w = Some rb ->
  AudioRecorderProcessor.capacity w = capacity rb ->
  AudioRecorderProcessor.getAvailableWrite w = availableWrite rb.
Proof.
  intros Hb Hc. unfold AudioRecorderProcessor.getAvailableWrite.
  rewrite Hb, Hc. unfold availableWrite, availableRead. zcases.
Qed.

Lemma with_buffer_same (w : @AudioRecorderProcessor.t A) (rb : buf) :
  AudioRecorderProcessor.buffer w = Some rb ->
  AudioRecorderProcessor.with_buffer w (Some rb) = w.
Proof. destruct w. cbn. intros ->. reflexivity. Qed.

(** The worklet's own copy of the push is the channel's [push]. *)
Lemma pushToBuffer_push (samples : list A) (w : @AudioRecorderProcessor.t A)
    (rb : buf) :
  AudioRecorderProcessor.buffer w = Some rb ->
  AudioRecorderProcessor.capacity w = capacity rb ->
  AudioRecorderProcessor.pushToBuffer nan samples w
  = (fst (push nan samples rb),
     AudioRecorderProcessor.with_buffer w (Some (snd (push nan samples rb)))).
Proof.
  intros Hb Hc. unfold AudioRecorderProcessor.pushToBuffer.
  rewrite (getAvailableWrite_eq w rb Hb Hc). unfold push. rewrite Hb, Hc.
  destruct (Z.min _ _ =? 0); cbn [fst snd]; [|reflexivity].
  rewrite (with_buffer_same w rb Hb). reflexivity.
Qed.

(** The two chunk loops of [push]: entry [i] of the batch lands [i] slots
    past the write index, modulo the capacity; nothing else moves. *)
Lemma write_chunks (st data : list A) (wr n c : Z) :
  len st = c -> 0 <= wr < c -> 0 <= n <= c -> n <= len data ->
  let firstChunk := Z.min n (c - wr) in
  let secondChunk := n - firstChunk in
  let st1 := copy firstChunk data 0 st wr in
  let st2 :=
    if secondChunk >? 0 then copy secondChunk data firstChunk st1 0 else st1 in
  length st2 = length st /\
  forall i, 0 <= i < c ->
    get st2 (Z.rem (wr + i) c)
    = if i <? n then get data i else get st (Z.rem (wr + i) c).
Proof.
  intros Hlen Hwr Hn Hdata firstChunk secondChunk st1 st2.
  assert (Hl1 : length st1 = length st) by apply length_copy.
  assert (Hl2 : length st2 = length st).
  { subst st2. destruct (secondChunk >? 0); [rewrite length_copy|]; exact Hl1. }
  split; [exact Hl2|].
  intros i Hi. rewrite rem_wrap by lia.
  assert (Hlen1 : len st1 = c) by (unfold len in *; lia).
  subst st2 st1 secondChunk firstChunk.
  destruct (Z.gtb_spec (n - Z.min n (c - wr)) 0).
  - rewrite !get_copy by lia. rewrite Hlen1, Hlen.
    zcases; f_equal; lia.
  - rewrite !get_copy by lia. rewrite Hlen.
    zcases; f_equal; lia.
Qed.

(** The two chunk loops of [pull] and [peek]: the first [n] entries of the
    output become the [n] samples from [rd] on, modulo the capacity. *)
Lemma read_chunks (st out : list A) (rd n c : Z) :
  len st = c -> 0 <= rd < c -> 0 <= n <= c -> n <= len out ->
  let firstChunk := Z.min n (c - rd) in
  let secondChunk := n - firstChunk in
  let out1 := copy firstChunk st rd out 0 in
  let out2 :=
    if secondChunk >? 0 then copy secondChunk st 0 out1 firstChunk else out1 in
  out2
  = map (fun j => get st (Z.rem (rd + Z.of_nat j) c)) (seq 0 (Z.to_nat n))
    ++ drop (Z.to_nat n) out.
Proof.
  intros Hlen Hrd Hn Hout firstChunk secondChunk out1 out2.
  assert (Hl1 : length out1 = length out) by apply length_copy.
  assert (Hl2 : length out2 = length out).
  { subst out2. destruct (secondChunk >? 0); [rewrite length_copy|]; exact Hl1. }
  assert (Hlo : len out1 = len out) by (unfold len; lia).
  unfold len in Hout.
  apply list_eq_get.
  { rewrite length_app, length_map, length_seq, length_drop. lia. }
  intros k Hk. unfold len in Hk. rewrite Hl2 in Hk.
  transitivity
    (if k <? n then get st (Z.rem (rd + k) c) else get out k).
  - subst out2 out1 secondChunk firstChunk.
    pose proof (rem_wrap (rd + k) c) as Hw.
    destruct (Z.gtb_spec (n - Z.min n (c - rd)) 0).
    + rewrite !get_copy by lia. rewrite Hlo.
      unfold len. destruct (Z.ltb_spec k n).
      * rewrite Hw by lia. zcases; f_equal; lia.
      * zcases.
    + rewrite !get_copy by lia. unfold len.
      destruct (Z.ltb_spec k n).
      * rewrite Hw by lia. zcases; f_equal; lia.
      * zcases.
  - symmetry. rewrite <- (Z2Nat.id k) by lia. apply get_lookup.
    destruct (Z.ltb_spec (Z.of_nat (Z.to_nat k)) n).
    + rewrite lookup_app_l by (rewrite length_map, length_seq; lia).
      rewrite window_lookup by lia. reflexivity.
    + rewrite lookup_app_r by (rewrite length_map, length_seq; lia).
      rewrite length_map, length_seq, lookup_drop.
      replace (Z.to_nat n + (Z.to_nat k - Z.to_nat n))%nat with (Z.to_nat k)
        by lia.
      destruct (lookup_lt_is_Some_2 out (Z.to_nat k)) as [x Hx]; [lia|].
      rewrite Hx. f_equal. symmetry.
      rewrite <- (get_lookup _ _ _ Hx). reflexivity.
Qed.

Lemma wf_intro (w r : Z) (st : list A) :
  0 < len st <= 2 ^ 31 -> 0 <= w < len st -> 0 <= r < len st ->
  wf {| writeIndex := w; readIndex := r; storage := st |}.
Proof. intros. unfold wf, capacity. simpl. auto. Qed.

(** What [push] does to a well-formed channel. *)
Lemma push_spec (data : list A) (rb : buf) :
  wf rb ->
  let n := Z.min (availableWrite rb) (len data) in
  exists rb',
    push nan data rb = (n, rb') /\ wf rb' /\
    capacity rb' = capacity rb /\
    availableRead rb' = availableRead rb + n /\
    contents rb' = contents rb ++ take (Z.to_nat n) data.
Proof.
  intros Hwf n.
  pose proof (availableRead_range rb Hwf) as Har.
  pose proof (len_nonneg data) as Hd.
  destruct Hwf as (Hc & Hw & Hr).
  unfold push. fold n. unfold availableWrite in n.
  destruct (Z.eqb_spec n 0) as [Hn|Hn].
  - exists rb. rewrite Hn. simpl. rewrite app_nil_r.
    repeat split; auto; lia.
  - assert (Hpos : 0 < n) by (subst n; lia).
    destruct (write_chunks (storage rb) data (writeIndex rb) n (capacity rb))
      as [Hlen Hget]; try reflexivity; try (subst n; lia).
    cbv zeta in Hlen, Hget.
    eexists. split; [reflexivity|].
    set (st2 := if _ >? 0 then _ else _) in *.
    assert (Hcap : len st2 = capacity rb) by (unfold capacity, len; lia).
    assert (Hwi : to_int32 (Z.rem (writeIndex rb + n) (capacity rb))
                  = Z.rem (writeIndex rb + n) (capacity rb)).
    { apply to_int32_small. rewrite rem_wrap by (subst n; lia).
      subst n; zcases. }
    rewrite Hwi.
    assert (Hrw : Z.rem (writeIndex rb + n) (capacity rb)
                  = if writeIndex rb + n <? capacity rb
                    then writeIndex rb + n
                    else writeIndex rb + n - capacity rb).
    { apply rem_wrap; subst n; lia. }
    assert (Havail :
      availableRead
        {| writeIndex := Z.rem (writeIndex rb + n) (capacity rb);
           readIndex := readIndex rb; storage := st2 |}
      = availableRead rb + n).
    { unfold availableRead at 1. simpl.
      change (capacity (mk _ _ st2)) with (len st2).
      rewrite Hcap, Hrw.
      destruct (availableRead_cases rb) as [[? Heq]|[? Heq]];
        rewrite Heq in *; subst n; zcases. }
    split; [|split; [|split]].
    + apply wf_intro; rewrite ?Hcap, ?Hrw; subst n; zcases.
    + exact Hcap.
    + exact Havail.
    + apply (list_eq_same_length _ _ (Z.to_nat (availableRead rb + n))).
      * rewrite length_app, length_contents, length_take. unfold len in *. lia.
      * rewrite length_contents, Havail. reflexivity.
      * intros j x y Hj Hx Hy.
        rewrite contents_lookup in Hx by (rewrite Havail; exact Hj).
        injection Hx as <-. simpl.
        change (capacity (mk _ _ st2)) with (len st2).
        rewrite Hcap.
        set (zj := Z.of_nat j) in *.
        assert (Hzj : 0 <= zj < availableRead rb + n) by lia.
        pose proof (rem_wrap (readIndex rb + zj) (capacity rb)) as Hrj.
        destruct (Z.ltb_spec zj (availableRead rb)) as [Hlt|Hge].
        -- rewrite lookup_app_l in Hy by (rewrite length_contents; lia).
           rewrite contents_lookup in Hy by lia. injection Hy as <-.
           fold zj.
           specialize (Hget (zj - availableRead rb + capacity rb)).
           pose proof (rem_wrap (writeIndex rb
                         + (zj - availableRead rb + capacity rb))
                         (capacity rb)) as Hwj.
           replace (Z.rem (readIndex rb + zj) (capacity rb))
             with (Z.rem (writeIndex rb
                     + (zj - availableRead rb + capacity rb)) (capacity rb)).
           ++ rewrite Hget by lia. subst n. zcases.
           ++ rewrite Hwj, Hrj by lia.
              destruct (availableRead_cases rb) as [[? Heq]|[? Heq]];
                rewrite Heq in *; zcases.
        -- rewrite lookup_app_r in Hy by (rewrite length_contents; lia).
           rewrite length_contents in Hy.
           rewrite lookup_take_lt in Hy by lia.
           apply get_lookup in Hy. rewrite <- Hy.
           specialize (Hget (zj - availableRead rb)).
           pose proof (rem_wrap (writeIndex rb + (zj - availableRead rb))
                         (capacity rb)) as Hwj.
           replace (Z.rem (readIndex rb + zj) (capacity rb))
             with (Z.rem (writeIndex rb + (zj - availableRead rb))
                     (capacity rb)).
           ++ rewrite Hget by lia.
              destruct (Z.ltb_spec (zj - availableRead rb) n);
                [f_equal|]; lia.
           ++ rewrite Hwj, Hrj by lia.
              destruct (availableRead_cases rb) as [[? Heq]|[? Heq]];
                rewrite Heq in *; zcases.
Qed.

(** A run of [n] samples read from [offset] places past the read index is
    a slice of the unread samples. *)
Lemma window_of_contents (rb : buf) (offset n rd : Z) :
  wf rb -> 0 <= offset -> 0 <= n -> offset + n <= availableRead rb ->
  rd = Z.rem (readIndex rb + offset) (capacity rb) ->
  map (fun j => get (storage rb) (Z.rem (rd + Z.of_nat j) (capacity rb)))
      (seq 0 (Z.to_nat n))
  = take (Z.to_nat n) (drop (Z.to_nat offset) (contents rb)).
Proof.
  intros Hwf Hoff Hn Hle ->.
  pose proof (availableRead_range rb Hwf) as Har.
  destruct Hwf as (Hc & Hw & Hr).
  apply (list_eq_same_length _ _ (Z.to_nat n)).
  - rewrite length_take, length_drop, length_contents. lia.
  - rewrite length_map, length_seq. reflexivity.
  - intros j x y Hj Hx Hy.
    rewrite window_lookup in Hx by exact Hj. injection Hx as <-.
    rewrite lookup_take_lt, lookup_drop in Hy by exact Hj.
    rewrite contents_lookup in Hy by lia. injection Hy as <-.
    f_equal. rewrite Nat2Z.inj_add, Z2Nat.id by lia.
    set (zj := Z.of_nat j). assert (0 <= zj < n) by lia.
    rewrite (rem_wrap (readIndex rb + offset)) by lia.
    rewrite (rem_wrap (readIndex rb + (offset + zj))) by lia.
    destruct (Z.ltb_spec (readIndex rb + offset) (capacity rb));
      rewrite rem_wrap by lia; zcases.
Qed.

(** Moving the read index forward by [n] drops the [n] oldest samples. *)
Lemma advance_spec (rb : buf) (n : Z) :
  wf rb -> 0 <= n <= availableRead rb ->
  let rb' := {| writeIndex := writeIndex rb;
                readIndex := to_int32 (Z.rem (readIndex rb + n) (capacity rb));
                storage := storage rb |} in
  wf rb' /\ capacity rb' = capacity rb /\
  availableRead rb' = availableRead rb - n /\
  contents rb' = drop (Z.to_nat n) (contents rb).
Proof.
  intros Hwf Hn rb'.
  pose proof (availableRead_range rb Hwf) as Har.
  pose proof Hwf as (Hc & Hw & Hr).
  assert (Hrw : Z.rem (readIndex rb + n) (capacity rb)
                = if readIndex rb + n <? capacity rb
                  then readIndex rb + n
                  else readIndex rb + n - capacity rb)
    by (apply rem_wrap; lia).
  assert (Hri : readIndex rb' = Z.rem (readIndex rb + n) (capacity rb)).
  { subst rb'. simpl. apply to_int32_small. rewrite Hrw. zcases. }
  assert (Hcap : capacity rb' = capacity rb) by reflexivity.
  assert (Havail : availableRead rb' = availableRead rb - n).
  { unfold availableRead at 1. rewrite Hcap, Hri, Hrw.
    change (writeIndex rb') with (writeIndex rb).
    destruct (availableRead_cases rb) as [[? Heq]|[? Heq]];
      rewrite Heq in *; zcases. }
  split; [|split; [|split]]; try assumption.
  - unfold wf. rewrite Hcap, Hri, Hrw.
    change (writeIndex rb') with (writeIndex rb). zcases.
  - rewrite <- (take_ge (drop _ _) (Z.to_nat (availableRead rb - n)))
      by (rewrite length_drop, length_contents; lia).
    rewrite <- (window_of_contents rb n (availableRead rb - n)
                  (Z.rem (readIndex rb + n) (capacity rb)))
      by (auto; lia).
    unfold RingBuffer.contents. rewrite Havail, Hcap, Hri. reflexivity.
Qed.

Lemma pull_spec (output : list A) (rb : buf) :
  wf rb ->
  let n := Z.min (availableRead rb) (len output) in
  exists rb',
    pull nan output rb
    = (n,
       take (Z.to_nat n) (contents rb) ++ drop (Z.to_nat n) output,
       rb') /\
    wf rb' /\ capacity rb' = capacity rb /\
    availableRead rb' = availableRead rb - n /\
    contents rb' = drop (Z.to_nat n) (contents rb).
Proof.
  intros Hwf n.
  pose proof (availableRead_range rb Hwf) as Har.
  pose proof (len_nonneg output) as Hd.
  pose proof Hwf as (Hc & Hw & Hr).
  unfold pull. fold n.
  destruct (Z.eqb_spec n 0) as [Hn|Hn].
  - exists rb. rewrite Hn. simpl. rewrite drop_0.
    repeat split; auto; lia.
  - assert (Hpos : 0 < n <= availableRead rb) by (subst n; lia).
    eexists. split; [|apply advance_spec; [exact Hwf | lia]].
    rewrite (read_chunks (storage rb) output (readIndex rb) n (capacity rb))
      by (try reflexivity; subst n; lia).
    rewrite (window_of_contents rb 0 n (readIndex rb))
      by (try assumption; try lia;
          rewrite Z.add_0_r, rem_wrap by lia; zcases).
    rewrite drop_0. reflexivity.
Qed.

Lemma peek_unchanged (output : list A) (offset : Z) (rb : buf) :
  snd (peek nan output offset rb) = rb.
Proof.
  unfold peek.
  destruct (offset >=? availableRead rb); [reflexivity|].
  destruct (Z.min _ _ =? 0); reflexivity.
Qed.

Lemma peek_spec (output : list A) (offset : Z) (rb : buf) :
  wf rb -> 0 <= offset ->
  let n := Z.max 0 (Z.min (availableRead rb - offset) (len output)) in
  peek nan output offset rb
  = (n,
     take (Z.to_nat n) (drop (Z.to_nat offset) (contents rb))
     ++ drop (Z.to_nat n) output,
     rb).
Proof.
  intros Hwf Hoff n.
  pose proof (availableRead_range rb Hwf) as Har.
  pose proof (len_nonneg output) as Hd.
  pose proof Hwf as (Hc & Hw & Hr).
  unfold peek.
  destruct (Z.geb_spec offset (availableRead rb)) as [Hge|Hlt].
  - replace n with 0 by (subst n; lia). reflexivity.
  - destruct (Z.eqb_spec (Z.min (availableRead rb - offset) (len output)) 0)
      as [Hz|Hz].
    + replace n with 0 by (subst n; lia). reflexivity.
    + replace (Z.min (availableRead rb - offset) (len output)) with n
        by (subst n; lia).
      assert (Hn : 0 < n /\ offset + n <= availableRead rb /\ n <= len output)
        by (subst n; lia).
      assert (Hrd : 0 <= Z.rem (readIndex rb + offset) (capacity rb)
                    < capacity rb)
        by (rewrite rem_wrap by lia; zcases).
      rewrite (read_chunks (storage rb) output
                 (Z.rem (readIndex rb + offset) (capacity rb)) n (capacity rb))
        by (try reflexivity; lia).
      rewrite (window_of_contents rb offset n
                 (Z.rem (readIndex rb + offset) (capacity rb)))
        by (try assumption; try reflexivity; lia).
      reflexivity.
Qed.

Lemma skip_spec (count : Z) (rb : buf) :
  wf rb -> 0 <= count ->
  let n := Z.min (availableRead rb) count in
  exists rb',
    skip count rb = (n, rb') /\
    wf rb' /\ capacity rb' = capacity rb /\
    availableRead rb' = availableRead rb - n /\
    contents rb' = drop (Z.to_nat n) (contents rb).
Proof.
  intros Hwf Hcount n.
  pose proof (availableRead_range rb Hwf) as Har.
  unfold skip. fold n.
  destruct (Z.eqb_spec n 0) as [Hn|Hn].
  - exists rb. rewrite Hn. simpl. rewrite drop_0.
    repeat split; auto; try apply Hwf; lia.
  - eexists. split; [reflexivity|].
    apply advance_spec; [exact Hwf | subst n; lia].
Qed.

Lemma wf_create (init : list A) :
  0 < len init <= 2 ^ 31 -> wf (create init).
Proof.
  intros H. unfold create. rewrite to_int32_small by lia.
  apply wf_intro; lia.
Qed.

Lemma contents_create (init : list A) : contents (create init) = [].
Proof. reflexivity. Qed.

(** Every counted call keeps the channel well formed, on the same
    storage length. *)
Lemma step_wf (rb : buf) (o : op) :
  wf rb -> count_ok o ->
  wf (step nan rb o) /\ capacity (step nan rb o) = capacity rb.
Proof.
  intros Hwf Hok. destruct o as [data|output|output offset|count]; simpl.
  - destruct (push_spec data rb Hwf) as (rb' & -> & ? & ? & _). auto.
  - destruct (pull_spec output rb Hwf) as (rb' & -> & ? & ? & _). auto.
  - rewrite peek_unchanged. auto.
  - destruct (skip_spec count rb Hwf Hok) as (rb' & -> & ? & ? & _). auto.
Qed.

Lemma run_wf (ops : list op) (rb : buf) :
  wf rb -> Forall count_ok ops ->
  wf (run nan ops rb) /\ capacity (run nan ops rb) = capacity rb.
Proof.
  revert rb. induction ops as [|o ops IH]; intros rb Hwf Hok; simpl.
  - auto.
  - inversion Hok as [|? ? Ho Hops]; subst.
    destruct (step_wf rb o Hwf Ho) as [Hwf' Hcap].
    destruct (IH _ Hwf' Hops) as [? ?]. split; [assumption | congruence].
Qed.

Lemma session_spec (calls : list call) (rb : buf) :
  wf rb -> no_overflow nan calls rb ->
  let '(pushed, pulled, rb') := session nan calls rb in
  contents rb ++ pushed = pulled ++ contents rb'.
Proof.
  revert rb. induction calls as [|[data|output] calls IH]; intros rb Hwf Hno.
  - simpl. rewrite app_nil_r. reflexivity.
  - simpl in *. destruct Hno as [Hfit Hno].
    destruct (push_spec data rb Hwf) as (rb1 & Hpush & Hwf1 & _ & _ & Hc).
    rewrite Hpush in *. simpl in Hno.
    specialize (IH rb1 Hwf1 Hno).
    destruct (session nan calls rb1) as [[pushed pulled] rb2].
    rewrite <- IH, Hc, <- app_assoc. do 2 f_equal.
    symmetry. apply take_ge. unfold len in *. lia.
  - simpl in *.
    pose proof (availableRead_range rb Hwf) as Har.
    destruct (pull_spec output rb Hwf) as (rb1 & Hpull & Hwf1 & _ & _ & Hc).
    rewrite Hpull in *. simpl in Hno.
    specialize (IH rb1 Hwf1 Hno).
    destruct (session nan calls rb1) as [[pushed pulled] rb2].
    rewrite take_app_length' by (rewrite length_take, length_contents; lia).
    rewrite <- app_assoc, <- IH, Hc, app_assoc, take_drop. reflexivity.
Qed.

(** C1. After every call of a run of [push], [pull], [peek] and [skip]
    the readable and the writable counts add up to the capacity less one.
    On a freshly created channel, with [skip] given counts, both counts
    stay between zero and the capacity less one, and the capacity is the
    one the channel was created with. *)
Theorem channel_conservation (init : list A) (ops : list op) (k : nat) :
  let rb := run nan (take k ops) (create init) in
  availableRead rb + availableWrite rb = capacity rb - 1 /\
  (0 < len init <= 2 ^ 31 -> Forall count_ok ops ->
   0 <= availableRead rb <= capacity rb - 1 /\
   0 <= availableWrite rb <= capacity rb - 1 /\
   capacity rb = len init).
Proof.
  intros rb. split; [unfold availableWrite; lia|].
  intros Hinit Hops.
  destruct (run_wf (take k ops) (create init)) as [Hwf Hcap].
  - apply wf_create, Hinit.
  - apply Forall_take, Hops.
  - fold rb in Hwf, Hcap.
    pose proof (availableRead_range rb Hwf).
    pose proof (availableWrite_range rb Hwf).
    repeat split; try lia. exact Hcap.
Qed.

(** C2. [push] writes [min(availableWrite(), data.length)] samples and
    returns that count: all of the batch when it fits, otherwise exactly
    [availableWrite()] of them.  What is written is the leading part of
    the batch, appended after the samples already waiting; the rest is
    dropped and the storage keeps its length.  The worklet's
    [pushToBuffer], on a worklet that holds the channel and was given
    the length of the storage as its capacity, returns the same count and
    leaves the same channel. *)
Theorem push_overflow_policy (data : list A) (rb : buf) :
  wf rb ->
  let n := fst (push nan data rb) in
  let rb' := snd (push nan data rb) in
  n = Z.min (availableWrite rb) (len data) /\
  (availableWrite rb < len data -> n = availableWrite rb) /\
  (len data <= availableWrite rb -> n = len data) /\
  contents rb' = contents rb ++ take (Z.to_nat n) data /\
  availableRead rb' = availableRead rb + n /\
  capacity rb' = capacity rb /\
  (forall w : @AudioRecorderProcessor.t A,
     AudioRecorderProcessor.buffer w = Some rb ->
     AudioRecorderProcessor.capacity w = capacity rb ->
     AudioRecorderProcessor.pushToBuffer nan data w
     = (n, AudioRecorderProcessor.with_buffer w (Some rb'))).
Proof.
  intros Hwf n rb'.
  destruct (push_spec data rb Hwf) as (rb1 & Hpush & _ & Hcap & Hav & Hc).
  subst n rb'.
  assert (Hworklet : forall w : @AudioRecorderProcessor.t A,
            AudioRecorderProcessor.buffer w = Some rb ->
            AudioRecorderProcessor.capacity w = capacity rb ->
            AudioRecorderProcessor.pushToBuffer nan data w
            = (fst (push nan data rb),
               AudioRecorderProcessor.with_buffer w
                 (Some (snd (push nan data rb)))))
    by (intros w; apply pushToBuffer_push).
  rewrite Hpush in *. simpl in *.
  repeat split; try assumption; lia.
Qed.

(** C3. In a session of [push] and [pull] calls on a freshly created
    channel in which no [push] is offered more than the free space, the
    samples handed back by the [pull]s, in call order, followed by the
    samples still unread, are exactly the samples given to the [push]es,
    in call order: what was pulled is a prefix of what was pushed. *)
Theorem round_trip (init : list A) (calls : list call) :
  0 < len init <= 2 ^ 31 ->
  no_overflow nan calls (create init) ->
  let '(pushed, pulled, rb') := session nan calls (create init) in
  pushed = pulled ++ contents rb' /\ pulled `prefix_of` pushed.
Proof.
  intros Hinit Hno.
  pose proof (session_spec calls (create init) (wf_create init Hinit) Hno)
    as H.
  destruct (session nan calls (create init)) as [[pushed pulled] rb'].
  rewrite contents_create in H. simpl in H.
  split; [exact H|]. exists (contents rb'). exact H.
Qed.

(** C4. [peek] returns the channel as it found it, both indices and the
    storage, whatever its arguments.  On a well-formed channel and an
    offset that is a count, it reports
    [min(availableRead() - offset, output.length)] samples (none when the
    offset reaches past the unread data), and the output holds that many
    unread samples starting [offset] places past the read position, ahead
    of its own untouched tail; a [pull] or [peek] made next sees the same
    unread samples. *)
Theorem peek_non_consuming (output : list A) (offset : Z) (rb : buf) :
  snd (peek nan output offset rb) = rb /\
  (wf rb -> 0 <= offset ->
   let n := Z.max 0 (Z.min (availableRead rb - offset) (len output)) in
   fst (peek nan output offset rb)
   = (n,
      take (Z.to_nat n) (drop (Z.to_nat offset) (contents rb))
      ++ drop (Z.to_nat n) output) /\
   contents (snd (peek nan output offset rb)) = contents rb).
Proof.
  split; [apply peek_unchanged|].
  intros Hwf Hoff n. rewrite (peek_spec output offset rb Hwf Hoff).
  split; reflexivity.
Qed.

End Facts.

End RingBufferFacts.

(** ** The decoder *)

Module NoteDecoderFacts.

Import NoteDecoder JsFacts.
Local Open Scope Q_scope.

Section Frame.

Variables (d : t) (frameProbabilities : list Q)
          (onsetProbabilities : option (list Q))
          (frameIndex : Z) (frameTime : Q).

Let onsetProbOf (pitch : Z) : Q :=
  match onsetProbabilities with
  | Some o => read o pitch
  | None => read frameProbabilities pitch
  end.

Let body := processPitch d frameProbabilities onsetProbabilities frameIndex
              frameTime.

Let machine (pitch : Z) :=
  stepPitch d (read frameProbabilities pitch) (onsetProbOf pitch) frameIndex
    frameTime (pitch + PIANO_MIN_MIDI)%Z.

(** [processPitch] runs the machine of its pitch on that pitch's entry. *)
Lemma processPitch_own (pitch : Z) active completedNotes :
  let midi := (pitch + PIANO_MIN_MIDI)%Z in
  let r := machine pitch (Js.Map.get midi active) in
  Js.Map.get midi (fst (body pitch (active, completedNotes))) = fst r /\
  snd (body pitch (active, completedNotes)) = completedNotes ++ snd r.
Proof.
  unfold body, machine, onsetProbOf, processPitch, stepPitch. cbv zeta.
  destruct (Js.Map.get (pitch + PIANO_MIN_MIDI) active) as [note|] eqn:Hget.
  - repeat qcase; simpl;
      rewrite ?get_delete_eq, ?get_set_eq, ?app_nil_r; auto.
  - destruct (Js.geb _ _ || Js.geb _ _); simpl;
      rewrite ?get_set_eq, ?app_nil_r; auto.
Qed.

(** ... and leaves every other entry alone. *)
Lemma processPitch_other (pitch k : Z) active completedNotes :
  k <> (pitch + PIANO_MIN_MIDI)%Z ->
  Js.Map.get k (fst (body pitch (active, completedNotes)))
  = Js.Map.get k active.
Proof.
  intros Hne. unfold body, processPitch. cbv zeta.
  destruct (Js.Map.get (pitch + PIANO_MIN_MIDI) active) as [note|].
  - repeat qcase; simpl; rewrite ?get_delete_ne, ?get_set_ne; auto.
  - destruct (Js.geb _ _ || Js.geb _ _); simpl; rewrite ?get_set_ne; auto.
Qed.

(** The notes a machine completes carry its own pitch. *)
Lemma stepPitch_pitch probability onsetProb midi entry :
  Forall (fun n => DetectedNote.pitch n = midi)
    (snd (stepPitch d probability onsetProb frameIndex frameTime midi entry)).
Proof.
  unfold stepPitch. destruct entry as [note|].
  - repeat qcase; simpl; repeat constructor.
  - destruct (Js.geb _ _ || Js.geb _ _); simpl; constructor.
Qed.

Lemma notesOf_app midi l1 l2 :
  notesOf midi (l1 ++ l2) = notesOf midi l1 ++ notesOf midi l2.
Proof. apply List.filter_app. Qed.

Lemma notesOf_same midi l :
  Forall (fun n => DetectedNote.pitch n = midi) l -> notesOf midi l = l.
Proof.
  induction 1 as [|n l Hn _ IH]; simpl; [reflexivity|].
  rewrite Hn, Z.eqb_refl, IH. reflexivity.
Qed.

Lemma notesOf_other midi k l :
  k <> midi ->
  Forall (fun n => DetectedNote.pitch n = midi) l -> notesOf k l = [].
Proof.
  intros Hne. induction 1 as [|n l Hn _ IH]; simpl; [reflexivity|].
  rewrite Hn. destruct (Z.eqb_spec midi k); [congruence | exact IH].
Qed.

(** After the first [n] pitches of the loop, each of them has made its
    step and the others wait untouched. *)
Lemma pitch_loop (n : nat) (pitch : Z) active completedNotes :
  let midi := (pitch + PIANO_MIN_MIDI)%Z in
  let out := Js.for_loop (Z.of_nat n) body (active, completedNotes) in
  let r := machine pitch (Js.Map.get midi active) in
  (0 <= pitch)%Z ->
  if (pitch <? Z.of_nat n)%Z
  then Js.Map.get midi (fst out) = fst r /\
       notesOf midi (snd out) = notesOf midi completedNotes ++ snd r
  else Js.Map.get midi (fst out) = Js.Map.get midi active /\
       notesOf midi (snd out) = notesOf midi completedNotes.
Proof.
  intros midi out r Hp. subst out.
  induction n as [|n IH].
  - destruct (Z.ltb_spec pitch (Z.of_nat 0)); [lia|]. split; reflexivity.
  - rewrite for_loop_succ.
    destruct (Js.for_loop (Z.of_nat n) body (active, completedNotes))
      as [act comp] eqn:Hloop.
    simpl in IH.
    destruct (processPitch_own (Z.of_nat n) act comp) as [Hown Hsnd].
    cbv zeta in Hown, Hsnd.
    set (emitted := snd (machine (Z.of_nat n)
                           (Js.Map.get (Z.of_nat n + PIANO_MIN_MIDI)%Z act)))
      in *.
    assert (Hem : Forall
              (fun x => DetectedNote.pitch x = (Z.of_nat n + PIANO_MIN_MIDI)%Z)
              emitted) by apply stepPitch_pitch.
    rewrite Hsnd, notesOf_app.
    destruct (Z.eq_dec pitch (Z.of_nat n)) as [Hpn|Hpn].
    + destruct (Z.ltb_spec pitch (Z.of_nat n)); [lia|].
      destruct (Z.ltb_spec pitch (Z.of_nat (S n))); [|lia].
      destruct IH as [IH1 IH2]. subst midi r emitted. rewrite Hpn in *.
      rewrite Hown, (notesOf_same _ _ Hem), IH1, IH2. split; reflexivity.
    + rewrite processPitch_other by (subst midi; lia).
      rewrite (notesOf_other (Z.of_nat n + PIANO_MIN_MIDI)%Z midi emitted)
        by (subst midi; try lia; exact Hem).
      rewrite app_nil_r.
      destruct (Z.ltb_spec pitch (Z.of_nat n));
        destruct (Z.ltb_spec pitch (Z.of_nat (S n))); try lia; exact IH.
Qed.

End Frame.

Lemma stepPitch_closed d probability onsetProb frameIndex frameTime midi entry :
  Forall (closedAt d frameTime)
    (snd (stepPitch d probability onsetProb frameIndex frameTime midi entry)).
Proof.
  unfold stepPitch. destruct entry as [note|].
  - repeat qcase; simpl; repeat constructor; assumption.
  - destruct (Js.geb _ _ || Js.geb _ _); simpl; constructor.
Qed.

Lemma processFrame_closed frame onsetP frameIndex baseTimestamp d :
  Forall (closedAt d (frameTimeOf d frameIndex baseTimestamp))
    (fst (processFrame frame onsetP frameIndex baseTimestamp d)).
Proof.
  unfold processFrame.
  set (ft := frameTimeOf d frameIndex baseTimestamp).
  assert (H : forall n,
    Forall (closedAt d ft)
      (snd (Js.for_loop (Z.of_nat n)
              (processPitch d frame onsetP frameIndex ft)
              (activeNotes d, [])))).
  { induction n as [|n IH]; [constructor|].
    rewrite for_loop_succ.
    destruct (Js.for_loop _ _ _) as [act comp].
    destruct (processPitch_own d frame onsetP frameIndex ft (Z.of_nat n)
                act comp) as [_ ->].
    apply Forall_app. split; [exact IH | apply stepPitch_closed]. }
  specialize (H 88%nat). change (Z.of_nat 88) with NUM_PIANO_KEYS in H.
  destruct (Js.for_loop _ _ _) as [act comp]. exact H.
Qed.

(** [closeAllNotes] closes, in table order, the entries that have lasted
    long enough, and empties the table. *)
Lemma closeAllNotes_spec endTime d :
  closeAllNotes endTime d
  = (map (fun kv =>
            completed (fst kv) (snd kv) endTime
              (endTime - ActiveNoteState.startTime (snd kv)))
       (List.filter
          (fun kv =>
             Js.geb (endTime - ActiveNoteState.startTime (snd kv))
                    (minDurationSeconds d))
          (activeNotes d)),
     with_activeNotes d []).
Proof.
  unfold closeAllNotes. f_equal.
  assert (H : forall m acc,
    fold_left
      (fun closed (kv : Z * ActiveNoteState.t) =>
         let '(midiNote, state) := kv in
         let duration := endTime - ActiveNoteState.startTime state in
         if Js.geb duration (minDurationSeconds d)
         then closed ++ [completed midiNote state endTime duration]
         else closed) m acc
    = acc ++
      map (fun kv =>
             completed (fst kv) (snd kv) endTime
               (endTime - ActiveNoteState.startTime (snd kv)))
        (List.filter
           (fun kv =>
              Js.geb (endTime - ActiveNoteState.startTime (snd kv))
                     (minDurationSeconds d)) m)).
  { induction m as [|[midi state] m IH]; intros acc; simpl.
    - rewrite app_nil_r. reflexivity.
    - rewrite IH. destruct (Js.geb _ _); simpl; [|reflexivity].
      rewrite <- app_assoc. reflexivity. }
  apply (H (activeNotes d) []).
Qed.

Lemma processFrame_pitch frame onsetP frameIndex baseTimestamp d pitch :
  (0 <= pitch < NUM_PIANO_KEYS)%Z ->
  let midi := (pitch + PIANO_MIN_MIDI)%Z in
  let out := processFrame frame onsetP frameIndex baseTimestamp d in
  let r :=
    stepPitch d (read frame pitch)
      (match onsetP with Some o => read o pitch | None => read frame pitch end)
      frameIndex (frameTimeOf d frameIndex baseTimestamp) midi
      (Js.Map.get midi (activeNotes d)) in
  Js.Map.get midi (activeNotes (snd out)) = fst r /\
  notesOf midi (fst out) = snd r /\
  exists active, snd out = with_activeNotes d active.
Proof.
  intros Hp midi out r. subst out. unfold processFrame.
  pose proof (pitch_loop d frame onsetP frameIndex
                (frameTimeOf d frameIndex baseTimestamp) 88 pitch
                (activeNotes d) []) as H.
  cbv zeta in H. change (Z.of_nat 88) with NUM_PIANO_KEYS in H.
  destruct (Js.for_loop _ _ _) as [act comp].
  destruct (Z.ltb_spec pitch NUM_PIANO_KEYS); [|lia].
  destruct H as [H1 H2]; [lia|]. simpl in *.
  split; [exact H1|]. split; [exact H2|]. exists act. reflexivity.
Qed.

Lemma runPitch_params d active pitch frames frameIndex baseTimestamp entry :
  runPitch (with_activeNotes d active) pitch frames frameIndex baseTimestamp
    entry
  = runPitch d pitch frames frameIndex baseTimestamp entry.
Proof.
  revert frameIndex entry.
  induction frames as [|frame rest IH]; intros frameIndex entry; simpl.
  - reflexivity.
  - change (stepPitch (with_activeNotes d active)) with (stepPitch d).
    change (frameTimeOf (with_activeNotes d active)) with (frameTimeOf d).
    destruct (stepPitch d _ _ _ _ _ _) as [entry1 notes].
    rewrite IH. reflexivity.
Qed.

(** The decoder, watched at one pitch, is that pitch's machine. *)
Lemma processFrames_pitch frames frameIndex baseTimestamp d pitch :
  (0 <= pitch < NUM_PIANO_KEYS)%Z ->
  let midi := (pitch + PIANO_MIN_MIDI)%Z in
  let out := processFrames frames frameIndex baseTimestamp d in
  let r := runPitch d pitch frames frameIndex baseTimestamp
             (Js.Map.get midi (activeNotes d)) in
  Js.Map.get midi (activeNotes (snd out)) = fst r /\
  notesOf midi (fst out) = snd r.
Proof.
  intros Hp midi. cbv zeta. revert frameIndex d.
  induction frames as [|frame rest IH]; intros frameIndex d.
  - split; reflexivity.
  - destruct (processFrame_pitch frame None frameIndex baseTimestamp d pitch Hp)
      as (H1 & H2 & act & Hd).
    cbv zeta in H1, H2. fold midi in H1, H2.
    cbn [processFrames runPitch].
    destruct (processFrame frame None frameIndex baseTimestamp d)
      as [notes d1].
    cbn [fst snd] in H1, H2, Hd.
    specialize (IH (frameIndex + 1)%Z d1).
    destruct (processFrames rest (frameIndex + 1) baseTimestamp d1)
      as [more d2].
    fold midi.
    destruct (stepPitch d _ _ _ _ _ _) as [entry1 emitted].
    cbn [fst snd] in *. rewrite H1, Hd, runPitch_params in IH.
    destruct (runPitch d pitch rest (frameIndex + 1) baseTimestamp entry1)
      as [entry2 later].
    cbn [fst snd] in *. destruct IH as [IH1 IH2].
    split; [exact IH1|].
    rewrite notesOf_app, H2, IH2. reflexivity.
Qed.

(** *** Traces of one pitch *)

Section Trace.

Variables (d : t) (pitch : Z) (baseTimestamp : Q).

Local Abbreviation midi := (pitch + PIANO_MIN_MIDI)%Z.

Lemma runPitch_app l1 l2 i entry :
  runPitch d pitch (l1 ++ l2) i baseTimestamp entry
  = let '(entry1, notes1) := runPitch d pitch l1 i baseTimestamp entry in
    let '(entry2, notes2) := runPitch d pitch l2 (i + Z.of_nat (length l1))%Z baseTimestamp entry1 in
    (entry2, notes1 ++ notes2).
Proof.
  revert i entry. induction l1 as [|f l1 IH]; intros i entry.
  - cbn [app runPitch length]. rewrite Z.add_0_r.
    destruct (runPitch _ _ l2 _ _ _). reflexivity.
  - cbn [app runPitch].
    destruct (stepPitch d _ _ _ _ _ _) as [entry1 notes].
    rewrite IH.
    destruct (runPitch d pitch l1 _ _ _) as [entry2 more].
    replace (i + 1 + Z.of_nat (length l1))%Z with (i + Z.of_nat (length (f :: l1)))%Z
      by (cbn [length]; lia).
    destruct (runPitch d pitch l2 _ _ _) as [entry3 last].
    rewrite app_assoc. reflexivity.
Qed.

(** Below the onset threshold an idle pitch stays idle. *)
Lemma run_quiet frames i :
  Forall (fun f => read f pitch < onsetThreshold d) frames ->
  runPitch d pitch frames i baseTimestamp None = (None, []).
Proof.
  intros H. revert i. induction H as [|f frames Hf _ IH]; intros i.
  - reflexivity.
  - cbn [runPitch stepPitch].
    apply geb_false in Hf. rewrite Hf. cbn [orb].
    rewrite IH. reflexivity.
Qed.

(** At or above the offset threshold a sounding pitch keeps sounding,
    with the start it had. *)
Lemma run_held frames i note :
  Forall (fun f => offsetThreshold d <= read f pitch) frames ->
  exists note',
    runPitch d pitch frames i baseTimestamp (Some note) = (Some note', []) /\
    ActiveNoteState.startTime note' = ActiveNoteState.startTime note /\
    ActiveNoteState.velocityEstimate note'
    = ActiveNoteState.velocityEstimate note.
Proof.
  intros H. revert i note. induction H as [|f frames Hf _ IH]; intros i note.
  - exists note. repeat split.
  - cbn [runPitch stepPitch].
    apply ltb_false in Hf. rewrite Hf.
    destruct (Js.gtb _ _).
    + destruct (IH (i + 1)%Z
        {| ActiveNoteState.pitch := ActiveNoteState.pitch note;
           ActiveNoteState.startTime := ActiveNoteState.startTime note;
           ActiveNoteState.startFrame := ActiveNoteState.startFrame note;
           ActiveNoteState.peakProbability := read f pitch;
           ActiveNoteState.velocityEstimate :=
             ActiveNoteState.velocityEstimate note |})
        as (note' & -> & Hs & Hv).
      exists note'. repeat split; assumption.
    + destruct (IH (i + 1)%Z note) as (note' & -> & Hs & Hv).
      exists note'. repeat split; assumption.
Qed.

(** Onset, a held stretch, offset, silence: the machine closes one span,
    from the onset frame to the offset frame, and reports it when it is
    long enough. *)
Lemma run_hysteresis pre onsetFrame mid offsetFrame post i :
  offsetThreshold d <= onsetThreshold d ->
  Forall (fun f => read f pitch < onsetThreshold d) pre ->
  onsetThreshold d <= read onsetFrame pitch ->
  Forall (fun f => offsetThreshold d <= read f pitch) mid ->
  read offsetFrame pitch < offsetThreshold d ->
  Forall (fun f => read f pitch < offsetThreshold d) post ->
  let onsetTime := frameTimeOf d (i + Z.of_nat (length pre))%Z baseTimestamp in
  let offsetTime := frameTimeOf d (i + Z.of_nat (length pre) + 1 + Z.of_nat (length mid))%Z
                      baseTimestamp in
  exists note,
    ActiveNoteState.startTime note = onsetTime /\
    runPitch d pitch (pre ++ onsetFrame :: mid ++ offsetFrame :: post) i
      baseTimestamp None
    = (None,
       if Js.geb (offsetTime - onsetTime) (minDurationSeconds d)
       then [completed midi note offsetTime (offsetTime - onsetTime)]
       else []).
Proof.
  intros Hth Hpre Hon Hmid Hoff Hpost onsetTime offsetTime.
  assert (Hpost' : Forall (fun f => read f pitch < onsetThreshold d) post).
  { eapply Forall_impl; [exact Hpost|]. cbn beta. intros f Hf. lra. }
  rewrite runPitch_app, (run_quiet pre i Hpre).
  cbn [runPitch stepPitch].
  apply geb_true in Hon. rewrite Hon. cbn [orb].
  rewrite runPitch_app.
  destruct (run_held mid (i + Z.of_nat (length pre) + 1)%Z
    {| ActiveNoteState.pitch := midi;
       ActiveNoteState.startTime := onsetTime;
       ActiveNoteState.startFrame := (i + Z.of_nat (length pre))%Z;
       ActiveNoteState.peakProbability := read onsetFrame pitch;
       ActiveNoteState.velocityEstimate := read onsetFrame pitch |} Hmid)
    as (note & Hrun & Hstart & _).
  fold onsetTime. rewrite Hrun.
  cbn [runPitch stepPitch].
  apply ltb_true in Hoff. rewrite Hoff.
  rewrite (run_quiet post _ Hpost'). cbn [ActiveNoteState.startTime] in Hstart.
  exists note. split; [exact Hstart|].
  rewrite Hstart. fold offsetTime.
  cbn [app]. rewrite app_nil_r. reflexivity.
Qed.

End Trace.

(** C5, as the code has it.  Take a pitch that is idle, thresholds with
    the offset not above the onset, and frames in which its probability
    stays below the onset threshold, then reaches it, then stays at or
    above the offset threshold, then falls below it and stays below.  If
    the offset frame comes at least [minDurationSeconds] after the onset
    frame, the decoder emits exactly one note for the pitch: it starts at
    the onset frame, ends at the offset frame, and the pitch is idle
    again. *)
Theorem hysteresis_single_note d pitch i baseTimestamp
    pre onsetFrame mid offsetFrame post :
  (0 <= pitch < NUM_PIANO_KEYS)%Z ->
  Forall full (pre ++ onsetFrame :: mid ++ offsetFrame :: post) ->
  Js.Map.get (pitch + PIANO_MIN_MIDI)%Z (activeNotes d) = None ->
  offsetThreshold d <= onsetThreshold d ->
  Forall (fun f => read f pitch < onsetThreshold d) pre ->
  onsetThreshold d <= read onsetFrame pitch ->
  Forall (fun f => offsetThreshold d <= read f pitch) mid ->
  read offsetFrame pitch < offsetThreshold d ->
  Forall (fun f => read f pitch < offsetThreshold d) post ->
  let onsetTime := frameTimeOf d (i + Z.of_nat (length pre))%Z baseTimestamp in
  let offsetTime :=
    frameTimeOf d (i + Z.of_nat (length pre) + 1 + Z.of_nat (length mid))%Z
      baseTimestamp in
  minDurationSeconds d <= offsetTime - onsetTime ->
  let out :=
    processFrames (pre ++ onsetFrame :: mid ++ offsetFrame :: post) i
      baseTimestamp d in
  exists note,
    notesOf (pitch + PIANO_MIN_MIDI)%Z (fst out) = [note] /\
    DetectedNote.pitch note = (pitch + PIANO_MIN_MIDI)%Z /\
    DetectedNote.startTime note = onsetTime /\
    DetectedNote.endTime note = Some offsetTime /\
    DetectedNote.duration note = offsetTime - onsetTime /\
    DetectedNote.isActive note = false /\
    Js.Map.get (pitch + PIANO_MIN_MIDI)%Z (activeNotes (snd out)) = None.
Proof.
  intros Hp _ Hidle Hth Hpre Hon Hmid Hoff Hpost onsetTime offsetTime Hlong out.
  destruct (processFrames_pitch
              (pre ++ onsetFrame :: mid ++ offsetFrame :: post) i
              baseTimestamp d pitch Hp) as [Hentry Hnotes].
  cbv zeta in Hentry, Hnotes. fold out in Hentry, Hnotes.
  rewrite Hidle in Hentry, Hnotes.
  destruct (run_hysteresis d pitch baseTimestamp pre onsetFrame mid
              offsetFrame post i Hth Hpre Hon Hmid Hoff Hpost)
    as (state & Hstart & Hrun).
  cbv zeta in Hstart, Hrun. fold onsetTime offsetTime in Hstart, Hrun.
  rewrite Hrun in Hentry, Hnotes. cbn [fst snd] in Hentry, Hnotes.
  apply geb_true in Hlong. rewrite Hlong in Hnotes.
  eexists. split; [exact Hnotes|].
  cbn [completed DetectedNote.pitch DetectedNote.startTime
       DetectedNote.endTime DetectedNote.duration DetectedNote.isActive].
  repeat split; assumption.
Qed.

(** C6. Every note [processFrame] returns is closed at the frame's time
    and every note [closeAllNotes] returns is closed at the given end
    time, in both cases with a duration, end less start, of at least
    [minDurationSeconds].  [closeAllNotes] returns the table entries that
    have lasted that long, in table order, drops the others and leaves the
    table empty.  A pitch whose onset and offset frames are less than
    [minDurationSeconds] apart yields no note. *)
Theorem minimum_duration_filter :
  (forall frame onsetP i baseTimestamp d,
     Forall (closedAt d (frameTimeOf d i baseTimestamp))
       (fst (processFrame frame onsetP i baseTimestamp d))) /\
  (forall endTime d,
     Forall (closedAt d endTime) (fst (closeAllNotes endTime d)) /\
     fst (closeAllNotes endTime d)
     = map (fun kv =>
              completed (fst kv) (snd kv) endTime
                (endTime - ActiveNoteState.startTime (snd kv)))
         (List.filter
            (fun kv =>
               Js.geb (endTime - ActiveNoteState.startTime (snd kv))
                      (minDurationSeconds d))
            (activeNotes d)) /\
     activeNotes (snd (closeAllNotes endTime d)) = []) /\
  (forall d pitch i baseTimestamp pre onsetFrame mid offsetFrame post,
     (0 <= pitch < NUM_PIANO_KEYS)%Z ->
     Forall full (pre ++ onsetFrame :: mid ++ offsetFrame :: post) ->
     Js.Map.get (pitch + PIANO_MIN_MIDI)%Z (activeNotes d) = None ->
     offsetThreshold d <= onsetThreshold d ->
     Forall (fun f => read f pitch < onsetThreshold d) pre ->
     onsetThreshold d <= read onsetFrame pitch ->
     Forall (fun f => offsetThreshold d <= read f pitch) mid ->
     read offsetFrame pitch < offsetThreshold d ->
     Forall (fun f => read f pitch < offsetThreshold d) post ->
     frameTimeOf d (i + Z.of_nat (length pre) + 1 + Z.of_nat (length mid))%Z
       baseTimestamp
     - frameTimeOf d (i + Z.of_nat (length pre))%Z baseTimestamp
     < minDurationSeconds d ->
     notesOf (pitch + PIANO_MIN_MIDI)%Z
       (fst (processFrames (pre ++ onsetFrame :: mid ++ offsetFrame :: post)
               i baseTimestamp d))
     = []).
Proof.
  split; [|split].
  - intros. apply processFrame_closed.
  - intros endTime d. rewrite closeAllNotes_spec. cbn [fst snd].
    split; [|split; reflexivity].
    induction (activeNotes d) as [|[midi state] m IH]; [constructor|].
    cbn [List.filter fst snd]. qcase; [|exact IH].
    cbn [map]. constructor; [|exact IH].
    repeat split. exact Hcmp.
  - intros d pitch i baseTimestamp pre onsetFrame mid offsetFrame post
      Hp _ Hidle Hth Hpre Hon Hmid Hoff Hpost Hshort.
    destruct (processFrames_pitch
                (pre ++ onsetFrame :: mid ++ offsetFrame :: post) i
                baseTimestamp d pitch Hp) as [_ Hnotes].
    cbv zeta in Hnotes. rewrite Hidle in Hnotes.
    destruct (run_hysteresis d pitch baseTimestamp pre onsetFrame mid
                offsetFrame post i Hth Hpre Hon Hmid Hoff Hpost)
      as (state & _ & Hrun).
    cbv zeta in Hrun. rewrite Hrun in Hnotes. cbn [snd] in Hnotes.
    apply geb_false in Hshort. rewrite Hshort in Hnotes. exact Hnotes.
Qed.

End NoteDecoderFacts.

(** ** The beat detector *)

Module BeatDetectorFacts.

Import BeatDetector JsFacts.
Local Open Scope Q_scope.

(** The detector keeps the last [maxOnsets] onsets. *)
Lemma addOnsets_spec (times : list Q) :
  addOnsets times new = drop (length times - maxOnsets) times.
Proof.
  unfold addOnsets, new.
  assert (Hmax : maxOnsets = 100%nat) by reflexivity.
  induction times as [|time times IH] using rev_ind; [reflexivity|].
  rewrite fold_left_app. cbn [fold_left]. rewrite IH.
  unfold addOnset. rewrite !length_app, length_drop. cbn [length].
  destruct (Nat.ltb_spec maxOnsets (length times - (length times - maxOnsets) + 1))
    as [Hlt|Hge].
  - assert (Hlen : (maxOnsets <= length times)%nat) by lia.
    replace (length times + 1 - maxOnsets)%nat
      with (S (length times - maxOnsets)) by lia.
    rewrite drop_app_le by lia.
    destruct (drop (length times - maxOnsets) times) as [|x rest] eqn:Hd.
    + apply (f_equal length) in Hd. rewrite length_drop in Hd.
      cbn [length] in Hd. lia.
    + assert (Hx : times !! (length times - maxOnsets)%nat = Some x).
      { rewrite <- (Nat.add_0_r (length times - maxOnsets)),
          <- lookup_drop, Hd. reflexivity. }
      apply drop_S in Hx. rewrite Hd in Hx. injection Hx as ->.
      reflexivity.
  - replace (length times + 1 - maxOnsets)%nat with 0%nat by lia.
    replace (length times - maxOnsets)%nat with 0%nat by lia.
    reflexivity.
Qed.

Lemma intervalsOf_drop (k : nat) (l : list Q) :
  intervalsOf (drop k l) = drop k (intervalsOf l).
Proof.
  revert k. induction l as [|a [|b r] IH]; intros [|k]; try reflexivity.
  - destruct k; reflexivity.
  - exact (IH k).
Qed.

Lemma length_intervalsOf (l : list Q) :
  length (intervalsOf l) = (length l - 1)%nat.
Proof.
  induction l as [|a [|b r] IH]; try reflexivity.
  change (intervalsOf (a :: b :: r)) with ((b - a) :: intervalsOf (b :: r)).
  cbn [length] in *. lia.
Qed.

Lemma validInterval_true (i : Q) :
  validInterval i = true <-> minInterval <= i <= maxInterval.
Proof.
  unfold validInterval. rewrite andb_true_iff, geb_true, leb_true. tauto.
Qed.

Lemma filter_none {X : Type} (f : X -> bool) (l : list X) :
  Forall (fun x => f x = false) l -> List.filter f l = [].
Proof.
  induction 1 as [|x l Hx _ IH]; cbn [List.filter]; [reflexivity|].
  rewrite Hx. exact IH.
Qed.

Lemma filter_all {X : Type} (f : X -> bool) (l : list X) :
  Forall (fun x => f x = true) l -> List.filter f l = l.
Proof.
  induction 1 as [|x l Hx _ IH]; cbn [List.filter]; [reflexivity|].
  rewrite Hx, IH. reflexivity.
Qed.

(** C10. After any run of [addOnset] calls that either is shorter than
    four, or has no two neighbouring onsets between 0.2 s and 2.0 s apart,
    [estimateBPM] returns 120, whatever the onsets are and without entering
    its loops. *)
Theorem default_tempo (fuel : nat) (times : list Q) :
  (length times < 4)%nat \/
  Forall (fun i => ~ (minInterval <= i <= maxInterval)) (intervalsOf times) ->
  estimateBPM fuel (addOnsets times new) = Some 120.
Proof.
  intros H. rewrite addOnsets_spec. unfold estimateBPM.
  destruct (Nat.ltb_spec (length (drop (length times - maxOnsets) times)) 4)
    as [Hshort|Hlong]; [reflexivity|].
  destruct H as [H|H].
  - rewrite length_drop in Hlong. lia.
  - rewrite intervalsOf_drop, filter_none; [reflexivity|].
    apply Forall_drop. eapply Forall_impl; [exact H|].
    intros i Hi. cbn beta in *. destruct (validInterval i) eqn:Hv; [|reflexivity].
    apply validInterval_true in Hv. contradiction.
Qed.

(** *** The histogram *)

Lemma set_Forall {V : Type} (P : Z * V -> Prop) k v (m : Js.Map.t V) :
  P (k, v) -> Forall P m -> Forall P (Js.Map.set k v m).
Proof.
  intros Hkv Hm. unfold Js.Map.set. destruct (Js.Map.has k m).
  - induction Hm as [|[k1 v1] m H1 _ IH]; cbn [map]; [constructor|].
    cbn [fst]. constructor; [|exact IH].
    destruct (Z.eqb k1 k); assumption.
  - apply Forall_app. split; [exact Hm|]. repeat constructor. exact Hkv.
Qed.

Lemma set_nonempty {V : Type} k v (m : Js.Map.t V) : Js.Map.set k v m <> [].
Proof.
  unfold Js.Map.set. destruct (Js.Map.has k m) eqn:Hhas.
  - destruct m; [discriminate Hhas | discriminate].
  - destruct m; discriminate.
Qed.

Lemma get_Forall {V : Type} (P : V -> Prop) k c (m : Js.Map.t V) :
  Forall (fun kv => P (snd kv)) m -> Js.Map.get k m = Some c -> P c.
Proof.
  unfold Js.Map.get.
  induction 1 as [|[k1 v1] m H1 _ IH]; cbn [find fst]; [discriminate|].
  destruct (Z.eqb k1 k); [|exact IH].
  cbn. intros [= <-]. exact H1.
Qed.

Lemma bin_range (i : Q) :
  validInterval i = true -> (4 <= Js.Math_round (i / binSize) <= 40)%Z.
Proof.
  intros H. apply validInterval_true in H.
  unfold minInterval, maxInterval in H. destruct H as [Hlo Hhi].
  unfold Js.Math_round, binSize.
  change 4%Z with (Qfloor (4 + (1 # 2))).
  change 40%Z with (Qfloor (40 + (1 # 2))).
  split; apply Qfloor_resp_le; unfold Qdiv; cbn [Qinv Qnum Qden]; lra.
Qed.

Lemma countBin_plausible (h : Js.Map.t Z) (i : Q) :
  validInterval i = true -> Forall plausible h ->
  Forall plausible (countBin h i) /\ countBin h i <> [].
Proof.
  intros Hi Hh. unfold countBin. split; [|apply set_nonempty].
  apply set_Forall; [|exact Hh].
  split; cbn [fst snd]; [apply bin_range, Hi|].
  destruct (Js.Map.get _ h) as [c|] eqn:Hget; [|lia].
  assert (1 <= c)%Z; [|lia].
  apply (get_Forall (fun c => (1 <= c)%Z) (Js.Math_round (i / binSize)) c h);
    [|exact Hget].
  eapply Forall_impl; [exact Hh|]. intros e He. exact (proj2 He).
Qed.

Lemma histogram_plausible (l : list Q) (h : Js.Map.t Z) :
  Forall (fun i => validInterval i = true) l -> Forall plausible h ->
  Forall plausible (fold_left countBin l h) /\
  (l <> [] -> fold_left countBin l h <> []).
Proof.
  intros Hl. revert h. induction Hl as [|i l Hi _ IH]; intros h Hh.
  - split; [exact Hh | congruence].
  - cbn [fold_left].
    destruct (countBin_plausible h i Hi Hh) as [Hp Hne].
    destruct (IH _ Hp) as [IH1 IH2]. split; [exact IH1|].
    intros _. destruct l as [|j l]; [exact Hne|].
    apply IH2. discriminate.
Qed.

Lemma pickDominant_keeps (h : list (Z * Z)) (best : Z * Z) :
  Forall plausible h -> plausible (snd best, fst best) ->
  plausible (snd (fold_left pickDominant h best),
             fst (fold_left pickDominant h best)).
Proof.
  intros Hh. revert best. induction Hh as [|[bin c] h He _ IH]; intros best Hb.
  - exact Hb.
  - cbn [fold_left]. apply IH.
    destruct best as [maxCount dominantBin]. unfold pickDominant.
    destruct (c >? maxCount)%Z; [|exact Hb].
    destruct He as [H1 H2]. split; assumption.
Qed.

Lemma pickDominant_first (h : list (Z * Z)) :
  Forall plausible h -> h <> [] ->
  plausible (snd (fold_left pickDominant h (0, 0)%Z),
             fst (fold_left pickDominant h (0, 0)%Z)).
Proof.
  intros Hh Hne. destruct Hh as [|[bin c] h He Hh]; [congruence|].
  cbn [fold_left]. apply pickDominant_keeps; [exact Hh|].
  unfold pickDominant. destruct He as [H1 H2]. cbn [fst snd] in *.
  destruct (Z.gtb_spec c 0); [|lia].
  split; assumption.
Qed.

(** *** Folding into the canonical range *)

Lemma bpm_of_bin (bin : Z) :
  (4 <= bin <= 40)%Z -> 30 <= 60 / (inject_Z bin * binSize) <= 300.
Proof.
  intros [Hlo Hhi]. rewrite Zle_Qle in Hlo, Hhi.
  change (inject_Z 4) with 4 in Hlo. change (inject_Z 40) with 40 in Hhi.
  unfold binSize. split.
  - apply Qle_shift_div_l; lra.
  - apply Qle_shift_div_r; lra.
Qed.

Lemma fold_up (fuel : nat) (b : Q) :
  (2 <= fuel)%nat -> 30 <= b <= 300 ->
  exists b1,
    Js.while_loop fuel (fun b => Js.ltb b 60) (fun b => b * 2) b = Some b1 /\
    60 <= b1 <= 300.
Proof.
  intros Hfuel Hb. destruct fuel as [|[|fuel]]; try lia.
  cbn [Js.while_loop]. qcase.
  - qcase; [lra|]. exists (b * 2). split; [reflexivity | lra].
  - exists b. split; [reflexivity | lra].
Qed.

Lemma fold_down (fuel : nat) (b : Q) :
  (2 <= fuel)%nat -> 60 <= b <= 300 ->
  exists b2,
    Js.while_loop fuel (fun b => Js.gtb b 180) (fun b => b / 2) b = Some b2 /\
    60 <= b2 <= 180.
Proof.
  intros Hfuel Hb. destruct fuel as [|[|fuel]]; try lia.
  cbn [Js.while_loop]. qcase.
  - assert (Hhalf : b / 2 == b * (1 # 2)) by (unfold Qdiv; reflexivity).
    qcase; [rewrite Hhalf in *; lra|].
    exists (b / 2). split; [reflexivity|]. rewrite Hhalf. lra.
  - exists b. split; [reflexivity | lra].
Qed.

Lemma round_in_range (x : Q) :
  60 <= x <= 180 -> 60 <= inject_Z (Js.Math_round x) <= 180.
Proof.
  intros [Hlo Hhi]. unfold Js.Math_round.
  assert (Hz : (60 <= Qfloor (x + (1 # 2)) <= 180)%Z).
  { change 60%Z with (Qfloor (60 + (1 # 2))).
    change 180%Z with (Qfloor (180 + (1 # 2))).
    split; apply Qfloor_resp_le; lra. }
  destruct Hz as [Hz1 Hz2]. rewrite Zle_Qle in Hz1, Hz2.
  split; assumption.
Qed.

Lemma filter_valid (l : list Q) :
  Forall (fun i => validInterval i = true) (List.filter validInterval l).
Proof.
  induction l as [|i l IH]; cbn [List.filter]; [constructor|].
  destruct (validInterval i) eqn:Hi; [constructor|]; assumption.
Qed.

(** Intervals that all fall into bin 10 make a histogram of that one bin. *)
Lemma uniform_histogram (l : list Q) (c : Z) :
  Forall (fun i => Js.Math_round (i / binSize) = 10%Z) l ->
  fold_left countBin l [(10, c)%Z] = [(10, c + Z.of_nat (length l))%Z].
Proof.
  intros H. revert c. induction H as [|i l Hi _ IH]; intros c.
  - cbn [fold_left length]. rewrite Z.add_0_r. reflexivity.
  - cbn [fold_left length]. unfold countBin at 2. rewrite Hi.
    cbn. rewrite IH. do 2 f_equal. lia.
Qed.

Lemma half_second (i : Q) :
  i == 0.5 ->
  validInterval i = true /\ Js.Math_round (i / binSize) = 10%Z.
Proof.
  intros Hi. split.
  - apply validInterval_true. unfold minInterval, maxInterval. lra.
  - unfold Js.Math_round.
    transitivity (Qfloor (0.5 / binSize + (1 # 2))); [|reflexivity].
    apply Qfloor_comp. rewrite Hi. reflexivity.
Qed.

(** C8. Onsets exactly half a second apart, four or more of them, make
    [estimateBPM] return 120; and whatever the recorded onsets are,
    [estimateBPM] returns a value between 60 and 180, its two folding loops
    stopping within one round each. *)
Theorem tempo_estimation :
  (forall fuel times,
     (1 <= fuel)%nat -> (4 <= length times)%nat ->
     Forall (fun i => i == 0.5) (intervalsOf times) ->
     estimateBPM fuel (addOnsets times new) = Some 120) /\
  (forall fuel onsetTimes,
     (2 <= fuel)%nat ->
     exists bpm, estimateBPM fuel onsetTimes = Some bpm /\ 60 <= bpm <= 180).
Proof.
  split.
  - intros fuel times Hfuel Hlen Hsp. rewrite addOnsets_spec.
    assert (Hmax : maxOnsets = 100%nat) by reflexivity.
    unfold estimateBPM.
    destruct (Nat.ltb_spec (length (drop (length times - maxOnsets) times)) 4)
      as [Hshort|_]; [rewrite length_drop in Hshort; lia|].
    rewrite intervalsOf_drop.
    assert (Hsp' : Forall (fun i => i == 0.5)
                     (drop (length times - maxOnsets) (intervalsOf times)))
      by apply Forall_drop, Hsp.
    assert (Hn : (3 <= length (drop (length times - maxOnsets)
                                 (intervalsOf times)))%nat)
      by (rewrite length_drop, length_intervalsOf; lia).
    destruct (drop (length times - maxOnsets) (intervalsOf times))
      as [|i rest]; [cbn [length] in Hn; lia|].
    rewrite filter_all
      by (eapply Forall_impl; [exact Hsp'|]; intros j Hj;
          apply (half_second j Hj)).
    inversion Hsp' as [|? ? Hi Hrest]; subst.
    cbn [length Nat.eqb fold_left].
    unfold countBin at 2. rewrite (proj2 (half_second i Hi)).
    cbn [Js.Map.get find option_map Js.Map.set Js.Map.has existsb app].
    rewrite uniform_histogram
      by (eapply Forall_impl; [exact Hrest|]; intros j Hj;
          apply (half_second j Hj)).
    cbn [fold_left pickDominant].
    destruct (Z.gtb_spec (0 + 1 + Z.of_nat (length rest)) 0); [|lia].
    destruct fuel as [|fuel]; [lia|]. reflexivity.
  - intros fuel onsetTimes Hfuel. unfold estimateBPM.
    destruct (length onsetTimes <? 4)%nat.
    { exists 120. split; [reflexivity | lra]. }
    pose proof (filter_valid (intervalsOf onsetTimes)) as Hvalid.
    destruct (Nat.eqb_spec
                (length (List.filter validInterval (intervalsOf onsetTimes))) 0)
      as [Hnone|Hsome].
    { exists 120. split; [reflexivity | lra]. }
    destruct (histogram_plausible _ [] Hvalid) as [Hh Hne]; [constructor|].
    assert (Hne' : fold_left countBin
                     (List.filter validInterval (intervalsOf onsetTimes)) []
                   <> []).
    { apply Hne. intros Hnil. rewrite Hnil in Hsome. apply Hsome. reflexivity. }
    pose proof (pickDominant_first _ Hh Hne') as Hbest.
    destruct (fold_left pickDominant _ (0, 0)%Z) as [maxCount dominantBin].
    destruct Hbest as [Hbin _]. cbn [fst snd] in Hbin.
    destruct (fold_up fuel _ Hfuel (bpm_of_bin dominantBin Hbin))
      as (bpm1 & -> & H1).
    destruct (fold_down fuel bpm1 Hfuel H1) as (bpm2 & -> & H2).
    eexists. split; [reflexivity|]. apply round_in_range, H2.
Qed.

End BeatDetectorFacts.

(** ** The quantizer *)

Module NoteQuantizerFacts.

Import NoteQuantizer JsFacts.
Local Open Scope Q_scope.

(** *** Loops *)

Lemma while_loop_terminates {S : Type} (cond : S -> bool) (body : S -> S)
    (measure : S -> nat) :
  (forall s, cond s = true -> (measure (body s) < measure s)%nat) ->
  forall s fuel, (measure s < fuel)%nat ->
    exists r, Js.while_loop fuel cond body s = Some r.
Proof.
  intros Hdec s fuel. revert s.
  induction fuel as [|fuel IH]; intros s Hs; [lia|].
  cbn [Js.while_loop]. destruct (cond s) eqn:Hc.
  - apply IH. specialize (Hdec s Hc). lia.
  - exists s. reflexivity.
Qed.

Lemma while_loop_invariant {S : Type} (inv : S -> Prop) (cond : S -> bool)
    (body : S -> S) :
  (forall s, inv s -> cond s = true -> inv (body s)) ->
  forall fuel s r,
    Js.while_loop fuel cond body s = Some r -> inv s ->
    inv r /\ cond r = false.
Proof.
  intros Hstep fuel. induction fuel as [|fuel IH]; intros s r Hrun Hs.
  - discriminate.
  - cbn [Js.while_loop] in Hrun. destruct (cond s) eqn:Hc.
    + apply (IH (body s)); [exact Hrun | apply Hstep; assumption].
    + injection Hrun as <-. split; assumption.
Qed.

(** *** The ladder *)

Lemma getDurationBeats_min (ty : NoteDurationType) :
  0.0625 <= getDurationBeats ty.
Proof. destruct ty; vm_compute; discriminate. Qed.

Lemma matchedBeats_min (m : DurationMatch) : 0.0625 <= matchedBeats m.
Proof.
  unfold matchedBeats, DOTTED_MULTIPLIER.
  pose proof (getDurationBeats_min (matchType m)).
  destruct (matchDotted m); lra.
Qed.

Lemma getDurationBeats_grid (e : GridEntry) :
  In e DURATION_GRID -> getDurationBeats (type e) = beats e.
Proof.
  unfold DURATION_GRID. cbn [In].
  intros [<-|[<-|[<-|[<-|[<-|[<-|[<-|[]]]]]]]]; reflexivity.
Qed.

Lemma closer_grid (d : Q) (l : list GridEntry) (best : GridEntry * Q) :
  Forall (fun e => In e DURATION_GRID) l ->
  In (fst best) DURATION_GRID ->
  In (fst (fold_left (closer d) l best)) DURATION_GRID.
Proof.
  intros Hl. revert best. induction Hl as [|e l He _ IH]; intros best Hb.
  - exact Hb.
  - cbn [fold_left]. apply IH. destruct best as [bestFit minDiff].
    unfold closer. repeat (qcase; cbn [fst]); assumption.
Qed.

Lemma grid_in_grid : Forall (fun e => In e DURATION_GRID) DURATION_GRID.
Proof. apply Forall_forall. intros e He. apply list_elem_of_In, He. Qed.

(** What [findDurationType] hands to its callers: either a remainder
    above the grid unit next to a plain ladder value below the duration,
    or no remainder and a value not more than a grid unit short of it. *)
Lemma findDurationType_fit (cfg : QuantizerConfig.t) (d : Q) :
  0 < QuantizerConfig.minQuantization cfg ->
  let m := findDurationType cfg d in
  if Js.gtb (remainderBeats m) 0
  then matchDotted m = false /\
       remainderBeats m = d - matchedBeats m /\
       QuantizerConfig.minQuantization cfg < remainderBeats m
  else d - QuantizerConfig.minQuantization cfg <= matchedBeats m.
Proof.
  intros Hq. unfold findDurationType. cbv zeta.
  destruct (find (fun e => Js.ltb (Js.Math_abs (d - beats e))
                             (QuantizerConfig.minQuantization cfg * 0.5))
              DURATION_GRID) as [e|] eqn:Hplain.
  { apply find_some in Hplain as [Hin Hlt]. apply ltb_true in Hlt.
    cbn [remainderBeats matchedBeats matchDotted matchType].
    change (Js.gtb 0 0) with false. cbv iota.
    rewrite (getDurationBeats_grid e Hin).
    unfold Js.Math_abs in Hlt. apply Qabs_Qlt_condition in Hlt. lra. }
  clear Hplain.
  destruct (find _ DURATION_GRID) as [e|] eqn:Hdotted.
  { apply find_some in Hdotted as [Hin Hlt]. apply ltb_true in Hlt.
    cbn [remainderBeats matchedBeats matchDotted matchType].
    change (Js.gtb 0 0) with false. cbv iota.
    rewrite (getDurationBeats_grid e Hin).
    unfold Js.Math_abs in Hlt. apply Qabs_Qlt_condition in Hlt. lra. }
  pose proof (closer_grid d DURATION_GRID
                (hd (entry whole 4) DURATION_GRID,
                 Js.Math_abs (d - beats (hd (entry whole 4) DURATION_GRID)))
                grid_in_grid) as Hin.
  destruct (fold_left (closer d) DURATION_GRID _) as [bestFit minDiff].
  cbn [fst] in Hin. specialize (Hin ltac:(left; reflexivity)).
  cbn [remainderBeats matchedBeats matchDotted matchType].
  rewrite (getDurationBeats_grid bestFit Hin).
  destruct (Js.gtb (d - beats bestFit) (QuantizerConfig.minQuantization cfg))
    eqn:Hover.
  - apply gtb_true in Hover. qcase; [|lra].
    repeat split. exact Hover.
  - apply gtb_false in Hover. change (Js.gtb 0 0) with false. cbv iota. lra.
Qed.

(** *** The closest fit *)

Lemma Qabs_cases (x : Q) :
  (0 <= x /\ Qabs x == x) \/ (x < 0 /\ Qabs x == - x).
Proof.
  destruct (Qlt_le_dec x 0) as [Hneg|Hpos]; [right | left].
  - split; [exact Hneg | apply Qabs_neg; lra].
  - split; [exact Hpos | apply Qabs_pos, Hpos].
Qed.

Lemma distance_le_plain (d : Q) (e : GridEntry) :
  distance d e <= Js.Math_abs (d - beats e).
Proof. unfold distance, Js.Math_min. qcase; lra. Qed.

Lemma distance_le_dotted (d : Q) (e : GridEntry) :
  distance d e <= Js.Math_abs (d - beats e * DOTTED_MULTIPLIER).
Proof. unfold distance, Js.Math_min. qcase; lra. Qed.

Lemma distance_cases (d : Q) (e : GridEntry) :
  distance d e = Js.Math_abs (d - beats e) \/
  distance d e = Js.Math_abs (d - beats e * DOTTED_MULTIPLIER).
Proof. unfold distance, Js.Math_min. destruct (Js.leb _ _); auto. Qed.

(** One round of the loop keeps the running minimum a minimum. *)
Lemma closer_step (d : Q) (best : GridEntry) (minDiff : Q) (e : GridEntry) :
  distance d best <= minDiff ->
  let r := closer d (best, minDiff) e in
  distance d (fst r) <= snd r /\ snd r <= minDiff /\
  snd r <= distance d e /\ (fst r = best \/ fst r = e).
Proof.
  intros Hbest. unfold closer. cbv zeta.
  pose proof (distance_le_plain d e) as Hplain.
  pose proof (distance_le_dotted d e) as Hdotted.
  assert (Hmin : forall x,
            x <= Js.Math_abs (d - beats e) ->
            x <= Js.Math_abs (d - beats e * DOTTED_MULTIPLIER) ->
            x <= distance d e).
  { intros x H1 H2. destruct (distance_cases d e) as [-> | ->]; assumption. }
  repeat (qcase; cbn [fst snd]);
    (split; [|split; [|split]]); try lra; auto; apply Hmin; lra.
Qed.

Lemma closer_fold (d : Q) (l : list GridEntry) (best : GridEntry)
    (minDiff : Q) :
  distance d best <= minDiff ->
  let r := fold_left (closer d) l (best, minDiff) in
  distance d (fst r) <= snd r /\ snd r <= minDiff /\
  Forall (fun e => snd r <= distance d e) l.
Proof.
  revert best minDiff. induction l as [|e l IH]; intros best minDiff Hbest.
  - cbn [fold_left fst snd]. split; [exact Hbest|]. split; [lra|constructor].
  - cbn [fold_left].
    destruct (closer_step d best minDiff e Hbest) as (H1 & H2 & H3 & _).
    destruct (closer d (best, minDiff) e) as [best1 minDiff1].
    cbn [fst snd] in H1, H2, H3.
    destruct (IH best1 minDiff1 H1) as (IH1 & IH2 & IH3).
    cbv zeta in IH1, IH2, IH3 |- *.
    split; [exact IH1|]. split; [lra|].
    constructor; [lra | exact IH3].
Qed.

(** [findDurationType], case by case: an exact match of a plain value,
    else an exact match of a dotted value, else the nearest rung, taken
    plain, with what is left over when that is more than a grid unit. *)
Lemma findDurationType_cases (cfg : QuantizerConfig.t) (d : Q) :
  let q := QuantizerConfig.minQuantization cfg in
  (exists e, In e DURATION_GRID /\
     Qabs (d - beats e) < q * (1 # 2) /\
     findDurationType cfg d = mkMatch (type e) false 0) \/
  (exists e, In e DURATION_GRID /\
     Qabs (d - beats e * DOTTED_MULTIPLIER) < q * (1 # 2) /\
     findDurationType cfg d = mkMatch (type e) true 0) \/
  (exists e, nearest d e /\
     findDurationType cfg d
     = mkMatch (type e) false
         (if Js.gtb (d - beats e) q then d - beats e else 0)).
Proof.
  intros q. subst q. unfold findDurationType. cbv zeta.
  destruct (find (fun e => Js.ltb (Js.Math_abs (d - beats e))
                             (QuantizerConfig.minQuantization cfg * 0.5))
              DURATION_GRID) as [e|] eqn:Hplain.
  { apply find_some in Hplain as [Hin Hlt]. apply ltb_true in Hlt.
    left. exists e. split; [exact Hin|]. split; [|reflexivity].
    unfold Js.Math_abs in Hlt. lra. }
  clear Hplain. right.
  destruct (find _ DURATION_GRID) as [e|] eqn:Hdotted.
  { apply find_some in Hdotted as [Hin Hlt]. apply ltb_true in Hlt.
    left. exists e. split; [exact Hin|]. split; [|reflexivity].
    unfold Js.Math_abs in Hlt. lra. }
  clear Hdotted. right.
  set (first := hd (entry whole 4) DURATION_GRID).
  pose proof (closer_grid d DURATION_GRID
                (first, Js.Math_abs (d - beats first)) grid_in_grid) as Hin.
  pose proof (closer_fold d DURATION_GRID first
                (Js.Math_abs (d - beats first))
                (distance_le_plain d first)) as Hfold.
  cbv zeta in Hfold.
  destruct (fold_left (closer d) DURATION_GRID _) as [bestFit minDiff].
  cbn [fst snd] in Hin, Hfold. specialize (Hin ltac:(left; reflexivity)).
  destruct Hfold as (Hbest & _ & Hall).
  exists bestFit. split; [|reflexivity].
  split; [exact Hin|]. intros e' He'.
  rewrite Forall_forall in Hall.
  specialize (Hall e' (proj2 (list_elem_of_In _ _) He')). cbn beta in Hall.
  lra.
Qed.

(** The nearest rung is never more than half a beat above the duration:
    between a rung and the dotted rung below it there is no room for
    more. *)
Lemma nearest_overshoot (d : Q) (e : GridEntry) :
  0 < d -> nearest d e -> beats e - d <= 1 # 2.
Proof.
  intros Hd [Hin Hmin]. revert Hmin. unfold DURATION_GRID in Hin.
  cbn [In] in Hin.
  assert (Hbelow : forall e below : GridEntry,
            distance d e <= distance d below ->
            beats e == 2 * beats below -> beats e <= 4 ->
            beats e - d <= 1 # 2).
  { intros e0 below Hle Hdouble Hmax.
    pose proof (distance_le_dotted d below) as Hd1.
    unfold Js.Math_abs, DOTTED_MULTIPLIER in Hd1.
    destruct (Qabs_cases (d - beats below * 1.5)) as [[? ?]|[? ?]];
      destruct (distance_cases d e0) as [Hc|Hc]; rewrite Hc in Hle;
      unfold Js.Math_abs, DOTTED_MULTIPLIER in Hle;
      [destruct (Qabs_cases (d - beats e0)) as [[? ?]|[? ?]]
      |destruct (Qabs_cases (d - beats e0 * 1.5)) as [[? ?]|[? ?]]
      |destruct (Qabs_cases (d - beats e0)) as [[? ?]|[? ?]]
      |destruct (Qabs_cases (d - beats e0 * 1.5)) as [[? ?]|[? ?]]];
      lra. }
  destruct Hin as [<-|[<-|[<-|[<-|[<-|[<-|[<-|[]]]]]]]]; intros Hmin;
    cbn [beats]; try lra.
  - apply (Hbelow (entry whole 4) (entry half 2)); cbn [beats]; try lra.
    apply Hmin. cbn. tauto.
  - apply (Hbelow (entry half 2) (entry quarter 1)); cbn [beats]; try lra.
    apply Hmin. cbn. tauto.
  - apply (Hbelow (entry quarter 1) (entry eighth 0.5)); cbn [beats]; try lra.
    apply Hmin. cbn. tauto.
Qed.

(** *** The loop of [createTiedNotes] *)

Lemma inject_Z_pred (c : Z) : inject_Z (c - 1) == inject_Z c - 1.
Proof.
  unfold Z.sub. rewrite inject_Z_plus, inject_Z_opp. reflexivity.
Qed.

Lemma tie_decreases cfg pitch velocity (st : TieState) :
  tieCond cfg st = true ->
  (tieMeasure cfg (tieBody cfg pitch velocity st) < tieMeasure cfg st)%nat.
Proof.
  destruct st as [[notes beat] remaining].
  unfold tieCond, tieBody, tieMeasure. intros Hc. apply gtb_true in Hc.
  pose proof (matchedBeats_min (findDurationType cfg remaining)) as Hd.
  set (dur := matchedBeats (findDurationType cfg remaining)) in *.
  set (q := QuantizerConfig.minQuantization cfg) in *.
  pose proof (Qle_ceiling ((remaining - q) * 16)) as Hx.
  pose proof (Qceiling_lt ((remaining - dur - q) * 16)) as Hx'.
  rewrite inject_Z_pred in Hx'.
  assert (H0 : inject_Z 0 < inject_Z (Qceiling ((remaining - q) * 16)))
    by (change (inject_Z 0) with 0; lra).
  assert (H1 : inject_Z (Qceiling ((remaining - dur - q) * 16))
               < inject_Z (Qceiling ((remaining - q) * 16))) by lra.
  rewrite <- Zlt_Qlt in H0, H1. lia.
Qed.

Lemma createTiedNotes_total cfg pitch startBeat remainingBeats velocity :
  exists fuel0, forall fuel, (fuel0 <= fuel)%nat ->
    exists notes,
      createTiedNotes cfg fuel pitch startBeat remainingBeats velocity
      = Some notes.
Proof.
  exists (S (tieMeasure cfg ([], startBeat, remainingBeats))).
  intros fuel Hfuel. unfold createTiedNotes.
  destruct (while_loop_terminates (tieCond cfg) (tieBody cfg pitch velocity)
              (tieMeasure cfg) (tie_decreases cfg pitch velocity)
              ([], startBeat, remainingBeats) fuel) as [r ->]; [lia|].
  eexists. reflexivity.
Qed.

Lemma chainBeats_snoc notes n :
  chainBeats (notes ++ [n]) == chainBeats notes + QuantizedNote.durationBeats n.
Proof.
  induction notes as [|x notes IH]; cbn [app chainBeats fold_right].
  - lra.
  - unfold chainBeats in IH. rewrite IH. lra.
Qed.

(** The continuation notes cover the remainder, up to a rest of at most
    one grid unit that the loop leaves behind. *)
Lemma createTiedNotes_sum cfg fuel pitch startBeat remainingBeats velocity
    notes :
  0 < QuantizerConfig.minQuantization cfg ->
  0 < remainingBeats ->
  createTiedNotes cfg fuel pitch startBeat remainingBeats velocity
  = Some notes ->
  remainingBeats - QuantizerConfig.minQuantization cfg <= chainBeats notes
  /\ chainBeats notes <= remainingBeats.
Proof.
  intros Hq Hr. unfold createTiedNotes.
  destruct (Js.while_loop fuel _ _ _) as [[[out beat] remaining]|] eqn:Hrun;
    [|discriminate].
  cbn [option_map fst]. intros [= <-].
  apply (while_loop_invariant
           (fun st : TieState =>
              let '(notes, _, remaining) := st in
              (0 < remaining /\ chainBeats notes + remaining == remainingBeats)
              \/ (remaining <= 0 /\ chainBeats notes == remainingBeats)))
    in Hrun.
  - destruct Hrun as [Hinv Hexit]. unfold tieCond in Hexit.
    apply gtb_false in Hexit. destruct Hinv as [[? ?]|[? ?]]; lra.
  - intros [[ns b] rem] Hinv Hc. unfold tieCond in Hc. apply gtb_true in Hc.
    unfold tieBody.
    pose proof (matchedBeats_min (findDurationType cfg rem)) as Hd.
    set (dur := matchedBeats (findDurationType cfg rem)) in *.
    pose proof (chainBeats_snoc ns
      {| QuantizedNote.pitch := pitch;
         QuantizedNote.startBeat := b;
         QuantizedNote.durationBeats := Js.Math_min dur rem;
         QuantizedNote.durationType := matchType (findDurationType cfg rem);
         QuantizedNote.isDotted := matchDotted (findDurationType cfg rem);
         QuantizedNote.velocity := velocity;
         QuantizedNote.tieToNext :=
           Js.gtb (rem - dur) (QuantizerConfig.minQuantization cfg) |})
      as Hsum.
    cbn [QuantizedNote.durationBeats] in Hsum.
    set (total := chainBeats (ns ++ [_])) in *.
    destruct Hinv as [[Hpos Heq]|[Hneg _]]; [|lra].
    unfold Js.Math_min in Hsum.
    destruct (Js.leb dur rem) eqn:Hle;
      [apply leb_true in Hle | apply leb_false in Hle].
    + destruct (Qlt_le_dec 0 (rem - dur)); [left | right]; split; lra.
    + right. split; lra.
  - left. cbn [chainBeats fold_right]. split; lra.
Qed.

(** *** [quantizeNote] *)

Lemma quantizeWith_total cfg note :
  exists fuel0, forall fuel, (fuel0 <= fuel)%nat ->
    exists chain, quantizeWith cfg fuel note = Some chain.
Proof.
  unfold quantizeWith. cbv zeta.
  destruct (Js.gtb (remainderBeats (findDurationType cfg (clampedDuration cfg note))) 0).
  - destruct (createTiedNotes_total cfg (DetectedNote.pitch note)
                (snapToGrid cfg (timeToBeat cfg (DetectedNote.startTime note))
                 + matchedBeats
                     (findDurationType cfg (clampedDuration cfg note)))
                (remainderBeats (findDurationType cfg (clampedDuration cfg note)))
                (DetectedNote.velocity note)) as [fuel0 H].
    exists fuel0. intros fuel Hfuel. cbn [QuantizedNote.durationBeats].
    destruct (H fuel Hfuel) as [notes ->]. eexists. reflexivity.
  - exists 0%nat. intros fuel _. eexists. reflexivity.
Qed.

Lemma quantizeWith_sum cfg fuel note chain :
  0 < QuantizerConfig.minQuantization cfg ->
  quantizeWith cfg fuel note = Some chain ->
  clampedDuration cfg note - QuantizerConfig.minQuantization cfg
  <= chainBeats chain /\
  (tied chain -> chainBeats chain <= clampedDuration cfg note).
Proof.
  intros Hq. unfold quantizeWith. cbv zeta.
  pose proof (findDurationType_fit cfg (clampedDuration cfg note) Hq) as Hfit.
  cbv zeta in Hfit.
  set (m := findDurationType cfg (clampedDuration cfg note)) in *.
  cbn [QuantizedNote.durationBeats].
  destruct (Js.gtb (remainderBeats m) 0) eqn:Htie.
  - destruct Hfit as (_ & Hrem & Hover).
    destruct (createTiedNotes cfg fuel _ _ _ _) as [notes|] eqn:Hrun;
      [|discriminate].
    cbn [option_map]. intros [= <-].
    apply createTiedNotes_sum in Hrun; [|exact Hq|lra].
    cbn [chainBeats fold_right QuantizedNote.durationBeats].
    fold (chainBeats notes). rewrite Hrem in Hrun. split; [lra|]. intros _. lra.
  - intros [= <-].
    cbn [chainBeats fold_right QuantizedNote.durationBeats].
    split; [lra|]. intros (head & rest & [= <- _] & Hhead).
    cbn [QuantizedNote.tieToNext] in Hhead. congruence.
Qed.

Lemma clampedDuration_min cfg note :
  QuantizerConfig.minQuantization cfg <= clampedDuration cfg note.
Proof. unfold clampedDuration, Js.Math_max. cbv zeta. qcase; lra. Qed.

Lemma quantizeWith_shape cfg fuel note chain :
  quantizeWith cfg fuel note = Some chain ->
  let m := findDurationType cfg (clampedDuration cfg note) in
  exists head rest,
    chain = head :: rest /\
    QuantizedNote.durationBeats head = matchedBeats m /\
    QuantizedNote.durationType head = matchType m /\
    QuantizedNote.isDotted head = matchDotted m /\
    QuantizedNote.tieToNext head = Js.gtb (remainderBeats m) 0 /\
    (QuantizedNote.tieToNext head = false -> rest = []).
Proof.
  unfold quantizeWith. cbv zeta.
  set (m := findDurationType cfg (clampedDuration cfg note)).
  destruct (Js.gtb (remainderBeats m) 0).
  - destruct (createTiedNotes cfg fuel _ _ _ _) as [notes|]; [|discriminate].
    cbn [option_map]. intros [= <-]. eexists _, notes.
    cbn [QuantizedNote.durationBeats QuantizedNote.durationType
         QuantizedNote.isDotted QuantizedNote.tieToNext].
    do 5 (split; [reflexivity|]). discriminate.
  - intros [= <-]. eexists _, [].
    cbn [QuantizedNote.durationBeats QuantizedNote.durationType
         QuantizedNote.isDotted QuantizedNote.tieToNext].
    do 5 (split; [reflexivity|]). reflexivity.
Qed.

(** The head of the chain is an exact match or the nearest rung, and the
    chain never runs over by more than half a beat, or half a grid unit
    should that be more. *)
Lemma quantizeWith_head cfg fuel note chain :
  0 < QuantizerConfig.minQuantization cfg ->
  quantizeWith cfg fuel note = Some chain ->
  chainBeats chain
  <= clampedDuration cfg note
     + Qmax (1 # 2) (QuantizerConfig.minQuantization cfg * (1 # 2)) /\
  exists head rest,
    chain = head :: rest /\
    (Qabs (clampedDuration cfg note - QuantizedNote.durationBeats head)
     < QuantizerConfig.minQuantization cfg * (1 # 2) \/
     exists e,
       nearest (clampedDuration cfg note) e /\
       QuantizedNote.durationType head = type e /\
       QuantizedNote.isDotted head = false /\
       QuantizedNote.durationBeats head = beats e).
Proof.
  intros Hq Hchain.
  pose proof (clampedDuration_min cfg note) as Hd.
  destruct (quantizeWith_sum cfg fuel note chain Hq Hchain) as [_ Htied].
  destruct (quantizeWith_shape cfg fuel note chain Hchain)
    as (head & rest & -> & Hbeats & Htype & Hdotted & Htie & Hrest).
  cbv zeta in Hbeats, Htype, Hdotted, Htie.
  set (d := clampedDuration cfg note) in *.
  set (q := QuantizerConfig.minQuantization cfg) in *.
  pose proof (Q.le_max_l (1 # 2) (q * (1 # 2))) as Hmax1.
  pose proof (Q.le_max_r (1 # 2) (q * (1 # 2))) as Hmax2.
  set (slack := Qmax (1 # 2) (q * (1 # 2))) in *.
  assert (Hfit :
    Qabs (d - QuantizedNote.durationBeats head) < q * (1 # 2) \/
    exists e,
      nearest d e /\
      QuantizedNote.durationType head = type e /\
      QuantizedNote.isDotted head = false /\
      QuantizedNote.durationBeats head = beats e).
  { rewrite Hbeats, Htype, Hdotted.
    destruct (findDurationType_cases cfg d)
      as [(e & Hin & Hnear & ->)|[(e & Hin & Hnear & ->)|(e & Hnear & ->)]];
      unfold matchedBeats; cbn [matchType matchDotted].
    - left. rewrite (getDurationBeats_grid e Hin). exact Hnear.
    - left. rewrite (getDurationBeats_grid e Hin). exact Hnear.
    - right. exists e. rewrite (getDurationBeats_grid e (proj1 Hnear)).
      repeat split; apply Hnear. }
  split; [|exists head, rest; split; [reflexivity | exact Hfit]].
  destruct (QuantizedNote.tieToNext head) eqn:Hhead.
  - assert (chainBeats (head :: rest) <= d)
      by (apply Htied; exists head, rest; split; [reflexivity | exact Hhead]).
    lra.
  - rewrite (Hrest eq_refl). cbn [chainBeats fold_right].
    destruct Hfit as [Hexact|(e & Hnear & _ & _ & ->)].
    + destruct (Qabs_cases (d - QuantizedNote.durationBeats head))
        as [[? ?]|[? ?]]; lra.
    + pose proof (nearest_overshoot d e ltac:(lra) Hnear). lra.
Qed.

Lemma quantizeNote_unfold fuel note q :
  quantizeNote fuel note q
  = option_map
      (fun notes => (notes, addOnset (DetectedNote.startTime note) q))
      (quantizeWith (config q) fuel note).
Proof. reflexivity. Qed.

(** *** [quantizeNotes] *)

Lemma quantizeEach_config fuel sorted q out q1 :
  quantizeEach fuel sorted q = Some (out, q1) -> config q1 = config q.
Proof.
  revert q out. induction sorted as [|note rest IH]; intros q out.
  - cbn [quantizeEach]. intros [= _ <-]. reflexivity.
  - cbn [quantizeEach]. rewrite quantizeNote_unfold.
    destruct (quantizeWith (config q) fuel note) as [notes|]; [|discriminate].
    cbn [option_map].
    destruct (quantizeEach fuel rest _) as [[more q2]|] eqn:Hrest;
      [|discriminate].
    intros [= _ <-]. apply IH in Hrest. exact Hrest.
Qed.

(** The notes depend on the configuration, not on the recorded onsets. *)
Lemma quantizeEach_pure fuel sorted q q' :
  config q = config q' ->
  option_map fst (quantizeEach fuel sorted q)
  = option_map fst (quantizeEach fuel sorted q').
Proof.
  revert q q'. induction sorted as [|note rest IH]; intros q q' Hcfg.
  - reflexivity.
  - cbn [quantizeEach]. rewrite !quantizeNote_unfold, Hcfg.
    destruct (quantizeWith (config q') fuel note) as [notes|]; [|reflexivity].
    cbn [option_map].
    specialize (IH (addOnset (DetectedNote.startTime note) q)
                   (addOnset (DetectedNote.startTime note) q') Hcfg).
    destruct (quantizeEach fuel rest (addOnset _ q)) as [[more q2]|];
      destruct (quantizeEach fuel rest (addOnset _ q')) as [[more' q2']|];
      cbn [option_map fst] in *; congruence.
Qed.

Lemma quantizeEach_total sorted q :
  exists fuel0, forall fuel, (fuel0 <= fuel)%nat ->
    exists out q1, quantizeEach fuel sorted q = Some (out, q1).
Proof.
  revert q. induction sorted as [|note rest IH]; intros q.
  - exists 0%nat. intros fuel _. exists [], q. reflexivity.
  - destruct (quantizeWith_total (config q) note) as [fuel1 H1].
    destruct (IH (addOnset (DetectedNote.startTime note) q)) as [fuel2 H2].
    exists (Nat.max fuel1 fuel2). intros fuel Hfuel.
    destruct (H1 fuel) as [notes Hnotes]; [lia|].
    destruct (H2 fuel) as (more & q2 & Hmore); [lia|].
    cbn [quantizeEach]. rewrite quantizeNote_unfold, Hnotes.
    cbn [option_map]. rewrite Hmore. eexists _, _. reflexivity.
Qed.

(** C7, as the code has it.  With a positive grid unit, [quantizeNote]
    returns a chain whose [durationBeats] add up to no less than the
    quantized duration of the note less one grid unit, and to no more
    than the quantized duration plus half a beat (half a grid unit,
    should that be more); when the head is tied to a continuation they
    add up to no more than the quantized duration.  The head of the chain
    is within half a grid unit of the quantized duration, or else it is
    the plain value of the rung of the ladder that is nearest to the
    quantized duration, its dotted value counted.  Two and a half seconds
    at 120 beats per minute, five beats, become a whole note tied to a
    quarter note: five beats exactly. *)
Theorem tie_chain_sum :
  (forall note q,
     0 < QuantizerConfig.minQuantization (config q) ->
     exists fuel0, forall fuel, (fuel0 <= fuel)%nat ->
       exists chain q1,
         quantizeNote fuel note q = Some (chain, q1) /\
         clampedDuration (config q) note
         - QuantizerConfig.minQuantization (config q) <= chainBeats chain /\
         chainBeats chain
         <= clampedDuration (config q) note
            + Qmax (1 # 2)
                (QuantizerConfig.minQuantization (config q) * (1 # 2)) /\
         (tied chain -> chainBeats chain <= clampedDuration (config q) note)
         /\
         exists head rest,
           chain = head :: rest /\
           (Qabs (clampedDuration (config q) note
                  - QuantizedNote.durationBeats head)
            < QuantizerConfig.minQuantization (config q) * (1 # 2) \/
            exists e,
              nearest (clampedDuration (config q) note) e /\
              QuantizedNote.durationType head = type e /\
              QuantizedNote.isDotted head = false /\
              QuantizedNote.durationBeats head = beats e))
  /\
  (clampedDuration DEFAULT_CONFIG Examples.fiveBeats == 5 /\
   exists head next q1,
     quantizeNote 2 Examples.fiveBeats Examples.quantizer
     = Some ([head; next], q1) /\
     QuantizedNote.durationType head = whole /\
     QuantizedNote.tieToNext head = true /\
     QuantizedNote.durationType next = quarter /\
     QuantizedNote.tieToNext next = false /\
     chainBeats [head; next] == 5).
Proof.
  split.
  - intros note q Hq.
    destruct (quantizeWith_total (config q) note) as [fuel0 H].
    exists fuel0. intros fuel Hfuel. destruct (H fuel Hfuel) as [chain Hchain].
    exists chain, (addOnset (DetectedNote.startTime note) q).
    rewrite quantizeNote_unfold, Hchain. split; [reflexivity|].
    destruct (quantizeWith_sum (config q) fuel note chain Hq Hchain)
      as [Hlow Htied].
    destruct (quantizeWith_head (config q) fuel note chain Hq Hchain)
      as [Hhigh Hhead].
    split; [exact Hlow|]. split; [exact Hhigh|].
    split; [exact Htied | exact Hhead].
  - split; [reflexivity|].
    eexists _, _, _. split; [vm_compute; reflexivity|].
    repeat split.
Qed.

(** C9. Two [quantizeNotes] calls in a row on the same notes, the
    configuration untouched in between, both return, and return the same
    sequence; the first call changes the recorded onsets only. *)
Theorem quantizer_idempotence notes q :
  exists fuel0, forall fuel, (fuel0 <= fuel)%nat ->
    exists out q1 q2,
      quantizeNotes fuel notes q = Some (out, q1) /\
      quantizeNotes fuel notes q1 = Some (out, q2) /\
      config q1 = config q.
Proof.
  unfold quantizeNotes.
  destruct (quantizeEach_total (sortByStart notes) q) as [fuel0 H].
  exists fuel0. intros fuel Hfuel.
  destruct (H fuel Hfuel) as (out & q1 & Hfirst).
  pose proof (quantizeEach_config _ _ _ _ _ Hfirst) as Hcfg.
  pose proof (quantizeEach_pure fuel (sortByStart notes) q1 q Hcfg) as Hsame.
  rewrite Hfirst in Hsame. cbn [option_map fst] in Hsame.
  destruct (quantizeEach fuel (sortByStart notes) q1) as [[out' q2]|]
    eqn:Hsecond; [|discriminate].
  cbn [option_map fst] in Hsame. injection Hsame as ->.
  exists out, q1, q2. repeat split; assumption.
Qed.

End NoteQuantizerFacts.

(** ** More on the channel *)

Module ChannelFacts.

Import RingBuffer JsFacts RingBufferFacts.
Local Open Scope Z_scope.

Section Facts.

Context {A : Type}.
Variable nan : A.

Local Abbreviation contents := (contents nan).
Local Abbreviation buf := (@RingBuffer.t A).

Lemma pull_frame (output : list A) (rb : buf) :
  writeIndex (snd (pull nan output rb)) = writeIndex rb /\
  storage (snd (pull nan output rb)) = storage rb.
Proof.
  unfold pull. destruct (Z.min _ _ =? 0); split; reflexivity.
Qed.

Lemma skip_frame (count : Z) (rb : buf) :
  writeIndex (snd (skip count rb)) = writeIndex rb /\
  storage (snd (skip count rb)) = storage rb.
Proof.
  unfold skip. destruct (Z.min _ _ =? 0); split; reflexivity.
Qed.

(** X1. [pull] hands out the oldest unread samples first: it reports
    [min(availableRead(), output.length)], writes that many samples to the
    front of the output in the order they were pushed, leaves the rest of
    the output as it was, removes them from the channel and frees their
    slots; the write index and the storage are not touched. *)
Theorem pull_oldest_first (output : list A) (rb : buf) :
  wf rb ->
  let n := Z.min (availableRead rb) (len output) in
  let rb' := snd (pull nan output rb) in
  fst (pull nan output rb)
  = (n, take (Z.to_nat n) (contents rb) ++ drop (Z.to_nat n) output) /\
  contents rb' = drop (Z.to_nat n) (contents rb) /\
  availableWrite rb' = availableWrite rb + n /\
  writeIndex rb' = writeIndex rb /\ storage rb' = storage rb /\ wf rb'.
Proof.
  intros Hwf n rb'. subst rb'.
  destruct (pull_frame output rb) as [Hw Hs].
  destruct (pull_spec nan output rb Hwf) as (rb1 & Hpull & Hwf1 & Hcap & Hav & Hc).
  fold n in Hpull, Hav, Hc. rewrite Hpull in *. cbn [fst snd] in *.
  unfold availableWrite. rewrite Hcap, Hav.
  repeat split; try assumption; try lia; apply Hwf1.
Qed.

(** X2. [skip(count)] leaves the channel exactly as a [pull] into a
    buffer of [count] entries does, and reports the same number; it drops
    the [min(availableRead(), count)] oldest samples. *)
Theorem skip_is_pull_discarded (count : Z) (output : list A) (rb : buf) :
  wf rb -> len output = count ->
  skip count rb = (fst (fst (pull nan output rb)), snd (pull nan output rb)) /\
  contents (snd (skip count rb))
  = drop (Z.to_nat (Z.min (availableRead rb) count)) (contents rb).
Proof.
  intros Hwf Hlen. split.
  - unfold skip, pull. rewrite Hlen.
    destruct (Z.min (availableRead rb) count =? 0); reflexivity.
  - destruct (skip_spec nan count rb Hwf) as (rb1 & -> & _ & _ & _ & Hc).
    + rewrite <- Hlen. apply len_nonneg.
    + exact Hc.
Qed.

(** X3. Two pushes in a row store what one push of the two batches joined
    would store, and their counts add up to its count. *)
Theorem push_push (a b : list A) (rb : buf) :
  wf rb ->
  let first := push nan a rb in
  let second := push nan b (snd first) in
  let joined := push nan (a ++ b) rb in
  fst first + fst second = fst joined /\
  contents (snd second) = contents (snd joined) /\
  availableRead (snd second) = availableRead (snd joined).
Proof.
  intros Hwf first second joined. subst first second joined.
  pose proof (availableWrite_range rb Hwf) as Haw.
  destruct (push_spec nan a rb Hwf) as (rb1 & -> & Hwf1 & Hcap1 & Hav1 & Hc1).
  cbn [fst snd].
  destruct (push_spec nan b rb1 Hwf1) as (rb2 & -> & _ & _ & Hav2 & Hc2).
  destruct (push_spec nan (a ++ b) rb Hwf) as (rb3 & -> & _ & _ & Hav3 & Hc3).
  cbn [fst snd].
  assert (Haw1 : availableWrite rb1
                 = availableWrite rb - Z.min (availableWrite rb) (len a))
    by (unfold availableWrite in *; lia).
  assert (Hlen : len (a ++ b) = len a + len b)
    by (unfold len; rewrite length_app; lia).
  pose proof (len_nonneg a). pose proof (len_nonneg b).
  rewrite Haw1 in *. rewrite Hlen in *.
  assert (Hsum : Z.min (availableWrite rb) (len a)
                 + Z.min (availableWrite rb - Z.min (availableWrite rb) (len a))
                     (len b)
                 = Z.min (availableWrite rb) (len a + len b))
    by (clear - Haw H H0; lia).
  split; [exact Hsum|]. split; [|rewrite Hav2, Hav1, Hav3, <- Hsum; ring].
  rewrite Hc2, Hc1, Hc3, <- app_assoc. f_equal.
  rewrite take_app. unfold len in *.
  destruct (Z.le_gt_cases (Z.of_nat (length a)) (availableWrite rb))
    as [Hfit|Hover].
  - rewrite (take_ge a (Z.to_nat (Z.min _ (Z.of_nat (length a))))) by lia.
    rewrite (take_ge a) by lia. f_equal. f_equal. lia.
  - replace (Z.to_nat (Z.min (availableWrite rb
                               - Z.min (availableWrite rb)
                                   (Z.of_nat (length a)))
                         (Z.of_nat (length b)))) with 0%nat by lia.
    replace (Z.to_nat (Z.min (availableWrite rb)
                         (Z.of_nat (length a) + Z.of_nat (length b)))
             - length a)%nat with 0%nat by lia.
    cbn [take]. f_equal. f_equal. lia.
Qed.

Lemma contents_nil (rb : buf) :
  wf rb -> (contents rb = [] <-> availableRead rb = 0).
Proof.
  intros Hwf. pose proof (availableRead_range rb Hwf).
  pose proof (length_contents nan rb) as Hlen. split; intros H0.
  - rewrite H0 in Hlen. cbn [length] in Hlen. lia.
  - apply nil_length_inv. lia.
Qed.

Lemma wf_clear (rb : buf) :
  0 < capacity rb <= 2 ^ 31 -> wf (clear rb) /\ availableRead (clear rb) = 0.
Proof.
  intros Hc. unfold clear. rewrite to_int32_small by lia.
  split; [apply wf_intro; exact Hc || (unfold capacity in Hc; lia)|].
  reflexivity.
Qed.

(** X4. The channel is empty exactly when nothing is unread and full
    exactly when capacity - 1 samples are; a full channel takes nothing
    from a [push] and an empty one gives nothing to a [pull], both leaving
    everything as it was; [clear] makes any channel empty, with all of
    capacity - 1 slots free. *)
Theorem empty_and_full (rb : buf) :
  wf rb ->
  (isEmpty rb = true <-> contents rb = []) /\
  (isFull rb = true <-> length (contents rb) = Z.to_nat (capacity rb - 1)) /\
  (isFull rb = true -> forall data, push nan data rb = (0, rb)) /\
  (isEmpty rb = true -> forall output, pull nan output rb = (0, output, rb)) /\
  (isEmpty (clear rb) = true /\ wf (clear rb) /\
   availableWrite (clear rb) = capacity rb - 1).
Proof.
  intros Hwf. pose proof (availableRead_range rb Hwf) as Har.
  unfold isEmpty, isFull.
  split; [|split; [|split; [|split]]].
  - rewrite Z.eqb_eq. symmetry. apply contents_nil, Hwf.
  - rewrite Z.eqb_eq, length_contents. unfold availableWrite. lia.
  - intros Hfull data. apply Z.eqb_eq in Hfull. unfold push.
    rewrite Hfull. pose proof (len_nonneg data).
    rewrite Z.min_l by assumption. reflexivity.
  - intros Hempty output. apply Z.eqb_eq in Hempty. unfold pull.
    rewrite Hempty. pose proof (len_nonneg output).
    rewrite Z.min_l by assumption. reflexivity.
  - destruct (wf_clear rb (proj1 Hwf)) as [Hwfc Hz].
    unfold availableWrite. rewrite Hz. repeat split; try apply Hwfc.
    change (capacity (clear rb)) with (capacity rb). lia.
Qed.

(** X5. The health of a channel is the share of its capacity that is
    unread: never negative, always below one, zero exactly on an empty
    channel. *)
Theorem health_is_a_fraction (rb : buf) :
  wf rb ->
  (0 <= getHealth rb)%Q /\ (getHealth rb < 1)%Q /\
  (getHealth rb * inject_Z (capacity rb)
   == inject_Z (Z.of_nat (length (contents rb))))%Q /\
  ((getHealth rb == 0)%Q <-> isEmpty rb = true).
Proof.
  intros Hwf. pose proof (availableRead_range rb Hwf) as Har.
  destruct Hwf as (Hc & _ & _).
  assert (Hcq : (0 < inject_Z (capacity rb))%Q)
    by (change 0%Q with (inject_Z 0); rewrite <- Zlt_Qlt; lia).
  assert (Haq : (0 <= inject_Z (availableRead rb))%Q)
    by (change 0%Q with (inject_Z 0); rewrite <- Zle_Qle; lia).
  assert (Hlt : (inject_Z (availableRead rb) < inject_Z (capacity rb))%Q)
    by (rewrite <- Zlt_Qlt; lia).
  assert (Hmul : (getHealth rb * inject_Z (capacity rb)
                  == inject_Z (availableRead rb))%Q).
  { unfold getHealth. rewrite Qmult_comm. apply Qmult_div_r. lra. }
  split; [|split; [|split]].
  - unfold getHealth. apply Qle_shift_div_l; [exact Hcq | lra].
  - unfold getHealth. apply Qlt_shift_div_r; [exact Hcq | lra].
  - rewrite Hmul, length_contents, Z2Nat.id by lia. reflexivity.
  - unfold isEmpty. rewrite Z.eqb_eq. split; intros H0.
    + rewrite H0 in Hmul.
      assert (Hz : (inject_Z (availableRead rb) == inject_Z 0)%Q)
        by (change (inject_Z 0) with 0%Q; lra).
      apply (proj1 (inject_Z_injective _ _)) in Hz. exact Hz.
    + unfold getHealth. rewrite H0. reflexivity.
Qed.

(** X6. What the producer pushes never changes what the consumer sees of
    the samples already waiting: a [peek] that finds its whole output
    among the unread samples returns the same before and after a
    [push]. *)
Theorem push_keeps_window (data output : list A) (offset : Z) (rb : buf) :
  wf rb -> 0 <= offset -> offset + len output <= availableRead rb ->
  fst (peek nan output offset (snd (push nan data rb)))
  = fst (peek nan output offset rb).
Proof.
  intros Hwf Hoff Hfit.
  pose proof (availableWrite_range rb Hwf) as Haw.
  pose proof (len_nonneg output) as Hout. pose proof (len_nonneg data).
  destruct (push_spec nan data rb Hwf) as (rb1 & -> & Hwf1 & _ & Hav & Hc).
  cbn [snd].
  rewrite (peek_spec nan output offset rb1 Hwf1 Hoff),
          (peek_spec nan output offset rb Hwf Hoff).
  cbn [fst]. rewrite Hav, Hc.
  replace (Z.max 0 (Z.min (availableRead rb
                           + Z.min (availableWrite rb) (len data) - offset)
                          (len output))) with (len output) by lia.
  replace (Z.max 0 (Z.min (availableRead rb - offset) (len output)))
    with (len output) by lia.
  do 2 f_equal.
  rewrite drop_app_le by (rewrite length_contents; lia).
  apply take_app_le. rewrite length_drop, length_contents. unfold len in *. lia.
Qed.

End Facts.

End ChannelFacts.

(** ** The windowed reader *)

Module ReaderFacts.

Import RingBuffer JsFacts RingBufferFacts WindowedRingBufferReader.
Local Open Scope Z_scope.

Section Facts.

Context {A : Type}.
Variable nan : A.

Local Abbreviation contents := (RingBuffer.contents nan).
Local Abbreviation reader := (@WindowedRingBufferReader.t A).

(** A call with a whole window waiting: the window is the first
    [windowSize] unread samples, the channel moves on by the hop. *)
Lemma getNextWindow_some (r : reader) :
  ready r -> windowSize r <= availableRead (ringBuffer r) ->
  exists r',
    getNextWindow nan r
    = (Some (take (Z.to_nat (windowSize r)) (contents (ringBuffer r))), r') /\
    contents (ringBuffer r')
    = drop (Z.to_nat (hopSize r)) (contents (ringBuffer r)) /\
    availableRead (ringBuffer r')
    = availableRead (ringBuffer r)
      - Z.min (availableRead (ringBuffer r)) (hopSize r) /\
    samplesProcessed r' = samplesProcessed r + hopSize r /\
    windowSize r' = windowSize r /\ hopSize r' = hopSize r /\
    ready r'.
Proof.
  intros (Hwf & Hw & Hh & Hlen) Havail.
  pose proof (availableRead_range _ Hwf) as Har.
  unfold getNextWindow, hasWindow.
  destruct (Z.geb_spec (availableRead (ringBuffer r)) (windowSize r));
    [|lia]. cbn [negb].
  rewrite (peek_spec nan (windowBuffer r) 0 (ringBuffer r) Hwf) by lia.
  rewrite Hlen.
  replace (Z.max 0 (Z.min (availableRead (ringBuffer r) - 0) (windowSize r)))
    with (windowSize r) by lia.
  destruct (Z.ltb_spec (windowSize r) (windowSize r)); [lia|].
  destruct (skip_spec nan (hopSize r) (ringBuffer r) Hwf Hh)
    as (rb2 & -> & Hwf2 & _ & Hav2 & Hc2).
  rewrite (drop_ge (windowBuffer r)) by (unfold len in Hlen; lia).
  rewrite app_nil_r. change (Z.to_nat 0) with 0%nat. rewrite drop_0.
  eexists. split; [reflexivity|].
  cbn [ringBuffer windowSize hopSize windowBuffer samplesProcessed].
  assert (Hdrop : contents rb2
                  = drop (Z.to_nat (hopSize r)) (contents (ringBuffer r))).
  { rewrite Hc2.
    destruct (Z.le_gt_cases (hopSize r) (availableRead (ringBuffer r))).
    - rewrite Z.min_r by lia. reflexivity.
    - rewrite Z.min_l by lia.
      rewrite !drop_ge by (rewrite length_contents; lia). reflexivity. }
  split; [exact Hdrop|]. split; [exact Hav2|].
  split; [reflexivity|]. split; [reflexivity|]. split; [reflexivity|].
  unfold ready.
  cbn [ringBuffer windowSize hopSize windowBuffer samplesProcessed].
  split; [exact Hwf2|]. split; [exact Hw|]. split; [exact Hh|].
  unfold len. rewrite length_take, length_contents. lia.
Qed.

Lemma getNextWindow_none (r : reader) :
  availableRead (ringBuffer r) < windowSize r ->
  getNextWindow nan r = (None, r).
Proof.
  intros Hlt. unfold getNextWindow, hasWindow.
  destruct (Z.geb_spec (availableRead (ringBuffer r)) (windowSize r));
    [lia | reflexivity].
Qed.

(** X7. [getNextWindow] returns [null] and changes nothing while fewer
    than [windowSize] samples are unread.  Otherwise it returns the first
    [windowSize] unread samples, drops [hopSize] samples from the channel
    (all of them if fewer are unread) and advances its sample clock by
    [hopSize]. *)
Theorem getNextWindow_spec (r : reader) :
  ready r ->
  if availableRead (ringBuffer r) <? windowSize r
  then getNextWindow nan r = (None, r)
  else
    exists r',
      getNextWindow nan r
      = (Some (take (Z.to_nat (windowSize r)) (contents (ringBuffer r))), r')
      /\ contents (ringBuffer r')
         = drop (Z.to_nat (hopSize r)) (contents (ringBuffer r))
      /\ samplesProcessed r' = samplesProcessed r + hopSize r
      /\ ready r'.
Proof.
  intros Hready.
  destruct (Z.ltb_spec (availableRead (ringBuffer r)) (windowSize r))
    as [Hlt|Hge].
  - apply getNextWindow_none, Hlt.
  - destruct (getNextWindow_some r Hready Hge)
      as (r' & H1 & H2 & _ & H3 & _ & _ & H4).
    exists r'. split; [exact H1|]. split; [exact H2|].
    split; [exact H3 | exact H4].
Qed.

(** X8. Successive windows overlap: with a hop no longer than the window,
    the last [windowSize - hopSize] samples of a window are the first
    samples of the next one, whatever the producer pushes in between. *)
Theorem windows_overlap (r r1 r2 : reader) (data w1 w2 : list A) :
  ready r -> hopSize r <= windowSize r ->
  getNextWindow nan r = (Some w1, r1) ->
  getNextWindow nan (afterPush nan data r1) = (Some w2, r2) ->
  drop (Z.to_nat (hopSize r)) w1
  = take (Z.to_nat (windowSize r - hopSize r)) w2.
Proof.
  intros Hready Hhop Hfirst Hsecond.
  pose proof Hready as (Hwf & Hw & Hh & Hlen).
  assert (Hge : windowSize r <= availableRead (ringBuffer r)).
  { destruct (Z.le_gt_cases (windowSize r) (availableRead (ringBuffer r)))
      as [Hok|Hlt]; [exact Hok|].
    rewrite (getNextWindow_none r) in Hfirst by lia. discriminate. }
  destruct (getNextWindow_some r Hready Hge)
    as (r' & H1 & Hc1 & Hav1 & _ & Hw1 & Hh1 & Hready1).
  rewrite H1 in Hfirst. injection Hfirst as <- <-.
  destruct Hready1 as (Hwf1 & _ & _ & Hlen1).
  destruct (push_spec nan data (ringBuffer r') Hwf1)
    as (rb1' & Hpush & Hwf1' & _ & Hav1' & Hc1').
  pose proof (availableWrite_range _ Hwf1) as Haw1.
  pose proof (len_nonneg data) as Hd.
  assert (Hready1' : ready (afterPush nan data r')).
  { unfold ready, afterPush. cbn. rewrite Hpush. cbn [snd].
    repeat split; try apply Hwf1'; try lia; assumption. }
  assert (Hge1 : windowSize (afterPush nan data r')
                 <= availableRead (ringBuffer (afterPush nan data r'))).
  { destruct (Z.le_gt_cases (windowSize (afterPush nan data r'))
                (availableRead (ringBuffer (afterPush nan data r'))))
      as [Hok|Hlt]; [exact Hok|].
    rewrite (getNextWindow_none (afterPush nan data r')) in Hsecond by lia.
    discriminate. }
  destruct (getNextWindow_some _ Hready1' Hge1) as (r'' & H2 & _).
  rewrite H2 in Hsecond. injection Hsecond as <- _.
  unfold afterPush in *. cbn [ringBuffer windowSize] in *.
  rewrite Hpush in *. cbn [snd] in *.
  rewrite Hw1, Hc1', Hc1.
  pose proof (length_contents nan (ringBuffer r)) as HlenC.
  rewrite take_take.
  replace (Z.to_nat (windowSize r - hopSize r) `min` Z.to_nat (windowSize r))%nat
    with (Z.to_nat (windowSize r - hopSize r)) by lia.
  rewrite take_app_le by (rewrite length_drop, HlenC; lia).
  rewrite skipn_firstn_comm. f_equal. lia.
Qed.

End Facts.

End ReaderFacts.

(** ** The recorder worklet *)

Module WorkletFacts.

Import JsFacts RingBufferFacts AudioRecorderProcessor.
Local Open Scope Z_scope.

Section Facts.

Context {A : Type}.
Variable nan : A.

Local Abbreviation worklet := (@AudioRecorderProcessor.t A).

Lemma worklet_push_parts (w : worklet) rb (samples : list A) :
  attached w rb ->
  let n := Z.min (RingBuffer.availableWrite rb) (RingBuffer.len samples) in
  exists rb',
    pushToBuffer nan samples w = (n, with_buffer w (Some rb')) /\
    RingBuffer.contents nan rb'
    = RingBuffer.contents nan rb ++ take (Z.to_nat n) samples /\
    attached (with_buffer w (Some rb')) rb'.
Proof.
  intros (Hi & Hr & Hb & Hc & Hwf) n.
  destruct (push_spec nan samples rb Hwf)
    as (rb' & Hpush & Hwf' & Hcap & _ & Hcont).
  exists rb'. rewrite (pushToBuffer_push nan samples w rb Hb Hc), Hpush.
  cbn [fst snd]. split; [reflexivity|]. split; [exact Hcont|].
  unfold attached. cbn. repeat split; try assumption; try apply Hwf'.
  congruence.
Qed.

(** X9. A worklet initialised with the length of the storage pushes as
    the channel's own [push] does: the same count and the same channel
    afterwards, so it too stores the leading samples that fit and appends
    them to the unread ones. *)
Theorem worklet_push (samples : list A) (w : worklet) rb :
  attached w rb ->
  let n := Z.min (RingBuffer.availableWrite rb) (RingBuffer.len samples) in
  exists rb',
    pushToBuffer nan samples w = (n, with_buffer w (Some rb')) /\
    RingBuffer.push nan samples rb = (n, rb') /\
    RingBuffer.contents nan rb'
    = RingBuffer.contents nan rb ++ take (Z.to_nat n) samples /\
    attached (with_buffer w (Some rb')) rb'.
Proof.
  intros (Hi & Hr & Hb & Hc & Hwf) n.
  destruct (push_spec nan samples rb Hwf)
    as (rb' & Hpush & Hwf' & Hcap & _ & Hcont).
  exists rb'. rewrite (pushToBuffer_push nan samples w rb Hb Hc), Hpush.
  cbn [fst snd]. split; [reflexivity|]. split; [reflexivity|].
  split; [exact Hcont|].
  unfold attached. cbn. repeat split; try assumption; try apply Hwf'.
  congruence.
Qed.

(** X10. [process] ignores the block while the worklet is not recording,
    or when there is no input, no channel or an empty channel.  Otherwise
    it pushes the first channel of the first input and keeps the books:
    the sample counter grows by the length of the block, the dropped
    counter by exactly the samples that did not fit, and a health report
    is posted when 4800 samples have been counted since the last one. *)
Theorem process_accounting (w : worklet) rb
    (channelData : list A) (channels : list (list A))
    (inputs : list (list (list A))) :
  (isRecording w = false ->
   process nan ((channelData :: channels) :: inputs) w = (true, None, w)) /\
  process nan [] w = (true, None, w) /\
  process nan ([] :: inputs) w = (true, None, w) /\
  process nan (([] :: channels) :: inputs) w = (true, None, w) /\
  (attached w rb -> channelData <> [] ->
   let written :=
     Z.min (RingBuffer.availableWrite rb) (RingBuffer.len channelData) in
   exists message w' rb',
     process nan ((channelData :: channels) :: inputs) w
     = (true, message, w') /\
     attached w' rb' /\
     RingBuffer.contents nan rb'
     = RingBuffer.contents nan rb ++ take (Z.to_nat written) channelData /\
     sampleCounter w' = sampleCounter w + RingBuffer.len channelData /\
     droppedSamples w'
     = droppedSamples w + (RingBuffer.len channelData - written) /\
     (message <> None <->
      HEALTH_REPORT_INTERVAL <= sampleCounter w' - lastHealthReport w) /\
     (forall m, message = Some m ->
        reportedSamples m = sampleCounter w' /\
        reportedDropped m = droppedSamples w' /\
        lastHealthReport w' = sampleCounter w')).
Proof.
  split; [|split; [|split; [|split]]].
  - intros Hr. unfold process. rewrite Hr. reflexivity.
  - unfold process. destruct (negb _ || negb _); reflexivity.
  - unfold process. destruct (negb _ || negb _); reflexivity.
  - unfold process. destruct (negb _ || negb _); reflexivity.
  - intros Hatt Hne written.
    destruct (worklet_push_parts w rb channelData Hatt)
      as (rb' & Hpush & Hcont & Hatt').
    fold written in Hpush, Hcont.
    pose proof Hatt as (Hi & Hr & Hb & Hc & Hwf).
    unfold process. rewrite Hi, Hr. cbn [negb orb].
    assert (Hlen : 0 < RingBuffer.len channelData).
    { destruct channelData; [congruence|].
      unfold RingBuffer.len. cbn [length]. lia. }
    destruct (Z.eqb_spec (RingBuffer.len channelData) 0); [lia|].
    rewrite Hpush.
    cbn [isInitialized isRecording buffer capacity sampleCounter
         droppedSamples lastHealthReport with_buffer].
    eexists _, _, rb'. split; [reflexivity|].
    cbn [isInitialized isRecording buffer capacity sampleCounter
         droppedSamples lastHealthReport].
    destruct Hatt' as (_ & _ & _ & Hc' & Hwf').
    cbn [capacity with_buffer] in Hc'.
    split; [repeat split; try assumption; apply Hwf'|].
    split; [exact Hcont|]. split; [reflexivity|].
    split; [subst written; zcases|].
    split.
    + destruct (Z.geb_spec
                  (sampleCounter w + RingBuffer.len channelData
                   - lastHealthReport w) HEALTH_REPORT_INTERVAL);
        split; intros Hmsg; try lia; try congruence.
    + intros m.
      destruct (sampleCounter w + RingBuffer.len channelData
                - lastHealthReport w >=? HEALTH_REPORT_INTERVAL);
        [|discriminate].
      intros [= <-]. repeat split.
Qed.

End Facts.

End WorkletFacts.

(** ** More on the decoder *)

Module DecoderFacts.

Import NoteDecoder JsFacts NoteDecoderFacts.
Local Open Scope Q_scope.

(** *** The table of active notes *)

Section Keys.

Context {V : Type}.
Implicit Types (m : Js.Map.t V) (k : Z) (v : V).

Lemma has_false_not_in k m :
  Js.Map.has k m = false -> ~ In k (map fst m).
Proof.
  unfold Js.Map.has. induction m as [|[k1 v1] m IH]; cbn; [tauto|].
  destruct (Z.eqb_spec k1 k); cbn; [discriminate|].
  intros H [Heq|Hin]; [congruence | exact (IH H Hin)].
Qed.

Lemma get_none_has k m : Js.Map.get k m = None -> Js.Map.has k m = false.
Proof.
  unfold Js.Map.has, Js.Map.get. induction m as [|[k1 v1] m IH]; cbn;
    [reflexivity|].
  destruct (Z.eqb k1 k); cbn; [discriminate | exact IH].
Qed.

Lemma keys_set k v m :
  map fst (Js.Map.set k v m)
  = if Js.Map.has k m then map fst m else map fst m ++ [k].
Proof.
  unfold Js.Map.set. destruct (Js.Map.has k m).
  - induction m as [|[k1 v1] m IH]; cbn; [reflexivity|].
    rewrite IH. destruct (Z.eqb_spec k1 k); cbn; congruence.
  - rewrite map_app. reflexivity.
Qed.

Lemma keys_delete k m :
  map fst (Js.Map.delete k m)
  = List.filter (fun k1 => negb (Z.eqb k1 k)) (map fst m).
Proof.
  unfold Js.Map.delete. induction m as [|[k1 v1] m IH]; cbn; [reflexivity|].
  destruct (Z.eqb k1 k); cbn; rewrite IH; reflexivity.
Qed.

Lemma get_in k v m : Js.Map.get k m = Some v -> In (k, v) m.
Proof.
  unfold Js.Map.get. induction m as [|[k1 v1] m IH]; cbn; [discriminate|].
  destruct (Z.eqb_spec k1 k) as [->|Hne]; cbn.
  - intros [= <-]. left. reflexivity.
  - intros H. right. exact (IH H).
Qed.

(** With one entry per key, the entries of a key are the one [get]
    finds. *)
Lemma filter_key k v m :
  NoDup (map fst m) -> Js.Map.get k m = Some v ->
  List.filter (fun kv => Z.eqb (fst kv) k) m = [(k, v)].
Proof.
  unfold Js.Map.get. induction m as [|[k1 v1] m IH]; cbn; [discriminate|].
  intros Hnd. apply NoDup_cons in Hnd as [Hnotin Hm].
  destruct (Z.eqb_spec k1 k) as [->|Hne]; cbn.
  - intros [= <-]. f_equal.
    apply BeatDetectorFacts.filter_none. apply Forall_forall.
    intros [k2 v2] Hin. cbn. destruct (Z.eqb_spec k2 k) as [->|]; [|reflexivity].
    exfalso. apply Hnotin. apply list_elem_of_In.
    apply list_elem_of_In in Hin. apply (in_map fst) in Hin. exact Hin.
  - intros H. apply IH; assumption.
Qed.

End Keys.

Lemma tidy_set k v m :
  tidy m -> pianoKey k -> ActiveNoteState.pitch v = k ->
  tidy (Js.Map.set k v m).
Proof.
  intros [Hnd Hall] Hk Hv. split.
  - rewrite keys_set. destruct (Js.Map.has k m) eqn:Hhas; [exact Hnd|].
    apply NoDup_app. split; [exact Hnd|]. split.
    + intros x Hx Hx'. apply list_elem_of_singleton in Hx'. subst x.
      apply list_elem_of_In in Hx. exact (has_false_not_in k m Hhas Hx).
    + apply NoDup_singleton.
  - apply BeatDetectorFacts.set_Forall; [|exact Hall]. split; assumption.
Qed.

Lemma tidy_delete k m : tidy m -> tidy (Js.Map.delete k m).
Proof.
  intros [Hnd Hall]. split.
  - rewrite keys_delete. apply NoDup_ListNoDup, List.NoDup_filter.
    apply NoDup_ListNoDup, Hnd.
  - unfold Js.Map.delete. apply Forall_forall. intros kv Hin.
    apply list_elem_of_In, List.filter_In in Hin as [Hin _].
    rewrite Forall_forall in Hall. apply Hall, list_elem_of_In, Hin.
Qed.

Lemma processPitch_tidy d frame onsetP frameIndex frameTime pitch
    active completedNotes :
  (0 <= pitch < NUM_PIANO_KEYS)%Z -> tidy active ->
  tidy (fst (processPitch d frame onsetP frameIndex frameTime pitch
               (active, completedNotes))).
Proof.
  intros Hp Htidy. unfold processPitch. cbv zeta.
  assert (Hkey : pianoKey (pitch + PIANO_MIN_MIDI)%Z)
    by (unfold pianoKey; lia).
  destruct (Js.Map.get (pitch + PIANO_MIN_MIDI) active) as [note|] eqn:Hget.
  - repeat qcase; cbn [fst]; try assumption.
    + apply tidy_delete, Htidy.
    + apply tidy_delete, Htidy.
    + apply tidy_set; [exact Htidy | exact Hkey |].
      cbn [ActiveNoteState.pitch].
      apply get_in in Hget. destruct Htidy as [_ Hall].
      rewrite Forall_forall in Hall.
      apply (Hall _ (proj2 (list_elem_of_In _ _) Hget)).
  - destruct (Js.geb _ _ || Js.geb _ _); cbn [fst]; [|exact Htidy].
    apply tidy_set; [exact Htidy | exact Hkey | reflexivity].
Qed.

Lemma processFrame_tidy frame onsetP frameIndex baseTimestamp d :
  tidy (activeNotes d) ->
  tidy (activeNotes (snd (processFrame frame onsetP frameIndex baseTimestamp d))).
Proof.
  intros Htidy. unfold processFrame.
  assert (H : forall n, (n <= 88)%nat ->
    tidy (fst (Js.for_loop (Z.of_nat n)
                 (processPitch d frame onsetP frameIndex
                    (frameTimeOf d frameIndex baseTimestamp))
                 (activeNotes d, [])))).
  { induction n as [|n IH]; intros Hn; [exact Htidy|].
    rewrite for_loop_succ.
    specialize (IH ltac:(lia)).
    destruct (Js.for_loop _ _ _) as [act comp]. cbn [fst] in IH.
    apply processPitch_tidy; [unfold NUM_PIANO_KEYS; lia | exact IH]. }
  specialize (H 88%nat ltac:(lia)).
  change (Z.of_nat 88) with NUM_PIANO_KEYS in H.
  destruct (Js.for_loop _ _ _) as [act comp]. exact H.
Qed.

Lemma processFrames_tidy frames frameIndex baseTimestamp d :
  tidy (activeNotes d) ->
  tidy (activeNotes (snd (processFrames frames frameIndex baseTimestamp d))).
Proof.
  revert frameIndex d. induction frames as [|frame rest IH];
    intros frameIndex d Htidy; [exact Htidy|].
  cbn [processFrames].
  pose proof (processFrame_tidy frame None frameIndex baseTimestamp d Htidy)
    as H1.
  destruct (processFrame frame None frameIndex baseTimestamp d) as [notes d1].
  specialize (IH (frameIndex + 1)%Z d1 H1).
  destruct (processFrames rest (frameIndex + 1) baseTimestamp d1)
    as [more d2].
  exact IH.
Qed.

Lemma tidy_size m : tidy m -> (Z.of_nat (length m) <= NUM_PIANO_KEYS)%Z.
Proof.
  intros [Hnd Hall]. rewrite <- (length_map fst m).
  apply NoDup_ListNoDup in Hnd.
  set (keys := map (fun i => (PIANO_MIN_MIDI + Z.of_nat i)%Z) (seq 0 88)).
  assert (Hkeys : length keys = 88%nat) by reflexivity.
  unfold NUM_PIANO_KEYS. cut (length (map fst m) <= length keys)%nat; [lia|].
  apply (List.NoDup_incl_length Hnd).
  intros k Hin. apply in_map_iff in Hin as ([k' v] & <- & Hin).
  rewrite Forall_forall in Hall.
  destruct (Hall _ (proj2 (list_elem_of_In _ _) Hin)) as [Hrange _].
  cbn [fst] in *. unfold NUM_PIANO_KEYS in Hrange.
  apply in_map_iff. exists (Z.to_nat (k' - PIANO_MIN_MIDI)).
  split; [lia|]. apply in_seq. lia.
Qed.

(** X11. The table of active notes stays tidy: from a table with one
    entry per key, all keys piano keys 21 to 108 and every entry carrying
    its key as its pitch, [processFrame] leads to such a table again,
    which therefore never holds more than 88 notes.  The table of a new
    decoder, and the one [closeAllNotes] and [reset] leave, are tidy. *)
Theorem table_stays_tidy :
  (forall frame onsetP frameIndex baseTimestamp d,
     tidy (activeNotes d) ->
     let d' := snd (processFrame frame onsetP frameIndex baseTimestamp d) in
     tidy (activeNotes d') /\
     (Z.of_nat (length (activeNotes d')) <= NUM_PIANO_KEYS)%Z) /\
  (forall onset offset minDuration rate hop,
     tidy (activeNotes (new onset offset minDuration rate hop))) /\
  (forall endTime d,
     tidy (activeNotes (snd (closeAllNotes endTime d))) /\
     tidy (activeNotes (reset d))).
Proof.
  assert (Hnil : tidy []) by (split; constructor).
  split; [|split].
  - intros frame onsetP frameIndex baseTimestamp d Htidy d'.
    pose proof (processFrame_tidy frame onsetP frameIndex baseTimestamp d Htidy)
      as H.
    split; [exact H | apply tidy_size, H].
  - intros. exact Hnil.
  - intros. split; exact Hnil.
Qed.

(** *** What a frame can complete *)

Lemma stepPitch_emits d probability onsetProb frameIndex frameTime midi entry :
  (length (snd (stepPitch d probability onsetProb frameIndex frameTime midi
                  entry)) <= 1)%nat /\
  (entry = None ->
   snd (stepPitch d probability onsetProb frameIndex frameTime midi entry)
   = []).
Proof.
  unfold stepPitch. destruct entry as [note|].
  - split; [|discriminate]. repeat qcase; cbn [snd length]; lia.
  - destruct (Js.geb _ _ || Js.geb _ _); cbn [snd length]; split; auto.
Qed.

Lemma processFrame_range frame onsetP frameIndex baseTimestamp d :
  Forall (fun n => pianoKey (DetectedNote.pitch n))
    (fst (processFrame frame onsetP frameIndex baseTimestamp d)).
Proof.
  unfold processFrame.
  set (ft := frameTimeOf d frameIndex baseTimestamp).
  assert (H : forall n, (n <= 88)%nat ->
    Forall (fun n => pianoKey (DetectedNote.pitch n))
      (snd (Js.for_loop (Z.of_nat n)
              (processPitch d frame onsetP frameIndex ft)
              (activeNotes d, [])))).
  { induction n as [|n IH]; intros Hn; [constructor|].
    rewrite for_loop_succ. specialize (IH ltac:(lia)).
    destruct (Js.for_loop _ _ _) as [act comp].
    destruct (processPitch_own d frame onsetP frameIndex ft (Z.of_nat n)
                act comp) as [_ ->].
    apply Forall_app. split; [exact IH|].
    eapply Forall_impl; [apply stepPitch_pitch|].
    intros x Hx. cbn beta in Hx. unfold pianoKey, NUM_PIANO_KEYS.
    rewrite Hx. lia. }
  specialize (H 88%nat ltac:(lia)).
  change (Z.of_nat 88) with NUM_PIANO_KEYS in H.
  destruct (Js.for_loop _ _ _) as [act comp]. exact H.
Qed.

Lemma notesOf_outside midi notes :
  ~ pianoKey midi ->
  Forall (fun n => pianoKey (DetectedNote.pitch n)) notes ->
  notesOf midi notes = [].
Proof.
  intros Hout Hall. unfold notesOf. apply BeatDetectorFacts.filter_none.
  eapply Forall_impl; [exact Hall|]. intros n Hn. cbn beta in *.
  destruct (Z.eqb_spec (DetectedNote.pitch n) midi); [|reflexivity].
  subst midi. contradiction.
Qed.

(** X12. One frame completes at most one note per pitch, only notes of
    piano keys, and none for a pitch that was not sounding when the frame
    came: an onset and an offset never fall into the same frame. *)
Theorem one_note_per_pitch frame onsetP frameIndex baseTimestamp d :
  let notes := fst (processFrame frame onsetP frameIndex baseTimestamp d) in
  Forall (fun n => pianoKey (DetectedNote.pitch n)) notes /\
  (forall midi, (length (notesOf midi notes) <= 1)%nat) /\
  (forall midi,
     Js.Map.get midi (activeNotes d) = None -> notesOf midi notes = []).
Proof.
  intros notes. subst notes.
  pose proof (processFrame_range frame onsetP frameIndex baseTimestamp d)
    as Hrange.
  split; [exact Hrange|].
  assert (Hcases : forall midi,
    pianoKey midi \/ ~ pianoKey midi)
    by (intros midi; unfold pianoKey; lia).
  split; intros midi.
  - destruct (Hcases midi) as [Hin|Hout].
    + destruct (processFrame_pitch frame onsetP frameIndex baseTimestamp d
                  (midi - PIANO_MIN_MIDI))
        as (_ & Hnotes & _); [unfold pianoKey in Hin; lia|].
      cbv zeta in Hnotes.
      replace (midi - PIANO_MIN_MIDI + PIANO_MIN_MIDI)%Z with midi in Hnotes
        by lia.
      rewrite Hnotes. apply stepPitch_emits.
    + rewrite (notesOf_outside midi _ Hout Hrange). cbn [length]. lia.
  - intros Hidle. destruct (Hcases midi) as [Hin|Hout].
    + destruct (processFrame_pitch frame onsetP frameIndex baseTimestamp d
                  (midi - PIANO_MIN_MIDI))
        as (_ & Hnotes & _); [unfold pianoKey in Hin; lia|].
      cbv zeta in Hnotes.
      replace (midi - PIANO_MIN_MIDI + PIANO_MIN_MIDI)%Z with midi in Hnotes
        by lia.
      rewrite Hnotes, Hidle. apply stepPitch_emits. reflexivity.
    + apply (notesOf_outside midi _ Hout Hrange).
Qed.

(** *** A sounding pitch *)

Section Sounding.

Variables (d : t) (pitch : Z) (baseTimestamp : Q).

Local Abbreviation midi := (pitch + PIANO_MIN_MIDI)%Z.
Local Abbreviation probabilityOf := (fun f : list Q => read f pitch).

(** While a pitch is held its entry keeps start, pitch and velocity
    estimate, and its peak grows to the largest probability seen. *)
Lemma run_held_peak frames i note :
  Forall (fun f => offsetThreshold d <= read f pitch) frames ->
  exists note',
    runPitch d pitch frames i baseTimestamp (Some note) = (Some note', []) /\
    ActiveNoteState.startTime note' = ActiveNoteState.startTime note /\
    ActiveNoteState.velocityEstimate note'
    = ActiveNoteState.velocityEstimate note /\
    ActiveNoteState.peakProbability note
    <= ActiveNoteState.peakProbability note' /\
    Forall (fun f => read f pitch <= ActiveNoteState.peakProbability note')
      frames /\
    (ActiveNoteState.peakProbability note'
     = ActiveNoteState.peakProbability note \/
     In (ActiveNoteState.peakProbability note') (map probabilityOf frames)).
Proof.
  intros H. revert i note. induction H as [|f frames Hf _ IH]; intros i note.
  - exists note. repeat split; try lra; [constructor | left; reflexivity].
  - cbn [runPitch stepPitch].
    apply ltb_false in Hf. rewrite Hf.
    destruct (Js.gtb (read f pitch) (ActiveNoteState.peakProbability note))
      eqn:Hgt; [apply gtb_true in Hgt | apply gtb_false in Hgt].
    + destruct (IH (i + 1)%Z
        {| ActiveNoteState.pitch := ActiveNoteState.pitch note;
           ActiveNoteState.startTime := ActiveNoteState.startTime note;
           ActiveNoteState.startFrame := ActiveNoteState.startFrame note;
           ActiveNoteState.peakProbability := read f pitch;
           ActiveNoteState.velocityEstimate :=
             ActiveNoteState.velocityEstimate note |})
        as (note' & -> & Hs & Hv & Hp & Hall & Hin).
      cbn [ActiveNoteState.peakProbability ActiveNoteState.startTime
           ActiveNoteState.velocityEstimate] in *.
      exists note'. split; [reflexivity|]. split; [exact Hs|].
      split; [exact Hv|]. split; [lra|].
      split; [constructor; assumption|].
      right. cbn [map]. destruct Hin as [->|Hin]; [left | right]; auto.
    + destruct (IH (i + 1)%Z note) as (note' & -> & Hs & Hv & Hp & Hall & Hin).
      exists note'. split; [reflexivity|]. split; [exact Hs|].
      split; [exact Hv|]. split; [exact Hp|].
      split; [constructor; [lra | exact Hall]|].
      destruct Hin as [Hin|Hin]; [left | right; right]; auto.
Qed.

(** From idle through the onset frame and the held frames: the pitch is
    in the table with the onset time as its start, the onset probability
    as its velocity estimate and the largest probability since the onset
    as its peak. *)
Lemma run_sounding pre onsetFrame mid i :
  Forall (fun f => read f pitch < onsetThreshold d) pre ->
  onsetThreshold d <= read onsetFrame pitch ->
  Forall (fun f => offsetThreshold d <= read f pitch) mid ->
  exists state,
    runPitch d pitch (pre ++ onsetFrame :: mid) i baseTimestamp None
    = (Some state, []) /\
    ActiveNoteState.startTime state
    = frameTimeOf d (i + Z.of_nat (length pre))%Z baseTimestamp /\
    ActiveNoteState.velocityEstimate state = read onsetFrame pitch /\
    Forall (fun f => read f pitch <= ActiveNoteState.peakProbability state)
      (onsetFrame :: mid) /\
    In (ActiveNoteState.peakProbability state)
       (map probabilityOf (onsetFrame :: mid)).
Proof.
  intros Hpre Hon Hmid.
  rewrite runPitch_app, (run_quiet d pitch baseTimestamp pre i Hpre).
  cbn [runPitch stepPitch].
  apply geb_true in Hon. rewrite Hon. cbn [orb].
  destruct (run_held_peak mid (i + Z.of_nat (length pre) + 1)%Z
    {| ActiveNoteState.pitch := midi;
       ActiveNoteState.startTime :=
         frameTimeOf d (i + Z.of_nat (length pre))%Z baseTimestamp;
       ActiveNoteState.startFrame := (i + Z.of_nat (length pre))%Z;
       ActiveNoteState.peakProbability := read onsetFrame pitch;
       ActiveNoteState.velocityEstimate := read onsetFrame pitch |} Hmid)
    as (state & -> & Hs & Hv & Hp & Hall & Hin).
  cbn [ActiveNoteState.peakProbability ActiveNoteState.startTime
       ActiveNoteState.velocityEstimate] in *.
  exists state. split; [reflexivity|]. split; [exact Hs|].
  split; [exact Hv|]. split; [constructor; assumption|].
  cbn [map]. destruct Hin as [->|Hin]; [left | right]; auto.
Qed.

End Sounding.

Lemma processFrames_params frames frameIndex baseTimestamp d :
  exists active,
    snd (processFrames frames frameIndex baseTimestamp d)
    = with_activeNotes d active.
Proof.
  revert frameIndex d. induction frames as [|frame rest IH];
    intros frameIndex d.
  - exists (activeNotes d). destruct d. reflexivity.
  - cbn [processFrames].
    destruct (processFrame_pitch frame None frameIndex baseTimestamp d 0)
      as (_ & _ & act & Hd); [unfold NUM_PIANO_KEYS; lia|].
    destruct (processFrame frame None frameIndex baseTimestamp d)
      as [notes d1].
    cbn [snd] in Hd. subst d1.
    destruct (IH (frameIndex + 1)%Z (with_activeNotes d act)) as [act2 H2].
    destruct (processFrames rest _ _ _) as [more d2].
    cbn [snd] in *. exists act2. rewrite H2. reflexivity.
Qed.

Lemma notesOf_closed midi endTime (m : Js.Map.t ActiveNoteState.t) :
  notesOf midi
    (map (fun kv =>
            completed (fst kv) (snd kv) endTime
              (endTime - ActiveNoteState.startTime (snd kv))) m)
  = map (fun kv =>
           completed (fst kv) (snd kv) endTime
             (endTime - ActiveNoteState.startTime (snd kv)))
      (List.filter (fun kv => Z.eqb (fst kv) midi) m).
Proof.
  unfold notesOf. induction m as [|[k v] m IH]; cbn; [reflexivity|].
  destruct (Z.eqb k midi); cbn; rewrite IH; reflexivity.
Qed.

Lemma filter_swap {X : Type} (f g : X -> bool) (l : list X) :
  List.filter f (List.filter g l) = List.filter g (List.filter f l).
Proof.
  induction l as [|x l IH]; cbn; [reflexivity|].
  destruct (f x) eqn:Hf, (g x) eqn:Hg; cbn; rewrite ?Hf, ?Hg, IH;
    reflexivity.
Qed.

Lemma velocity_range (p : Q) :
  0 <= p <= 1 -> 0 <= inject_Z (Js.Math_round (p * 127)) <= 127.
Proof.
  intros [H0 H1]. unfold Js.Math_round.
  assert (Hlo : (0 <= Qfloor (p * 127 + (1 # 2)))%Z).
  { apply (Qfloor_resp_le 0). lra. }
  assert (Hhi : (Qfloor (p * 127 + (1 # 2)) <= 127)%Z).
  { apply (Qfloor_resp_le _ (127 + (1 # 2))). lra. }
  split.
  - change 0 with (inject_Z 0). rewrite <- Zle_Qle. exact Hlo.
  - change 127 with (inject_Z 127). rewrite <- Zle_Qle. exact Hhi.
Qed.

(** X13. Stopping while a note sounds.  On frames that have all their
    entries, a pitch that is idle, has its onset and is still held when
    the run ends has completed nothing yet;
    [closeAllNotes] then closes it at the given end time: one note for the
    pitch, from the onset frame to the end time, when that is at least
    [minDurationSeconds], and none when it is shorter. *)
Theorem stop_closes_sounding_note d pitch i baseTimestamp
    pre onsetFrame mid endTime :
  (0 <= pitch < NUM_PIANO_KEYS)%Z ->
  Forall full (pre ++ onsetFrame :: mid) ->
  tidy (activeNotes d) ->
  Js.Map.get (pitch + PIANO_MIN_MIDI)%Z (activeNotes d) = None ->
  Forall (fun f => read f pitch < onsetThreshold d) pre ->
  onsetThreshold d <= read onsetFrame pitch ->
  Forall (fun f => offsetThreshold d <= read f pitch) mid ->
  let onsetTime := frameTimeOf d (i + Z.of_nat (length pre))%Z baseTimestamp in
  let out := processFrames (pre ++ onsetFrame :: mid) i baseTimestamp d in
  let closed := fst (closeAllNotes endTime (snd out)) in
  notesOf (pitch + PIANO_MIN_MIDI)%Z (fst out) = [] /\
  (minDurationSeconds d <= endTime - onsetTime ->
   exists note,
     notesOf (pitch + PIANO_MIN_MIDI)%Z closed = [note] /\
     DetectedNote.pitch note = (pitch + PIANO_MIN_MIDI)%Z /\
     DetectedNote.startTime note = onsetTime /\
     DetectedNote.endTime note = Some endTime /\
     DetectedNote.duration note = endTime - onsetTime /\
     DetectedNote.isActive note = false) /\
  (endTime - onsetTime < minDurationSeconds d ->
   notesOf (pitch + PIANO_MIN_MIDI)%Z closed = []).
Proof.
  intros Hp _ Htidy Hidle Hpre Hon Hmid onsetTime out closed.
  destruct (processFrames_pitch (pre ++ onsetFrame :: mid) i baseTimestamp d
              pitch Hp) as [Hentry Hnotes].
  cbv zeta in Hentry, Hnotes. fold out in Hentry, Hnotes.
  rewrite Hidle in Hentry, Hnotes.
  destruct (run_sounding d pitch baseTimestamp pre onsetFrame mid i
              Hpre Hon Hmid) as (state & Hrun & Hstart & _).
  fold onsetTime in Hstart.
  rewrite Hrun in Hentry, Hnotes. cbn [fst snd] in Hentry, Hnotes.
  split; [exact Hnotes|].
  pose proof (processFrames_tidy (pre ++ onsetFrame :: mid) i baseTimestamp d
                Htidy) as Htidy'.
  fold out in Htidy'.
  destruct (processFrames_params (pre ++ onsetFrame :: mid) i baseTimestamp d)
    as [act Hparams].
  fold out in Hparams.
  assert (Hclosed :
    notesOf (pitch + PIANO_MIN_MIDI)%Z closed
    = if Js.geb (endTime - onsetTime) (minDurationSeconds d)
      then [completed (pitch + PIANO_MIN_MIDI)%Z state endTime
              (endTime - onsetTime)]
      else []).
  { subst closed. rewrite closeAllNotes_spec. cbn [fst].
    rewrite notesOf_closed, filter_swap.
    rewrite (filter_key _ _ _ (proj1 Htidy') Hentry).
    cbn [List.filter snd fst]. rewrite Hstart.
    replace (minDurationSeconds (snd out)) with (minDurationSeconds d)
      by (rewrite Hparams; reflexivity).
    destruct (Js.geb _ _); cbn [map fst snd]; rewrite ?Hstart; reflexivity. }
  split.
  - intros Hlong. apply geb_true in Hlong. rewrite Hlong in Hclosed.
    eexists. split; [exact Hclosed|].
    cbn [completed DetectedNote.pitch DetectedNote.startTime
         DetectedNote.endTime DetectedNote.duration DetectedNote.isActive].
    repeat split; assumption.
  - intros Hshort. apply geb_false in Hshort. rewrite Hshort in Hclosed.
    exact Hclosed.
Qed.

(** X14. What a note carries.  On frames that have all their entries,
    for an idle pitch with an onset, a held stretch and an offset at
    least [minDurationSeconds] later, the note
    the decoder emits has as velocity the onset frame's probability scaled
    to 127 and rounded, and as confidence the largest probability from the
    onset frame to the last held frame.  With an onset probability between
    0 and 1 the velocity lies between 0 and 127. *)
Theorem note_velocity_and_confidence d pitch i baseTimestamp
    pre onsetFrame mid offsetFrame :
  (0 <= pitch < NUM_PIANO_KEYS)%Z ->
  Forall full (pre ++ onsetFrame :: mid ++ [offsetFrame]) ->
  Js.Map.get (pitch + PIANO_MIN_MIDI)%Z (activeNotes d) = None ->
  Forall (fun f => read f pitch < onsetThreshold d) pre ->
  onsetThreshold d <= read onsetFrame pitch ->
  Forall (fun f => offsetThreshold d <= read f pitch) mid ->
  read offsetFrame pitch < offsetThreshold d ->
  let onsetTime := frameTimeOf d (i + Z.of_nat (length pre))%Z baseTimestamp in
  let offsetTime :=
    frameTimeOf d (i + Z.of_nat (length pre) + 1 + Z.of_nat (length mid))%Z
      baseTimestamp in
  minDurationSeconds d <= offsetTime - onsetTime ->
  let out :=
    processFrames (pre ++ onsetFrame :: mid ++ [offsetFrame]) i
      baseTimestamp d in
  exists note,
    notesOf (pitch + PIANO_MIN_MIDI)%Z (fst out) = [note] /\
    DetectedNote.velocity note
    = inject_Z (Js.Math_round (read onsetFrame pitch * 127)) /\
    (0 <= read onsetFrame pitch <= 1 ->
     0 <= DetectedNote.velocity note <= 127) /\
    Forall (fun f => read f pitch <= DetectedNote.confidence note)
      (onsetFrame :: mid) /\
    In (DetectedNote.confidence note)
       (map (fun f => read f pitch) (onsetFrame :: mid)).
Proof.
  intros Hp _ Hidle Hpre Hon Hmid Hoff onsetTime offsetTime Hlong out.
  destruct (processFrames_pitch (pre ++ onsetFrame :: mid ++ [offsetFrame]) i
              baseTimestamp d pitch Hp) as [_ Hnotes].
  cbv zeta in Hnotes. fold out in Hnotes. rewrite Hidle in Hnotes.
  destruct (run_sounding d pitch baseTimestamp pre onsetFrame mid i
              Hpre Hon Hmid) as (state & Hrun & Hstart & Hvel & Hall & Hin).
  fold onsetTime in Hstart.
  replace (pre ++ onsetFrame :: mid ++ [offsetFrame])
    with ((pre ++ onsetFrame :: mid) ++ [offsetFrame]) in Hnotes
    by (rewrite <- app_assoc; reflexivity).
  rewrite runPitch_app, Hrun in Hnotes.
  cbn [runPitch stepPitch] in Hnotes.
  apply ltb_true in Hoff. rewrite Hoff in Hnotes.
  replace (i + Z.of_nat (length (pre ++ onsetFrame :: mid)))%Z
    with (i + Z.of_nat (length pre) + 1 + Z.of_nat (length mid))%Z in Hnotes
    by (rewrite length_app; cbn [length]; lia).
  fold offsetTime in Hnotes. rewrite Hstart in Hnotes.
  apply geb_true in Hlong. rewrite Hlong in Hnotes.
  cbn [fst snd app] in Hnotes.
  eexists. split; [exact Hnotes|].
  cbn [completed DetectedNote.velocity DetectedNote.confidence].
  rewrite Hvel.
  split; [reflexivity|]. split; [apply velocity_range|].
  split; [exact Hall | exact Hin].
Qed.

End DecoderFacts.



(** ** More on the beat detector *)

Module TempoFacts.

Import BeatDetector JsFacts BeatDetectorFacts.
Local Open Scope Q_scope.

Lemma addOnset_window (time : Q) (onsetTimes : t) :
  (length onsetTimes <= maxOnsets)%nat ->
  addOnset time onsetTimes
  = drop (length onsetTimes + 1 - maxOnsets) (onsetTimes ++ [time]).
Proof.
  intros Hlen. assert (Hmax : maxOnsets = 100%nat) by reflexivity.
  unfold addOnset. rewrite length_app. cbn [length].
  destruct (Nat.ltb_spec maxOnsets (length onsetTimes + 1)) as [Hlt|Hge].
  - replace (length onsetTimes + 1 - maxOnsets)%nat with 1%nat by lia.
    destruct (onsetTimes ++ [time]); reflexivity.
  - replace (length onsetTimes + 1 - maxOnsets)%nat with 0%nat by lia.
    reflexivity.
Qed.

Lemma addOnsets_window (times : list Q) (onsetTimes : t) :
  (length onsetTimes <= maxOnsets)%nat ->
  addOnsets times onsetTimes
  = drop (length onsetTimes + length times - maxOnsets)
      (onsetTimes ++ times).
Proof.
  assert (Hmax : maxOnsets = 100%nat) by reflexivity.
  unfold addOnsets. revert onsetTimes.
  induction times as [|time times IH]; intros onsetTimes Hlen.
  - cbn [fold_left length]. rewrite app_nil_r.
    replace (length onsetTimes + 0 - maxOnsets)%nat with 0%nat by lia.
    reflexivity.
  - cbn [fold_left length].
    rewrite (addOnset_window time onsetTimes Hlen).
    set (k := (length onsetTimes + 1 - maxOnsets)%nat).
    assert (Hk : (k <= 1)%nat) by (subst k; lia).
    rewrite IH by (rewrite length_drop, length_app; cbn [length]; lia).
    rewrite length_drop, length_app. cbn [length].
    rewrite <- drop_app_le by (rewrite length_app; cbn [length]; lia).
    rewrite <- app_assoc. cbn [app]. rewrite drop_drop. f_equal. lia.
Qed.

(** X15. The detector remembers the last hundred onsets: from a history
    within the cap, any run of [addOnset] calls leaves the most recent
    [maxOnsets] of all the onsets seen, oldest first, and never more. *)
Theorem onset_history (times : list Q) (onsetTimes : t) :
  (length onsetTimes <= maxOnsets)%nat ->
  let after := addOnsets times onsetTimes in
  after
  = drop (length onsetTimes + length times - maxOnsets) (onsetTimes ++ times)
  /\ length after = Nat.min maxOnsets (length onsetTimes + length times).
Proof.
  intros Hlen after. subst after.
  rewrite (addOnsets_window times onsetTimes Hlen).
  split; [reflexivity|]. rewrite length_drop, length_app. lia.
Qed.

(** *** Onsets moved in time *)

Lemma intervalsOf_shift (c : Q) (l : list Q) :
  Forall2 Qeq (intervalsOf (map (fun time => time + c) l)) (intervalsOf l).
Proof.
  induction l as [|a [|b r] IH]; try constructor.
  - change (b + c - (a + c) == b - a). ring.
  - exact IH.
Qed.

Lemma validInterval_comp (x y : Q) :
  x == y -> validInterval x = validInterval y.
Proof.
  intros H. unfold validInterval, Js.geb, Js.leb. rewrite H. reflexivity.
Qed.

Lemma filter_valid_comp (l1 l2 : list Q) :
  Forall2 Qeq l1 l2 ->
  Forall2 Qeq (List.filter validInterval l1) (List.filter validInterval l2).
Proof.
  induction 1 as [|x y l1 l2 Hxy _ IH]; [constructor|].
  cbn [List.filter]. rewrite (validInterval_comp x y Hxy).
  destruct (validInterval y); [constructor; assumption | exact IH].
Qed.

Lemma countBin_comp (histogram : Js.Map.t Z) (x y : Q) :
  x == y -> countBin histogram x = countBin histogram y.
Proof.
  intros H. unfold countBin, Js.Math_round. rewrite H. reflexivity.
Qed.

Lemma histogram_comp (l1 l2 : list Q) :
  Forall2 Qeq l1 l2 ->
  forall histogram,
    fold_left countBin l1 histogram = fold_left countBin l2 histogram.
Proof.
  induction 1 as [|x y l1 l2 Hxy _ IH]; intros histogram; [reflexivity|].
  cbn [fold_left]. rewrite (countBin_comp histogram x y Hxy). apply IH.
Qed.

(** X16. The tempo comes from the gaps between onsets alone: moving every
    onset by the same amount of time, as a later start of the recording
    does, leaves the estimate as it was. *)
Theorem tempo_from_gaps (fuel : nat) (shift : Q) (onsetTimes : t) :
  estimateBPM fuel (map (fun time => time + shift) onsetTimes)
  = estimateBPM fuel onsetTimes.
Proof.
  unfold estimateBPM. rewrite length_map.
  destruct (length onsetTimes <? 4)%nat; [reflexivity|].
  pose proof (filter_valid_comp _ _ (intervalsOf_shift shift onsetTimes))
    as Hvalid.
  rewrite (Forall2_length _ _ _ Hvalid).
  destruct (length (List.filter validInterval (intervalsOf onsetTimes)) =? 0)%nat;
    [reflexivity|].
  rewrite (histogram_comp _ _ Hvalid []). reflexivity.
Qed.

End TempoFacts.

(** ** More on the quantizer *)

Module GridFacts.

Import NoteQuantizer JsFacts NoteQuantizerFacts.
Local Open Scope Q_scope.

(** *** Rounding *)

Lemma round_bounds (x : Q) :
  inject_Z (Js.Math_round x) <= x + (1 # 2) /\
  x + (1 # 2) < inject_Z (Js.Math_round x) + 1.
Proof.
  unfold Js.Math_round. split; [apply Qfloor_le|].
  pose proof (Qlt_floor (x + (1 # 2))) as H.
  rewrite inject_Z_plus in H. exact H.
Qed.

Lemma round_integer (k : Z) (x : Q) : x == inject_Z k -> Js.Math_round x = k.
Proof.
  intros Hx. destruct (round_bounds x) as [Hlo Hhi].
  assert (H1 : inject_Z (Js.Math_round x) < inject_Z (k + 1))
    by (rewrite inject_Z_plus; change (inject_Z 1) with 1; lra).
  assert (H2 : inject_Z k < inject_Z (Js.Math_round x + 1))
    by (rewrite inject_Z_plus; change (inject_Z 1) with 1; lra).
  rewrite <- Zlt_Qlt in H1, H2. lia.
Qed.

(** *** [snapToGrid] *)

Section Snap.

Variable cfg : QuantizerConfig.t.

Local Abbreviation gridUnit := (QuantizerConfig.minQuantization cfg).

Lemma snapToGrid_plain (beat : Q) :
  QuantizerConfig.detectTriplets cfg = false ->
  snapToGrid cfg beat = inject_Z (Js.Math_round (beat / gridUnit)) * gridUnit.
Proof.
  intros Hplain. unfold snapToGrid. cbv zeta. rewrite Hplain.
  destruct (Js.leb _ _); reflexivity.
Qed.

Lemma snapToGrid_fixed (k : Z) :
  0 < gridUnit ->
  snapToGrid cfg (inject_Z k * gridUnit) = inject_Z k * gridUnit.
Proof.
  intros Hg. unfold snapToGrid. cbv zeta.
  assert (Hr : Js.Math_round (inject_Z k * gridUnit / gridUnit) = k).
  { apply round_integer. apply Qdiv_mult_l. lra. }
  rewrite Hr.
  destruct (Js.leb _ _); [reflexivity|].
  destruct (QuantizerConfig.detectTriplets cfg); [|reflexivity].
  match goal with
  | |- context [Js.ltb ?x ?y] => destruct (Js.ltb x y) eqn:Hcmp;
                                 [|reflexivity]
  end.
  apply ltb_true in Hcmp. exfalso.
  unfold Js.Math_abs in Hcmp.
  assert (H0 : Qabs (inject_Z k * gridUnit - inject_Z k * gridUnit) == 0).
  { apply (Qabs_wd _ 0). ring. }
  rewrite H0 in Hcmp.
  match type of Hcmp with
  | Qabs ?x < 0 => pose proof (Qabs_nonneg x)
  end. lra.
Qed.

Lemma snap_error (beat : Q) :
  0 < gridUnit ->
  Qabs (beat - inject_Z (Js.Math_round (beat / gridUnit)) * gridUnit)
  <= gridUnit * (1 # 2).
Proof.
  intros Hg. destruct (round_bounds (beat / gridUnit)) as [Hlo Hhi].
  set (k := inject_Z (Js.Math_round (beat / gridUnit))) in *.
  assert (Hb : beat == beat / gridUnit * gridUnit)
    by (rewrite Qmult_comm, Qmult_div_r; [reflexivity | lra]).
  set (x := beat / gridUnit) in *.
  apply Qabs_Qle_condition. rewrite Hb. split; nra.
Qed.

End Snap.

(** X17. [snapToGrid] without triplets: the result is a whole number of
    grid units, the nearest one, so it lies within half a grid unit of the
    beat, and snapping it again changes nothing.  A beat already on the
    grid stays where it is, with or without triplets. *)
Theorem snap_to_grid (cfg : QuantizerConfig.t) :
  0 < QuantizerConfig.minQuantization cfg ->
  (forall k : Z,
     snapToGrid cfg (inject_Z k * QuantizerConfig.minQuantization cfg)
     = inject_Z k * QuantizerConfig.minQuantization cfg) /\
  (QuantizerConfig.detectTriplets cfg = false ->
   forall beat : Q,
     (exists k : Z,
        snapToGrid cfg beat
        = inject_Z k * QuantizerConfig.minQuantization cfg) /\
     Qabs (beat - snapToGrid cfg beat)
     <= QuantizerConfig.minQuantization cfg * (1 # 2) /\
     snapToGrid cfg (snapToGrid cfg beat) = snapToGrid cfg beat).
Proof.
  intros Hg. split; [intros k; apply snapToGrid_fixed, Hg|].
  intros Hplain beat. rewrite (snapToGrid_plain cfg beat Hplain).
  split; [eexists; reflexivity|].
  split; [apply snap_error, Hg | apply snapToGrid_fixed, Hg].
Qed.

(** *** Durations on the ladder *)

Lemma near_true (c h : Q) :
  Js.ltb (Js.Math_abs c) h = true <-> - h < c /\ c < h.
Proof. rewrite ltb_true. apply Qabs_Qlt_condition. Qed.

Lemma near_false (c h : Q) :
  Js.ltb (Js.Math_abs c) h = false <-> ~ (- h < c /\ c < h).
Proof. rewrite <- near_true. symmetry. apply not_true_iff_false. Qed.

(** Case analysis on the first closeness test of the goal, closing the
    cases the bounds on the grid unit rule out. *)
Ltac near :=
  match goal with
  | |- context [Js.ltb (Js.Math_abs ?c) ?h] =>
      let H := fresh "Hnear" in
      destruct (Js.ltb (Js.Math_abs c) h) eqn:H;
      [apply near_true in H | apply near_false in H];
      try (exfalso; lra)
  end.

(** X18. A duration that is exactly a value of the ladder, plain or
    dotted, is notated as that value and leaves no remainder, for every
    grid unit up to the 64th note. *)
Theorem exact_durations (cfg : QuantizerConfig.t) (e : GridEntry) :
  0 < QuantizerConfig.minQuantization cfg ->
  QuantizerConfig.minQuantization cfg <= 0.0625 ->
  In e DURATION_GRID ->
  findDurationType cfg (beats e) = mkMatch (type e) false 0 /\
  findDurationType cfg (beats e * DOTTED_MULTIPLIER) = mkMatch (type e) true 0.
Proof.
  intros Hpos Hsmall. unfold DURATION_GRID. cbn [In].
  intros [<-|[<-|[<-|[<-|[<-|[<-|[<-|[]]]]]]]];
    unfold findDurationType, DURATION_GRID, DOTTED_MULTIPLIER;
    cbn [find beats type]; split; repeat near; reflexivity.
Qed.

(** *** Ties *)

Lemma linkedTo_snoc (next : option Q) (chain : list QuantizedNote.t)
    (n : QuantizedNote.t) :
  linkedTo (Some (QuantizedNote.startBeat n)) chain ->
  linkedTo next [n] ->
  linkedTo next (chain ++ [n]).
Proof.
  intros Hchain Hn. induction chain as [|a [|b rest] IH].
  - exact Hn.
  - cbn [app linkedTo] in *. destruct Hchain as [[Htie Hstart] _].
    split; [split; assumption | exact Hn].
  - destruct Hchain as [Hab Hrest].
    change ((a :: b :: rest) ++ [n]) with (a :: b :: (rest ++ [n])).
    split; [exact Hab | exact (IH Hrest)].
Qed.

Lemma createTiedNotes_linked cfg fuel pitch velocity
    (head : QuantizedNote.t) (remainingBeats : Q) notes :
  0 < QuantizerConfig.minQuantization cfg ->
  QuantizedNote.tieToNext head = true ->
  QuantizerConfig.minQuantization cfg < remainingBeats ->
  createTiedNotes cfg fuel pitch
    (QuantizedNote.startBeat head + QuantizedNote.durationBeats head)
    remainingBeats velocity = Some notes ->
  linked (head :: notes) /\
  Forall (fun n => QuantizedNote.pitch n = pitch /\
                   QuantizedNote.velocity n = velocity) notes.
Proof.
  intros Hq Htie Hrem. unfold createTiedNotes.
  destruct (Js.while_loop fuel _ _ _) as [[[out beat] remaining]|] eqn:Hrun;
    [|discriminate].
  cbn [option_map fst]. intros [= <-].
  apply (while_loop_invariant
           (fun st : TieState =>
              let '(notes, currentBeat, remaining) := st in
              linkedTo
                (if Js.gtb remaining (QuantizerConfig.minQuantization cfg)
                 then Some currentBeat else None)
                (head :: notes) /\
              Forall (fun n => QuantizedNote.pitch n = pitch /\
                               QuantizedNote.velocity n = velocity) notes))
    in Hrun.
  - destruct Hrun as [[Hlinked Hall] Hexit]. unfold tieCond in Hexit.
    rewrite Hexit in Hlinked. split; assumption.
  - intros [[ns b] rem] [Hlinked Hall] Hc. unfold tieCond in Hc.
    rewrite Hc in Hlinked. apply gtb_true in Hc. unfold tieBody.
    pose proof (matchedBeats_min (findDurationType cfg rem)) as Hd.
    set (dur := matchedBeats (findDurationType cfg rem)) in *.
    split.
    + change (head :: ns ++ [?n]) with ((head :: ns) ++ [n]).
      apply linkedTo_snoc; [exact Hlinked|].
      cbn [linkedTo QuantizedNote.tieToNext QuantizedNote.startBeat
           QuantizedNote.durationBeats].
      destruct (Js.gtb (rem - dur) (QuantizerConfig.minQuantization cfg))
        eqn:Hnext; [|split; [reflexivity | exact I]].
      apply gtb_true in Hnext.
      assert (Hle : Js.leb dur rem = true) by (apply leb_true; lra).
      unfold Js.Math_min. rewrite Hle. repeat split.
    + apply Forall_app. split; [exact Hall|].
      repeat constructor.
  - apply gtb_true in Hrem. rewrite Hrem.
    split; [|constructor]. cbn [linkedTo]. repeat split. exact Htie.
Qed.

Lemma quantizeWith_linked cfg fuel note chain :
  0 < QuantizerConfig.minQuantization cfg ->
  quantizeWith cfg fuel note = Some chain ->
  linked chain /\
  Forall (fun n => QuantizedNote.pitch n = DetectedNote.pitch note /\
                   QuantizedNote.velocity n = DetectedNote.velocity note)
    chain /\
  exists head rest,
    chain = head :: rest /\
    QuantizedNote.startBeat head
    = snapToGrid cfg (timeToBeat cfg (DetectedNote.startTime note)).
Proof.
  intros Hq. unfold quantizeWith. cbv zeta.
  pose proof (findDurationType_fit cfg (clampedDuration cfg note) Hq) as Hfit.
  cbv zeta in Hfit.
  set (m := findDurationType cfg (clampedDuration cfg note)) in *.
  cbn [QuantizedNote.durationBeats].
  destruct (Js.gtb (remainderBeats m) 0) eqn:Htie.
  - destruct Hfit as (_ & _ & Hover).
    set (head := {| QuantizedNote.pitch := DetectedNote.pitch note;
                    QuantizedNote.tieToNext := true |}).
    destruct (createTiedNotes cfg fuel _ _ _ _) as [notes|] eqn:Hrun;
      [|discriminate].
    cbn [option_map]. intros [= <-].
    apply (createTiedNotes_linked cfg fuel _ _ head) in Hrun;
      [|exact Hq|reflexivity|exact Hover].
    destruct Hrun as [Hlinked Hall].
    split; [exact Hlinked|].
    split; [constructor; [split; reflexivity | exact Hall]|].
    exists head, notes. split; reflexivity.
  - intros [= <-]. split; [split; [reflexivity | exact I]|].
    split; [repeat constructor|].
    eexists _, _. split; reflexivity.
Qed.

(** X19. The chain [quantizeNote] returns for a note reads as notation:
    it is not empty, its head starts at the snapped start of the note,
    all its notes carry the pitch and the velocity of the note, every note
    but the last is tied to the next, which starts exactly where it ends,
    and the last note is tied to nothing. *)
Theorem tie_chain_linked (note : DetectedNote.t) (q : NoteQuantizer.t) :
  0 < QuantizerConfig.minQuantization (config q) ->
  exists fuel0, forall fuel, (fuel0 <= fuel)%nat ->
    exists head rest q1,
      quantizeNote fuel note q = Some (head :: rest, q1) /\
      QuantizedNote.startBeat head
      = snapToGrid (config q)
          (timeToBeat (config q) (DetectedNote.startTime note)) /\
      linked (head :: rest) /\
      Forall (fun n => QuantizedNote.pitch n = DetectedNote.pitch note /\
                       QuantizedNote.velocity n = DetectedNote.velocity note)
        (head :: rest).
Proof.
  intros Hq. destruct (quantizeWith_total (config q) note) as [fuel0 H].
  exists fuel0. intros fuel Hfuel. destruct (H fuel Hfuel) as [chain Hchain].
  destruct (quantizeWith_linked (config q) fuel note chain Hq Hchain)
    as (Hlinked & Hall & head & rest & -> & Hstart).
  exists head, rest, (addOnset (DetectedNote.startTime note) q).
  rewrite quantizeNote_unfold, Hchain.
  split; [reflexivity|]. split; [exact Hstart|].
  split; [exact Hlinked | exact Hall].
Qed.

(** *** The order of [quantizeNotes] *)

Lemma insertByStart_perm (x : DetectedNote.t) (l : list DetectedNote.t) :
  Permutation (insertByStart x l) (x :: l).
Proof.
  induction l as [|y rest IH]; cbn [insertByStart]; [reflexivity|].
  destruct (Js.leb _ _); [reflexivity|].
  rewrite IH. apply perm_swap.
Qed.

Lemma insertByStart_sorted (x : DetectedNote.t) (l : list DetectedNote.t) :
  StronglySorted byStart l -> StronglySorted byStart (insertByStart x l).
Proof.
  induction 1 as [|y rest Hrest IH Hy]; cbn [insertByStart].
  - repeat constructor.
  - destruct (Js.leb _ _) eqn:Hcmp;
      [apply leb_true in Hcmp | apply leb_false in Hcmp].
    + assert (Hxy : byStart x y) by (unfold byStart; lra).
      constructor; [constructor; assumption|].
      constructor; [exact Hxy|].
      eapply Forall_impl; [exact Hy|]. unfold byStart in *. cbn beta.
      intros z Hz. lra.
    + constructor; [exact IH|].
      assert (Hall : Forall (byStart y) (x :: rest))
        by (constructor; [unfold byStart; lra | exact Hy]).
      rewrite Forall_forall in Hall. apply Forall_forall.
      intros z Hz. apply Hall.
      apply list_elem_of_In. apply list_elem_of_In in Hz.
      apply (Permutation_in _ (insertByStart_perm x rest) Hz).
Qed.

Lemma sortByStart_fixed (l : list DetectedNote.t) :
  StronglySorted byStart l -> sortByStart l = l.
Proof.
  unfold sortByStart.
  induction 1 as [|x rest Hrest IH Hx]; cbn [fold_right]; [reflexivity|].
  rewrite IH. destruct rest as [|y rest]; [reflexivity|].
  cbn [insertByStart].
  assert (Hxy : byStart x y)
    by (rewrite Forall_forall in Hx; apply Hx; left).
  unfold byStart in Hxy.
  assert (Hcmp : Js.leb (DetectedNote.startTime x - DetectedNote.startTime y) 0
                 = true) by (apply leb_true; lra).
  rewrite Hcmp. reflexivity.
Qed.

Lemma sortByStart_sorted (notes : list DetectedNote.t) :
  StronglySorted byStart (sortByStart notes).
Proof.
  unfold sortByStart. induction notes as [|x rest IH]; [constructor|].
  cbn [fold_right]. apply insertByStart_sorted, IH.
Qed.

(** X20. The sort of [quantizeNotes] rearranges the notes and nothing
    else, puts them in order of start time, and is stable: notes already
    in that order, equal start times included, are left as they are. *)
Theorem sort_by_start (notes : list DetectedNote.t) :
  Permutation (sortByStart notes) notes /\
  StronglySorted byStart (sortByStart notes) /\
  (StronglySorted byStart notes -> sortByStart notes = notes).
Proof.
  split; [|split; [|apply sortByStart_fixed]].
  - unfold sortByStart. induction notes as [|x rest IH]; [reflexivity|].
    cbn [fold_right]. rewrite insertByStart_perm, IH. reflexivity.
  - apply sortByStart_sorted.
Qed.

Lemma quantizeEach_onsets fuel sorted q out q1 :
  quantizeEach fuel sorted q = Some (out, q1) ->
  beatDetector q1
  = BeatDetector.addOnsets (map DetectedNote.startTime sorted)
      (beatDetector q).
Proof.
  revert q out. induction sorted as [|note rest IH]; intros q out.
  - cbn [quantizeEach]. intros [= _ <-]. reflexivity.
  - cbn [quantizeEach]. rewrite quantizeNote_unfold.
    destruct (quantizeWith (config q) fuel note) as [notes|]; [|discriminate].
    cbn [option_map].
    destruct (quantizeEach fuel rest _) as [[more q2]|] eqn:Hrest;
      [|discriminate].
    intros [= _ <-]. apply IH in Hrest. rewrite Hrest. reflexivity.
Qed.

(** X21. [quantizeNotes] returns, and what it leaves in the beat detector
    is the onsets it had, followed by the start times of the notes in
    ascending order, cut to the last hundred: the output of one call
    feeds the tempo estimate of the next. *)
Theorem quantizeNotes_records_onsets (notes : list DetectedNote.t)
    (q : NoteQuantizer.t) :
  exists fuel0, forall fuel, (fuel0 <= fuel)%nat ->
    exists out q1,
      quantizeNotes fuel notes q = Some (out, q1) /\
      beatDetector q1
      = BeatDetector.addOnsets
          (map DetectedNote.startTime (sortByStart notes)) (beatDetector q) /\
      StronglySorted Qle (map DetectedNote.startTime (sortByStart notes)).
Proof.
  unfold quantizeNotes.
  destruct (quantizeEach_total (sortByStart notes) q) as [fuel0 H].
  exists fuel0. intros fuel Hfuel.
  destruct (H fuel Hfuel) as (out & q1 & Hrun).
  exists out, q1. split; [exact Hrun|].
  split; [exact (quantizeEach_onsets _ _ _ _ _ Hrun)|].
  assert (Hsorted : forall l, StronglySorted byStart l ->
            StronglySorted Qle (map DetectedNote.startTime l)).
  { induction 1 as [|x rest _ IH Hx]; cbn [map]; constructor; [exact IH|].
    apply Forall_forall. intros t Ht. apply list_elem_of_In in Ht.
    apply in_map_iff in Ht as (y & <- & Hy).
    rewrite Forall_forall in Hx. apply Hx, list_elem_of_In, Hy. }
  apply Hsorted, sortByStart_sorted.
Qed.

End GridFacts.

(** *** The quantizer on concrete notes *)

Module QuantizerExamples.

Import NoteQuantizer Examples.
Local Open Scope Q_scope.

Lemma default_tempo_witness :
  BeatDetector.estimateBPM 0 (BeatDetector.addOnsets rapidOnsets BeatDetector.new)
  = Some 120.
Proof.
  apply (BeatDetectorFacts.default_tempo 0 rapidOnsets).
  right. vm_compute.
  repeat (apply List.Forall_cons;
          [intros [Hlo _]; apply Hlo; reflexivity|]).
  apply List.Forall_nil.
Defined.

Lemma tempo_estimation_witness :
  BeatDetector.estimateBPM 1
    (BeatDetector.addOnsets steadyOnsets BeatDetector.new) = Some 120 /\
  exists bpm,
    BeatDetector.estimateBPM 2 rapidOnsets = Some bpm /\ 60 <= bpm <= 180.
Proof.
  split.
  - apply (proj1 BeatDetectorFacts.tempo_estimation 1%nat steadyOnsets).
    + lia.
    + cbn [steadyOnsets length]. lia.
    + vm_compute.
      repeat (apply List.Forall_cons; [reflexivity|]). apply List.Forall_nil.
  - apply (proj2 BeatDetectorFacts.tempo_estimation 2%nat rapidOnsets). lia.
Defined.

Lemma tie_chain_sum_witness :
  exists fuel0, forall fuel, (fuel0 <= fuel)%nat ->
    exists chain q1,
      quantizeNote fuel fiveBeats quantizer = Some (chain, q1) /\
      clampedDuration (config quantizer) fiveBeats
      - QuantizerConfig.minQuantization (config quantizer)
      <= chainBeats chain /\
      chainBeats chain
      <= clampedDuration (config quantizer) fiveBeats
         + Qmax (1 # 2)
             (QuantizerConfig.minQuantization (config quantizer) * (1 # 2)) /\
      (tied chain ->
       chainBeats chain <= clampedDuration (config quantizer) fiveBeats).
Proof.
  destruct (proj1 NoteQuantizerFacts.tie_chain_sum fiveBeats quantizer
              eq_refl) as [fuel0 H].
  exists fuel0. intros fuel Hfuel.
  destruct (H fuel Hfuel) as (chain & q1 & Hrun & Hlow & Hhigh & Htied & _).
  exists chain, q1.
  split; [exact Hrun|]. split; [exact Hlow|].
  split; [exact Hhigh | exact Htied].
Defined.

(** The sum over the chain is not the quantized duration in general.  Three
    and a half beats are nearest to a whole note: [quantizeNote] returns
    that one note, four beats, half a beat more than the quantized
    duration. *)
Lemma tie_chain_sum_as_stated_fails :
  ~ (forall fuel note q chain q1,
       quantizeNote fuel note q = Some (chain, q1) ->
       Qabs (chainBeats chain - clampedDuration (config q) note) <= 0.000001).
Proof.
  intros H.
  specialize (H 1%nat threeAndAHalfBeats quantizer _ _ eq_refl).
  vm_compute in H. apply H. reflexivity.
Qed.

(** A chain proper can fall short too: of eight beats and a 64th, a whole
    note tied to a whole note, the 64th is dropped. *)
Example tie_chain_drops_rest :
  clampedDuration DEFAULT_CONFIG eightBeatsAndA64th == 8.0625 /\
  exists head next q1,
    quantizeNote 2 eightBeatsAndA64th quantizer = Some ([head; next], q1) /\
    QuantizedNote.tieToNext head = true /\
    chainBeats [head; next] == 8.
Proof.
  split; [reflexivity|].
  eexists _, _, _. split; [vm_compute; reflexivity|]. split; reflexivity.
Qed.

Lemma quantizer_idempotence_witness :
  exists fuel0, forall fuel, (fuel0 <= fuel)%nat ->
    exists out q1 q2,
      quantizeNotes fuel [fiveBeats; threeAndAHalfBeats] quantizer
      = Some (out, q1) /\
      quantizeNotes fuel [fiveBeats; threeAndAHalfBeats] q1 = Some (out, q2) /\
      config q1 = config quantizer.
Proof.
  apply (NoteQuantizerFacts.quantizer_idempotence
           [fiveBeats; threeAndAHalfBeats] quantizer).
Defined.

End QuantizerExamples.

(** *** The decoder on concrete traces *)

Module NoteDecoderExamples.

Import NoteDecoder Examples.
Local Open Scope Q_scope.

(** Closed order facts between numerals, and lists of them. *)
Ltac order :=
  vm_compute; first [reflexivity | discriminate | intro; discriminate].
Ltac each :=
  vm_compute; repeat (apply List.Forall_cons; [order|]); apply List.Forall_nil.

Lemma hysteresis_single_note_witness :
  let onsetTime := frameTimeOf decoder 10 0 in
  let offsetTime := frameTimeOf decoder 30 0 in
  let out := processFrames longTrace 0 0 decoder in
  exists note,
    notesOf 60 (fst out) = [note] /\
    DetectedNote.pitch note = 60%Z /\
    DetectedNote.startTime note = onsetTime /\
    DetectedNote.endTime note = Some offsetTime /\
    DetectedNote.duration note = offsetTime - onsetTime /\
    DetectedNote.isActive note = false /\
    Js.Map.get 60 (activeNotes (snd out)) = None.
Proof.
  apply (NoteDecoderFacts.hysteresis_single_note decoder 39 0 0
           (quiet 10) (frameOf 0.9) (loud 19) (frameOf 0) (quiet 9)).
  - unfold NUM_PIANO_KEYS. lia.
  - each.
  - reflexivity.
  - order.
  - each.
  - order.
  - each.
  - order.
  - each.
  - order.
Defined.

(** With the timing premise put on the silence after the offset, that it
    lasts [minDurationSeconds], instead of on the sounding span, the
    property does not hold: on [shortTrace] the silence lasts 58 ms, the
    pitch has sounded for 23 ms only, and the decoder, asked for 50 ms,
    emits nothing. *)
Lemma hysteresis_as_stated_fails :
  ~ (forall d pitch i baseTimestamp pre onsetFrame mid offsetFrame post,
       (0 <= pitch < NUM_PIANO_KEYS)%Z ->
       Forall full (pre ++ onsetFrame :: mid ++ offsetFrame :: post) ->
       Js.Map.get (pitch + PIANO_MIN_MIDI)%Z (activeNotes d) = None ->
       offsetThreshold d <= onsetThreshold d ->
       Forall (fun f => read f pitch < onsetThreshold d) pre ->
       onsetThreshold d <= read onsetFrame pitch ->
       Forall (fun f => offsetThreshold d <= read f pitch) mid ->
       read offsetFrame pitch < offsetThreshold d ->
       Forall (fun f => read f pitch < offsetThreshold d) post ->
       minDurationSeconds d
       <= frameTimeOf d
            (i + Z.of_nat (length pre) + 1 + Z.of_nat (length mid)
             + Z.of_nat (length post))%Z baseTimestamp
          - frameTimeOf d
              (i + Z.of_nat (length pre) + 1 + Z.of_nat (length mid))%Z
              baseTimestamp ->
       exists note,
         notesOf (pitch + PIANO_MIN_MIDI)%Z
           (fst (processFrames
                   (pre ++ onsetFrame :: mid ++ offsetFrame :: post)
                   i baseTimestamp d))
         = [note]).
Proof.
  intros H.
  destruct (H decoder 39%Z 0%Z 0 [] (frameOf 0.9) [frameOf 0.5] (frameOf 0)
              (quiet 5)) as [note Hnote].
  - unfold NUM_PIANO_KEYS. lia.
  - each.
  - reflexivity.
  - order.
  - each.
  - order.
  - each.
  - order.
  - each.
  - order.
  - vm_compute in Hnote. discriminate.
Qed.

Lemma minimum_duration_filter_witness :
  notesOf 60 (fst (processFrames shortTrace 0 0 decoder)) = [].
Proof.
  apply (proj2 (proj2 NoteDecoderFacts.minimum_duration_filter)
           decoder 39%Z 0%Z 0 [] (frameOf 0.9) [frameOf 0.5] (frameOf 0)
           (quiet 5)).
  - unfold NUM_PIANO_KEYS. lia.
  - each.
  - reflexivity.
  - order.
  - each.
  - order.
  - each.
  - order.
  - each.
  - order.
Defined.

End NoteDecoderExamples.

(** *** The channel on a concrete run *)

Module RingBufferExamples.

Import RingBuffer Examples.
Local Open Scope Z_scope.

Lemma channel_conservation_witness :
  let rb := run 0 (take 5 demo_ops) (create four) in
  0 <= availableRead rb <= capacity rb - 1 /\
  0 <= availableWrite rb <= capacity rb - 1 /\
  capacity rb = len four.
Proof.
  apply (proj2 (RingBufferFacts.channel_conservation 0 four demo_ops 5)).
  - unfold len; simpl; lia.
  - repeat constructor; simpl; lia.
Defined.

Lemma wf_wrapped : wf wrapped.
Proof. unfold wf, capacity, len; simpl; lia. Defined.

Lemma push_overflow_policy_witness :
  fst (push 0 [1; 2; 3] wrapped) = 2 /\
  contents 0 (snd (push 0 [1; 2; 3] wrapped)) = [9; 1; 2] /\
  fst (AudioRecorderProcessor.pushToBuffer 0 [1; 2; 3] worklet) = 2.
Proof.
  destruct (RingBufferFacts.push_overflow_policy 0 [1; 2; 3] wrapped wf_wrapped)
    as (Hn & _ & _ & Hc & _ & _ & Hworklet).
  split; [exact Hn|]. split; [exact Hc|].
  rewrite (Hworklet worklet eq_refl eq_refl). exact Hn.
Defined.

Lemma round_trip_witness :
  let '(pushed, pulled, rb') := session 0 demo_calls (create four) in
  pushed = pulled ++ contents 0 rb' /\ pulled `prefix_of` pushed.
Proof.
  apply (RingBufferFacts.round_trip 0 four demo_calls).
  - unfold len; simpl; lia.
  - vm_compute. repeat split; discriminate.
Defined.

Lemma wf_filled : wf filled.
Proof. vm_compute. repeat split; discriminate. Defined.

Lemma peek_non_consuming_witness :
  fst (peek 0 [0; 0] 1 filled) = (2, [1; 2]) /\
  contents 0 (snd (peek 0 [0; 0] 1 filled)) = [9; 1; 2].
Proof.
  destruct (RingBufferFacts.peek_non_consuming 0 [0; 0] 1 filled) as [_ H].
  apply H; [exact wf_filled | lia].
Defined.

End RingBufferExamples.

(** *** The reader and the worklet on a concrete channel *)

Module ChannelExamples.

Import RingBuffer Examples RingBufferExamples.
Local Open Scope Z_scope.

Lemma pull_oldest_first_witness :
  fst (pull 0 [0; 0] filled) = (2, [9; 1]) /\
  contents 0 (snd (pull 0 [0; 0] filled)) = [2].
Proof.
  destruct (ChannelFacts.pull_oldest_first 0 [0; 0] filled wf_filled)
    as (Hout & Hrest & _).
  split; [exact Hout | exact Hrest].
Defined.

Lemma skip_is_pull_discarded_witness :
  contents 0 (snd (skip 2 filled)) = [2].
Proof.
  exact (proj2 (ChannelFacts.skip_is_pull_discarded 0 2 [0; 0] filled
                  wf_filled eq_refl)).
Defined.

Lemma push_push_witness :
  contents 0 (snd (push 0 [2; 3] (snd (push 0 [1] wrapped)))) = [9; 1; 2].
Proof.
  exact (proj1 (proj2 (ChannelFacts.push_push 0 [1] [2; 3] wrapped
                         wf_wrapped))).
Defined.

Lemma empty_and_full_witness : push 0 [7] filled = (0, filled).
Proof.
  destruct (ChannelFacts.empty_and_full 0 filled wf_filled)
    as (_ & _ & Hfull & _).
  apply Hfull. reflexivity.
Defined.

Lemma health_is_a_fraction_witness : (getHealth filled < 1)%Q.
Proof.
  exact (proj1 (proj2 (ChannelFacts.health_is_a_fraction 0 filled
                         wf_filled))).
Defined.

Lemma push_keeps_window_witness :
  fst (peek 0 [0] 0 (snd (push 0 [5] wrapped))) = (1, [9]).
Proof.
  apply (ChannelFacts.push_keeps_window 0 [5] [0] 0 wrapped).
  - exact wf_wrapped.
  - lia.
  - vm_compute. discriminate.
Defined.

Lemma ready_reader : WindowedRingBufferReader.ready reader.
Proof.
  split; [exact wf_filled|]. vm_compute. repeat split; discriminate.
Defined.

Lemma getNextWindow_spec_witness :
  exists r',
    WindowedRingBufferReader.getNextWindow 0 reader = (Some [9; 1], r') /\
    contents 0 (WindowedRingBufferReader.ringBuffer r') = [1; 2].
Proof.
  pose proof (ReaderFacts.getNextWindow_spec 0 reader ready_reader) as H.
  change (availableRead (WindowedRingBufferReader.ringBuffer reader)
          <? WindowedRingBufferReader.windowSize reader) with false in H.
  cbv iota in H. destruct H as (r' & Hwindow & Hrest & _).
  exists r'. split; [exact Hwindow | exact Hrest].
Defined.

Lemma windows_overlap_witness : drop 1 [9; 1] = take 1 [1; 2].
Proof.
  refine (ReaderFacts.windows_overlap 0 reader _ _ [3] [9; 1] [1; 2]
            ready_reader _ _ _).
  - vm_compute. discriminate.
  - vm_compute. reflexivity.
  - vm_compute. reflexivity.
Defined.

Lemma attached_worklet : AudioRecorderProcessor.attached worklet wrapped.
Proof.
  repeat split; try reflexivity; try apply wf_wrapped.
Defined.

Lemma worklet_push_witness :
  exists rb',
    AudioRecorderProcessor.pushToBuffer 0 [1; 2; 3] worklet
    = (2, AudioRecorderProcessor.with_buffer worklet (Some rb')).
Proof.
  destruct (WorkletFacts.worklet_push 0 [1; 2; 3] worklet wrapped
              attached_worklet) as (rb' & Hpush & _).
  exists rb'. exact Hpush.
Defined.

Lemma process_accounting_witness :
  exists message w' rb',
    AudioRecorderProcessor.process 0 [[[1; 2; 3]]] worklet
    = (true, message, w') /\
    contents 0 rb' = [9; 1; 2] /\
    AudioRecorderProcessor.droppedSamples w' = 1.
Proof.
  destruct (WorkletFacts.process_accounting 0 worklet wrapped [1; 2; 3] [] [])
    as (_ & _ & _ & _ & H).
  destruct (H attached_worklet ltac:(discriminate))
    as (message & w' & rb' & Hrun & _ & Hcontents & _ & Hdropped & _).
  exists message, w', rb'.
  split; [exact Hrun|]. split; [exact Hcontents | exact Hdropped].
Defined.

End ChannelExamples.

(** *** More of the decoder on concrete traces *)

Module DecoderExamples.

Import NoteDecoder Examples.
Local Open Scope Q_scope.

Ltac order :=
  vm_compute; first [reflexivity | discriminate | intro; discriminate].
Ltac each :=
  vm_compute; repeat (apply List.Forall_cons; [order|]); apply List.Forall_nil.

Lemma tidy_decoder : tidy (activeNotes decoder).
Proof. split; constructor. Defined.

Lemma table_stays_tidy_witness :
  tidy (activeNotes (snd (processFrame (frameOf 0.9) None 0 0 decoder))).
Proof.
  exact (proj1 (proj1 DecoderFacts.table_stays_tidy (frameOf 0.9) None 0%Z 0
                  decoder tidy_decoder)).
Defined.

Lemma one_note_per_pitch_witness :
  notesOf 60 (fst (processFrame (frameOf 0.9) None 0 0 decoder)) = [].
Proof.
  apply (proj2 (proj2 (DecoderFacts.one_note_per_pitch (frameOf 0.9) None 0%Z
                         0 decoder))).
  reflexivity.
Defined.

Lemma stop_closes_sounding_note_witness :
  exists note,
    notesOf 60
      (fst (closeAllNotes 1
              (snd (processFrames (quiet 10 ++ frameOf 0.9 :: loud 19)
                      0 0 decoder))))
    = [note] /\
    DetectedNote.startTime note = frameTimeOf decoder 10 0 /\
    DetectedNote.endTime note = Some 1.
Proof.
  destruct (DecoderFacts.stop_closes_sounding_note decoder 39%Z 0%Z 0
              (quiet 10) (frameOf 0.9) (loud 19) 1) as (_ & Hlong & _).
  - unfold NUM_PIANO_KEYS. lia.
  - each.
  - exact tidy_decoder.
  - reflexivity.
  - each.
  - order.
  - each.
  - destruct Hlong as (note & Hnotes & _ & Hstart & Hend & _); [order|].
    exists note. split; [exact Hnotes|]. split; [exact Hstart | exact Hend].
Defined.

Lemma note_velocity_and_confidence_witness :
  exists note,
    notesOf 60
      (fst (processFrames
              (quiet 10 ++ frameOf 0.9 :: loud 19 ++ [frameOf 0]) 0 0 decoder))
    = [note] /\
    DetectedNote.velocity note = 114.
Proof.
  destruct (DecoderFacts.note_velocity_and_confidence decoder 39%Z 0%Z 0
              (quiet 10) (frameOf 0.9) (loud 19) (frameOf 0))
    as (note & Hnotes & Hvelocity & _).
  - unfold NUM_PIANO_KEYS. lia.
  - each.
  - reflexivity.
  - each.
  - order.
  - each.
  - order.
  - order.
  - exists note. split; [exact Hnotes | exact Hvelocity].
Defined.

End DecoderExamples.

(** *** More of the quantizer on concrete inputs *)

Module GridExamples.

Import NoteQuantizer Examples.
Local Open Scope Q_scope.

Lemma onset_history_witness :
  length (BeatDetector.addOnsets steadyOnsets BeatDetector.new) = 5%nat.
Proof.
  apply (proj2 (TempoFacts.onset_history steadyOnsets BeatDetector.new
                  ltac:(vm_compute; lia))).
Defined.

Lemma snap_to_grid_witness :
  snapToGrid DEFAULT_CONFIG (inject_Z 3 * 0.0625) = inject_Z 3 * 0.0625.
Proof.
  exact (proj1 (GridFacts.snap_to_grid DEFAULT_CONFIG eq_refl) 3%Z).
Defined.

Lemma exact_durations_witness :
  findDurationType DEFAULT_CONFIG 2 = mkMatch half false 0 /\
  findDurationType DEFAULT_CONFIG (2 * DOTTED_MULTIPLIER)
  = mkMatch half true 0.
Proof.
  apply (GridFacts.exact_durations DEFAULT_CONFIG (entry half 2)).
  - reflexivity.
  - vm_compute. discriminate.
  - right. left. reflexivity.
Defined.

Lemma tie_chain_linked_witness :
  exists fuel0, forall fuel, (fuel0 <= fuel)%nat ->
    exists head rest q1,
      quantizeNote fuel fiveBeats quantizer = Some (head :: rest, q1) /\
      linked (head :: rest).
Proof.
  destruct (GridFacts.tie_chain_linked fiveBeats quantizer eq_refl)
    as [fuel0 H].
  exists fuel0. intros fuel Hfuel.
  destruct (H fuel Hfuel) as (head & rest & q1 & Hrun & _ & Hlinked & _).
  exists head, rest, q1. split; [exact Hrun | exact Hlinked].
Defined.

Lemma sort_by_start_witness :
  sortByStart [fiveBeats; threeAndAHalfBeats]
  = [fiveBeats; threeAndAHalfBeats].
Proof.
  apply (proj2 (proj2 (GridFacts.sort_by_start
                         [fiveBeats; threeAndAHalfBeats]))).
  repeat constructor; vm_compute; discriminate.
Defined.

End GridExamples.
